(** * Trading-bot visualizer: the strategy simulation engine

    A shallow embedding of [src/hooks/useSimulator.ts]: the indicator
    pipeline ([computeSMA], [computeEMA], [computeMACD],
    [computeBollingerBands], [computeStochastic], [computeRSI]), the
    decision function [decide], and the store actions [step] and [reset],
    followed by the properties of the specification.

    Numbers.  A TypeScript [number] is modelled by [number] below: the
    rationals with exact arithmetic, extended by [Infinity], [-Infinity]
    and [NaN] with the IEEE rules for them (division by zero, [Infinity *
    0], comparisons with [NaN]).  Rounding and overflow of binary64 are
    not part of the model, and zero carries no sign.  The properties
    below are therefore those that do not hang on a rounded digit: what
    is compared, appended, kept or left undefined, and bounds that the
    rounding to nearest keeps.  Where rounding or overflow itself
    decides what the program does, [Binary64] has the source expression
    over binary64 and the examples show the difference. *)

From Stdlib Require Import List ZArith QArith Qround Qabs String Ascii Bool.
From Stdlib Require Import DecimalString Sorted Lia Lqa SpecFloat.
Import ListNotations.

Set Implicit Arguments.

(** ** Numbers *)

Inductive number : Type :=
| Fin (q : Q)
| PInf
| NInf
| NaN.

Declare Scope num_scope.
Delimit Scope num_scope with num.
Bind Scope num_scope with number.

Definition ofZ (z : Z) : number := Fin (inject_Z z).

(** The infinity of the sign of [c] (the comparison of a finite factor
    with zero), [NaN] when that factor is zero. *)
Definition signedInf (c : comparison) : number :=
  match c with Gt => PInf | Lt => NInf | Eq => NaN end.

Definition num_neg (x : number) : number :=
  match x with
  | Fin a => Fin (- a)
  | PInf => NInf
  | NInf => PInf
  | NaN => NaN
  end.

Definition num_add (x y : number) : number :=
  match x, y with
  | NaN, _ | _, NaN => NaN
  | Fin a, Fin b => Fin (a + b)
  | PInf, NInf | NInf, PInf => NaN
  | PInf, _ | _, PInf => PInf
  | NInf, _ | _, NInf => NInf
  end.

Definition num_sub (x y : number) : number :=
  match x, y with
  | NaN, _ | _, NaN => NaN
  | Fin a, Fin b => Fin (a - b)
  | PInf, PInf | NInf, NInf => NaN
  | PInf, _ | _, NInf => PInf
  | NInf, _ | _, PInf => NInf
  end.

Definition num_mul (x y : number) : number :=
  match x, y with
  | NaN, _ | _, NaN => NaN
  | Fin a, Fin b => Fin (a * b)
  | Fin a, PInf | PInf, Fin a => signedInf (a ?= 0)
  | Fin a, NInf | NInf, Fin a => signedInf (0 ?= a)
  | PInf, PInf | NInf, NInf => PInf
  | PInf, NInf | NInf, PInf => NInf
  end.

Definition num_div (x y : number) : number :=
  match x, y with
  | NaN, _ | _, NaN => NaN
  | Fin a, Fin b => if Qeq_bool b 0 then signedInf (a ?= 0) else Fin (a / b)
  | Fin _, (PInf | NInf) => Fin 0
  | PInf, Fin b => match b ?= 0 with Lt => NInf | _ => PInf end
  | NInf, Fin b => match b ?= 0 with Lt => PInf | _ => NInf end
  | (PInf | NInf), (PInf | NInf) => NaN
  end.

(** [<], [<=], [>], [>=]: false as soon as an operand is [NaN]. *)
Definition num_ltb (x y : number) : bool :=
  match x, y with
  | NaN, _ | _, NaN => false
  | Fin a, Fin b => match a ?= b with Lt => true | _ => false end
  | NInf, (Fin _ | PInf) => true
  | Fin _, PInf => true
  | _, _ => false
  end.

Definition num_leb (x y : number) : bool :=
  match x, y with
  | NaN, _ | _, NaN => false
  | Fin a, Fin b => Qle_bool a b
  | NInf, _ => true
  | _, PInf => true
  | _, _ => false
  end.

Definition num_gtb (x y : number) : bool := num_ltb y x.
Definition num_geb (x y : number) : bool := num_leb y x.

(** [===] and [!==] on numbers. *)
Definition num_eqb (x y : number) : bool :=
  match x, y with
  | Fin a, Fin b => Qeq_bool a b
  | PInf, PInf | NInf, NInf => true
  | _, _ => false
  end.

Definition num_neqb (x y : number) : bool := negb (num_eqb x y).

Definition Math_floor (x : number) : number :=
  match x with
  | Fin a => ofZ (Qfloor a)
  | _ => x
  end.

Definition Math_abs (x : number) : number :=
  match x with
  | Fin a => Fin (Qabs a)
  | PInf | NInf => PInf
  | NaN => NaN
  end.

(** [Math.max(a, b)] and [Math.min(a, b)]; [NaN] is contagious. *)
Definition max2 (x y : number) : number :=
  match x, y with
  | NaN, _ | _, NaN => NaN
  | _, _ => if num_leb x y then y else x
  end.

Definition min2 (x y : number) : number :=
  match x, y with
  | NaN, _ | _, NaN => NaN
  | _, _ => if num_leb x y then x else y
  end.

(** [Math.max(...xs)] and [Math.min(...xs)]: [-Infinity] and [Infinity]
    on the empty argument list. *)
Definition Math_max (xs : list number) : number := fold_left max2 xs NInf.
Definition Math_min (xs : list number) : number := fold_left min2 xs PInf.

Notation "x + y" := (num_add x y) : num_scope.
Notation "x - y" := (num_sub x y) : num_scope.
Notation "x * y" := (num_mul x y) : num_scope.
Notation "x / y" := (num_div x y) : num_scope.
Notation "x <? y" := (num_ltb x y) : num_scope.
Notation "x <=? y" := (num_leb x y) : num_scope.
Notation "x >? y" := (num_gtb x y) : num_scope.
Notation "x >=? y" := (num_geb x y) : num_scope.
Notation "x === y" := (num_eqb x y) (at level 70, no associativity) : num_scope.
Notation "x !== y" := (num_neqb x y) (at level 70, no associativity) : num_scope.

(** ** Host functions

    [Math.sqrt] has irrational values, and [Number.prototype.toFixed] and
    the conversion of a number to a string print the binary64 value: the
    three are parameters of the development.  [refHost] below is the
    instance used to run the definitions. *)

Class Host : Type := {
  Math_sqrt : number -> number;
  toFixed : number -> nat -> string;
  toStr : number -> string
}.

(** ** Completions

    An action of the store either returns or throws (a [TypeError], when
    a property of [undefined] is read). *)

Inductive completion (A : Type) : Type :=
| Normal (a : A)
| Throw.

Arguments Throw {A}.

Definition bind {A B : Type} (m : completion A) (k : A -> completion B)
  : completion B :=
  match m with
  | Normal a => k a
  | Throw => Throw
  end.

Notation "x <- m ;; k" := (bind m (fun x => k))
  (at level 61, m at next level, right associativity).

(** [xs[i]] for an integer [i]: [undefined] outside [0 .. length-1]. *)
Definition at_ {A : Type} (xs : list A) (i : Z) : option A :=
  if (i <? 0)%Z then None else nth_error xs (Z.to_nat i).

(** [o?.f] *)
Definition chain {A B : Type} (o : option A) (f : A -> option B) : option B :=
  match o with
  | Some a => f a
  | None => None
  end.

(** ** Data model *)

Open Scope string_scope.

Record Candle : Type := mkCandle {
  timestamp : string;
  open : number;
  high : number;
  low : number;
  close : number;
  volume : number;
  smaShort : option number;
  smaLong : option number;
  emaShort : option number;
  emaLong : option number;
  macdLine : option number;
  macdSignal : option number;
  macdHistogram : option number;
  bollingerUpper : option number;
  bollingerMiddle : option number;
  bollingerLower : option number;
  stochK : option number;
  stochD : option number
}.

Record RsiPoint : Type := mkRsiPoint { rp_timestamp : string; rp_value : number }.
Record EquityPoint : Type := mkEquityPoint { ep_timestamp : string; ep_value : number }.

Inductive TradeType : Type := TBUY | TSELL.

Record Trade : Type := mkTrade {
  index : Z;
  type : TradeType;
  price : number;
  reason : string
}.

(** The eight names of the type [StrategyName]; [OTHER] stands for any
    other string, which reaches the [default] branch of [decide]. *)
Inductive StrategyName : Type :=
| SMA_CROSSOVER
| EMA_CROSSOVER
| RSI
| MACD
| BOLLINGER_BANDS
| STOCHASTIC
| MEAN_REVERSION
| BUY_AND_HOLD
| OTHER (name : string).

Inductive Action : Type := BUY | SELL | HOLD.

Record Decision : Type := mkDecision { action : Action; d_reason : string }.

(** The fields of the store that the simulation reads or writes (the
    dataset catalogue and the chart series are left out).  [candles] and
    [rsiSeries] are replaced together when a dataset is loaded and by no
    other action. *)
Record SimulatorState : Type := mkState {
  candles : list Candle;
  rsiSeries : list RsiPoint;
  equitySeries : list EquityPoint;
  trades : list Trade;
  currentIndex : Z;
  isPlaying : bool;
  speedMs : number;
  cash : number;
  shares : number;
  lastExplanation : string;
  strategyName : StrategyName;
  portfolioValue : number
}.

Definition isDefined (o : option number) : bool :=
  match o with Some _ => true | None => false end.

(** [xs.findIndex(p)]: the first index whose element satisfies [p], [-1]
    when there is none. *)
Fixpoint findIndexFrom {A : Type} (p : A -> bool) (xs : list A) (i : Z) : Z :=
  match xs with
  | [] => (-1)%Z
  | x :: rest => if p x then i else findIndexFrom p rest (i + 1)%Z
  end.

Definition findIndex {A : Type} (p : A -> bool) (xs : list A) : Z :=
  findIndexFrom p xs 0%Z.

(** ** The indicator pipeline *)

Section Engine.

Context {host : Host}.

(** An array element used as an operand: [undefined] becomes [NaN]. *)
Definition toNumber (o : option number) : number :=
  match o with Some v => v | None => NaN end.

(** [xs[i]] in an array with holes. *)
Definition element (xs : list (option number)) (i : Z) : option number :=
  chain (at_ xs i) id.

(** The indices [0 .. n-1] of an array of length [n]. *)
Definition indices (n : nat) : list Z := map Z.of_nat (seq 0 n).

(** [xs.slice(start, stop)] for [0 <= start] (every call of the source). *)
Definition slice {A : Type} (xs : list A) (start stop : Z) : list A :=
  firstn (Z.to_nat (stop - start)) (skipn (Z.to_nat start) xs).

(** [xs.filter(v => v !== undefined)] *)
Fixpoint compact (xs : list (option number)) : list number :=
  match xs with
  | [] => []
  | Some v :: rest => v :: compact rest
  | None :: rest => compact rest
  end.

(** The loops that put a compacted series back on the indices where
    [mask] is defined: [out[i] = series[k++]]. *)
Fixpoint expand (mask : list (option number)) (series : list (option number))
  : list (option number) :=
  match mask with
  | [] => []
  | None :: mask' => None :: expand mask' series
  | Some _ :: mask' =>
    match series with
    | [] => None :: expand mask' []
    | v :: series' => v :: expand mask' series'
    end
  end.

(** The loop of [computeSMA] from index [i] on, [sum] being the running
    sum and [rest] the values not yet visited. *)
Fixpoint smaLoop (values : list number) (window : Z) (i : Z)
  (rest : list number) (sum : number) : list (option number) :=
  match rest with
  | [] => []
  | v :: rest' =>
    let sum1 := (sum + v)%num in
    let sum2 := if (i >=? window)%Z
                then (sum1 - toNumber (at_ values (i - window)))%num
                else sum1 in
    (if (i >=? window - 1)%Z then Some (sum2 / ofZ window)%num else None)
      :: smaLoop values window (i + 1) rest' sum2
  end.

Definition computeSMA (values : list number) (window : Z)
  : list (option number) :=
  smaLoop values window 0 values (ofZ 0).

(** The two loops of [computeEMA] in one pass: indices below [window]
    accumulate the seed, the others smooth; [prev] is [out[i - 1]].
    The list holds the elements at the indices from 0 on.  With a
    negative window the second loop of the source starts below 0 and
    stores [NaN] at the indices [window .. -1] too, as properties of
    the array that are no elements of it; the element at index 0 is
    [NaN] then, here as there. *)
Fixpoint emaLoop (window : Z) (multiplier : number) (i : Z)
  (rest : list number) (sum : number) (prev : option number)
  : list (option number) :=
  match rest with
  | [] => []
  | v :: rest' =>
    if (i <? window)%Z then
      let sum1 := (sum + v)%num in
      let o := if (i =? window - 1)%Z then Some (sum1 / ofZ window)%num
               else None in
      o :: emaLoop window multiplier (i + 1) rest' sum1 o
    else
      let o := Some (v * multiplier
                     + toNumber prev * (ofZ 1 - multiplier))%num in
      o :: emaLoop window multiplier (i + 1) rest' sum o
  end.

Definition computeEMA (values : list number) (window : Z)
  : list (option number) :=
  let multiplier := (ofZ 2 / (ofZ window + ofZ 1))%num in
  emaLoop window multiplier 0 values (ofZ 0) None.

Record MacdResult : Type := mkMacd {
  macd_macdLine : list (option number);
  macd_signal : list (option number);
  macd_histogram : list (option number)
}.

(** [a[i] - b[i]] where both are defined. *)
Definition diffDefined (a b : option number) : option number :=
  match a, b with
  | Some x, Some y => Some (x - y)%num
  | _, _ => None
  end.

Definition computeMACD (values : list number)
  (fastPeriod slowPeriod signalPeriod : Z) : MacdResult :=
  let emaFast := computeEMA values fastPeriod in
  let emaSlow := computeEMA values slowPeriod in
  let macdLine :=
    map (fun i => diffDefined (element emaFast i) (element emaSlow i))
        (indices (List.length values)) in
  let macdSignal := computeEMA (compact macdLine) signalPeriod in
  let signal := expand macdLine macdSignal in
  let histogram :=
    map (fun i => diffDefined (element macdLine i) (element signal i))
        (indices (List.length values)) in
  mkMacd macdLine signal histogram.

Record BollingerResult : Type := mkBollinger {
  bb_upper : list (option number);
  bb_middle : list (option number);
  bb_lower : list (option number)
}.

(** The loop of the source runs from [window - 1]; the lists hold what
    it stores at the indices from 0 on (with a window below 1 it also
    stores values below index 0, as properties of the arrays). *)
Definition computeBollingerBands (values : list number) (window : Z)
  (stdDev : number) : BollingerResult :=
  let sma := computeSMA values window in
  let meanAt (i : Z) : number := toNumber (element sma i) in
  let stdAt (i : Z) : number :=
    let slice_ := slice values (i - window + 1) (i + 1) in
    let mean := meanAt i in
    let variance :=
      (fold_left (fun sum val => sum + (val - mean) * (val - mean)) slice_ (ofZ 0)
       / ofZ window)%num in
    Math_sqrt variance in
  let upper :=
    map (fun i => if (i >=? window - 1)%Z
                  then Some (meanAt i + stdDev * stdAt i)%num else None)
        (indices (List.length values)) in
  let lower :=
    map (fun i => if (i >=? window - 1)%Z
                  then Some (meanAt i - stdDev * stdAt i)%num else None)
        (indices (List.length values)) in
  mkBollinger upper sma lower.

Record StochasticResult : Type := mkStochastic {
  st_stochK : list (option number);
  st_stochD : list (option number)
}.

(** The body of the loop of [computeStochastic] at index [i]. *)
Definition stochKAt (highs lows closes : list number) (kPeriod : Z) (i : Z)
  : number :=
  let highSlice := slice highs (i - kPeriod + 1) (i + 1) in
  let lowSlice := slice lows (i - kPeriod + 1) (i + 1) in
  let highest := Math_max highSlice in
  let lowest := Math_min lowSlice in
  if (highest !== lowest)%num then
    (((toNumber (at_ closes i) - lowest) / (highest - lowest)) * ofZ 100)%num
  else ofZ 50.

(** The loop of the source runs from [kPeriod - 1]; [stochK] holds what
    it stores at the indices from 0 on (with a period below 1 it also
    stores values below index 0, as properties of the array, that
    [filter] does not visit). *)
Definition computeStochastic (highs lows closes : list number)
  (kPeriod dPeriod : Z) : StochasticResult :=
  let stochK :=
    map (fun i => if (i >=? kPeriod - 1)%Z
                  then Some (stochKAt highs lows closes kPeriod i) else None)
        (indices (List.length closes)) in
  let stochD := computeSMA (compact stochK) dPeriod in
  mkStochastic stochK (expand stochK stochD).

(** The loop of [computeRSI] from index [i >= 1] on; [before] is
    [closes[i - 1]]. *)
Fixpoint rsiLoop (window : Z) (i : Z) (before : number) (rest : list number)
  (gain loss : number) : list number :=
  match rest with
  | [] => []
  | c :: rest' =>
    let change := (c - before)%num in
    let up := max2 change (ofZ 0) in
    let down := max2 (num_neg change) (ofZ 0) in
    if (i <=? window)%Z then
      let gain1 := (gain + up)%num in
      let loss1 := (loss + down)%num in
      if (i =? window)%Z then
        let avgGain := (gain1 / ofZ window)%num in
        let avgLoss := (loss1 / ofZ window)%num in
        let rs := if (avgLoss === ofZ 0)%num then PInf
                  else (avgGain / avgLoss)%num in
        (ofZ 100 - ofZ 100 / (ofZ 1 + rs))%num
          :: rsiLoop window (i + 1) c rest' avgGain avgLoss
      else ofZ 50 :: rsiLoop window (i + 1) c rest' gain1 loss1
    else
      let avgGain := ((gain * (ofZ window - ofZ 1) + up) / ofZ window)%num in
      let avgLoss := ((loss * (ofZ window - ofZ 1) + down) / ofZ window)%num in
      let rs := if (avgLoss === ofZ 0)%num then PInf
                else (avgGain / avgLoss)%num in
      (ofZ 100 - ofZ 100 / (ofZ 1 + rs))%num
        :: rsiLoop window (i + 1) c rest' avgGain avgLoss
  end.

Definition computeRSI (closes : list number) (window : Z) : list number :=
  match closes with
  | [] => []
  | first :: rest => ofZ 50 :: rsiLoop window 1 first rest (ofZ 0) (ofZ 0)
  end.

(** ** Decorating a candle series

    [buildStateFromCsvText] after the text is parsed and the rows are
    sorted: [raw] are the candles without indicator fields, [now] is the
    value of [new Date().toISOString()]. *)

Definition rawCandle (ts : string) (o h l c v : number) : Candle :=
  mkCandle ts o h l c v None None None None None None None None None None
    None None.

Definition decorate (raw : list Candle) : list Candle :=
  let closes := map close raw in
  let highs := map high raw in
  let lows := map low raw in
  let smaShort_ := computeSMA closes 10 in
  let smaLong_ := computeSMA closes 20 in
  let emaShort_ := computeEMA closes 12 in
  let emaLong_ := computeEMA closes 26 in
  let macd := computeMACD closes 12 26 9 in
  let bollinger := computeBollingerBands closes 20 (ofZ 2) in
  let stochastic := computeStochastic highs lows closes 14 3 in
  map (fun ic : Z * Candle =>
         let (i, c) := ic in
         {| timestamp := timestamp c;
            open := open c;
            high := high c;
            low := low c;
            close := close c;
            volume := volume c;
            smaShort := element smaShort_ i;
            smaLong := element smaLong_ i;
            emaShort := element emaShort_ i;
            emaLong := element emaLong_ i;
            macdLine := element (macd_macdLine macd) i;
            macdSignal := element (macd_signal macd) i;
            macdHistogram := element (macd_histogram macd) i;
            bollingerUpper := element (bb_upper bollinger) i;
            bollingerMiddle := element (bb_middle bollinger) i;
            bollingerLower := element (bb_lower bollinger) i;
            stochK := element (st_stochK stochastic) i;
            stochD := element (st_stochD stochastic) i |})
      (combine (indices (List.length raw)) raw).

(** [c.smaShort !== undefined && c.smaLong !== undefined] *)
Definition bothSmaDefined (c : Candle) : bool :=
  isDefined (smaShort c) && isDefined (smaLong c).

(** The warm-up start index, as [buildStateFromCsvText] and [reset]
    both compute it. *)
Definition warmupStart (candles : list Candle) : Z :=
  let firstValid := findIndex bothSmaDefined candles in
  if (firstValid =? -1)%Z then 0%Z else firstValid.

Definition INITIAL_CAPITAL : number := ofZ 10000.

(** The store as [create] makes it. *)
Definition initialStore : SimulatorState :=
  {| candles := [];
     rsiSeries := [];
     equitySeries := [];
     trades := [];
     currentIndex := 0;
     isPlaying := false;
     speedMs := ofZ 500;
     cash := INITIAL_CAPITAL;
     shares := ofZ 0;
     lastExplanation := "";
     strategyName := SMA_CROSSOVER;
     portfolioValue := INITIAL_CAPITAL |}.

(** [loadFromCsvText] on a text that parses to the rows [raw]. *)
Definition loadCandles (now : string) (raw : list Candle) (s : SimulatorState)
  : SimulatorState :=
  let candles_ := decorate raw in
  let rsi := computeRSI (map close candles_) 14 in
  let rsiSeries_ :=
    map (fun ic : Z * Candle =>
           let (i, c) := ic in
           mkRsiPoint (timestamp c)
             (match at_ rsi i with Some v => v | None => ofZ 50 end))
        (combine (indices (List.length candles_)) candles_) in
  let startIndex := warmupStart candles_ in
  let seed :=
    mkEquityPoint
      (match at_ candles_ startIndex with Some c => timestamp c | None => now end)
      INITIAL_CAPITAL in
  {| candles := candles_;
     rsiSeries := rsiSeries_;
     equitySeries := [seed];
     trades := [];
     currentIndex := startIndex;
     isPlaying := false;
     speedMs := speedMs s;
     cash := INITIAL_CAPITAL;
     shares := ofZ 0;
     lastExplanation := "";
     strategyName := strategyName s;
     portfolioValue := INITIAL_CAPITAL |}.

(** ** The decision function *)

Definition decide (strategy : StrategyName) (idx : Z) (candles : list Candle)
  (rsi : list number) : completion Decision :=
  let prev := at_ candles (idx - 1)%Z in
  match at_ candles idx with
  | None => Normal (mkDecision HOLD "No candle")
  | Some c =>
    match strategy with
    | SMA_CROSSOVER =>
      match smaShort c, smaLong c, chain prev smaShort, chain prev smaLong with
      | Some cShort, Some cLong, Some pShort, Some pLong =>
        if (pShort <=? pLong)%num && (cShort >? cLong)%num then
          Normal (mkDecision BUY
            ("SMA bullish crossover (" ++ toFixed cShort 2
               ++ " crosses above " ++ toFixed cLong 2 ++ ")"))
        else if (pShort >=? pLong)%num && (cShort <? cLong)%num then
          Normal (mkDecision SELL
            ("SMA bearish crossover (" ++ toFixed cShort 2
               ++ " crosses below " ++ toFixed cLong 2 ++ ")"))
        else Normal (mkDecision HOLD "No SMA crossover signal")
      | _, _, _, _ => Normal (mkDecision HOLD "No SMA crossover signal")
      end
    | EMA_CROSSOVER =>
      match emaShort c, emaLong c, chain prev emaShort, chain prev emaLong with
      | Some cShort, Some cLong, Some pShort, Some pLong =>
        if (pShort <=? pLong)%num && (cShort >? cLong)%num then
          Normal (mkDecision BUY
            ("EMA bullish crossover (" ++ toFixed cShort 2
               ++ " crosses above " ++ toFixed cLong 2 ++ ")"))
        else if (pShort >=? pLong)%num && (cShort <? cLong)%num then
          Normal (mkDecision SELL
            ("EMA bearish crossover (" ++ toFixed cShort 2
               ++ " crosses below " ++ toFixed cLong 2 ++ ")"))
        else Normal (mkDecision HOLD "No EMA crossover signal")
      | _, _, _, _ => Normal (mkDecision HOLD "No EMA crossover signal")
      end
    | RSI =>
      match at_ rsi idx with
      | None => Throw (* [undefined < 30] and [undefined > 70] are false,
                         then [value.toFixed] throws *)
      | Some value =>
        if (value <? ofZ 30)%num then
          Normal (mkDecision BUY
            ("RSI oversold signal (" ++ toFixed value 1 ++ " < 30)"))
        else if (value >? ofZ 70)%num then
          Normal (mkDecision SELL
            ("RSI overbought signal (" ++ toFixed value 1 ++ " > 70)"))
        else Normal (mkDecision HOLD ("RSI neutral (" ++ toFixed value 1 ++ ")"))
      end
    | MACD =>
      match macdLine c, macdSignal c, chain prev macdLine, chain prev macdSignal with
      | Some cLine, Some cSignal, Some pLine, Some pSignal =>
        if (pLine <=? pSignal)%num && (cLine >? cSignal)%num then
          Normal (mkDecision BUY
            ("MACD bullish crossover (" ++ toFixed cLine 3
               ++ " > " ++ toFixed cSignal 3 ++ ")"))
        else if (pLine >=? pSignal)%num && (cLine <? cSignal)%num then
          Normal (mkDecision SELL
            ("MACD bearish crossover (" ++ toFixed cLine 3
               ++ " < " ++ toFixed cSignal 3 ++ ")"))
        else Normal (mkDecision HOLD "No MACD crossover signal")
      | _, _, _, _ => Normal (mkDecision HOLD "No MACD crossover signal")
      end
    | BOLLINGER_BANDS =>
      match bollingerUpper c, bollingerLower c with
      | Some upper, Some lower =>
        if (close c <=? lower)%num then
          Normal (mkDecision BUY
            ("Price at lower Bollinger Band (" ++ toFixed (close c) 2
               ++ " ≤ " ++ toFixed lower 2 ++ ")"))
        else if (close c >=? upper)%num then
          Normal (mkDecision SELL
            ("Price at upper Bollinger Band (" ++ toFixed (close c) 2
               ++ " ≥ " ++ toFixed upper 2 ++ ")"))
        else Normal (mkDecision HOLD "Price within Bollinger Bands")
      | _, _ => Normal (mkDecision HOLD "Price within Bollinger Bands")
      end
    | STOCHASTIC =>
      match stochK c, stochD c with
      | Some k, Some d =>
        if (k <? ofZ 20)%num && (d <? ofZ 20)%num then
          Normal (mkDecision BUY
            ("Stochastic oversold (%K: " ++ toFixed k 1
               ++ ", %D: " ++ toFixed d 1 ++ ")"))
        else if (k >? ofZ 80)%num && (d >? ofZ 80)%num then
          Normal (mkDecision SELL
            ("Stochastic overbought (%K: " ++ toFixed k 1
               ++ ", %D: " ++ toFixed d 1 ++ ")"))
        else Normal (mkDecision HOLD "Stochastic in neutral range")
      | _, _ => Normal (mkDecision HOLD "Stochastic in neutral range")
      end
    | MEAN_REVERSION =>
      match bollingerMiddle c with
      | Some middle =>
        let deviation := (((close c - middle) / middle) * ofZ 100)%num in
        if (deviation <? ofZ (-2))%num then
          Normal (mkDecision BUY
            ("Price below MA by " ++ toFixed (Math_abs deviation) 1
               ++ "% - mean reversion buy"))
        else if (deviation >? ofZ 2)%num then
          Normal (mkDecision SELL
            ("Price above MA by " ++ toFixed deviation 1
               ++ "% - mean reversion sell"))
        else Normal (mkDecision HOLD "Price near moving average")
      | None => Normal (mkDecision HOLD "Price near moving average")
      end
    | BUY_AND_HOLD =>
      if (idx =? 0)%Z then Normal (mkDecision BUY "Initial buy and hold")
      else Normal (mkDecision HOLD "Hold position")
    | OTHER _ => Normal (mkDecision HOLD "Unknown strategy")
    end
  end.

(** ** The store actions *)

(** [step].  The early [return] leaves the store as it is.  After it, the
    source mutates [trades] with [push] and stores a copy of it; a trade
    is appended either way. *)
Definition step (s : SimulatorState) : completion SimulatorState :=
  if (currentIndex s >=? Z.of_nat (List.length (candles s)) - 1)%Z then Normal s
  else
    let nextIndex := (currentIndex s + 1)%Z in
    decision <- decide (strategyName s) nextIndex (candles s)
                  (map rp_value (rsiSeries s)) ;;
    match at_ (candles s) nextIndex with
    | None => Throw
    | Some next =>
      let price := close next in
      let '(newCash, newShares, newTrades, explanation) :=
        match action decision with
        | BUY =>
          if (cash s >=? price)%num then
            let qty := Math_floor (cash s / price) in
            if (qty >? ofZ 0)%num then
              ((cash s - qty * price)%num,
               (shares s + qty)%num,
               (trades s ++ [mkTrade nextIndex TBUY price (d_reason decision)])%list,
               "BUY " ++ toStr qty ++ " @ $" ++ toFixed price 2
                 ++ " — " ++ d_reason decision)
            else (cash s, shares s, trades s, d_reason decision)
          else (cash s, shares s, trades s, d_reason decision)
        | SELL =>
          if (shares s >? ofZ 0)%num then
            ((cash s + shares s * price)%num,
             ofZ 0,
             (trades s ++ [mkTrade nextIndex TSELL price (d_reason decision)])%list,
             "SELL " ++ toStr (shares s) ++ " @ $" ++ toFixed price 2
               ++ " — " ++ d_reason decision)
          else (cash s, shares s, trades s, d_reason decision)
        | HOLD => (cash s, shares s, trades s, d_reason decision)
        end in
      let value := (newCash + newShares * price)%num in
      let nextEquity := (equitySeries s ++ [mkEquityPoint (timestamp next) value])%list in
      Normal {| candles := candles s;
                rsiSeries := rsiSeries s;
                equitySeries := nextEquity;
                trades := newTrades;
                currentIndex := nextIndex;
                isPlaying := isPlaying s;
                speedMs := speedMs s;
                cash := newCash;
                shares := newShares;
                lastExplanation := explanation;
                strategyName := strategyName s;
                portfolioValue := value |}
    end.

(** The decision [step] asks for in the state [s]. *)
Definition nextDecision (s : SimulatorState) : completion Decision :=
  decide (strategyName s) (currentIndex s + 1) (candles s)
    (map rp_value (rsiSeries s)).

Definition reset (s : SimulatorState) : completion SimulatorState :=
  let startIndex := warmupStart (candles s) in
  seed <- match List.length (candles s) with
          | O => Normal []
          | S _ =>
            match at_ (candles s) startIndex with
            | None => Throw
            | Some c => Normal [mkEquityPoint (timestamp c) INITIAL_CAPITAL]
            end
          end ;;
  Normal {| candles := candles s;
            rsiSeries := rsiSeries s;
            equitySeries := seed;
            trades := [];
            currentIndex := startIndex;
            isPlaying := isPlaying s;
            speedMs := speedMs s;
            cash := INITIAL_CAPITAL;
            shares := ofZ 0;
            lastExplanation := "";
            strategyName := strategyName s;
            portfolioValue := INITIAL_CAPITAL |}.

(** The store after an action is called: an action that throws has not
    reached its [set], and the store is as before. *)
Definition dispatch (act : SimulatorState -> completion SimulatorState)
  (s : SimulatorState) : SimulatorState :=
  match act s with
  | Normal s' => s'
  | Throw => s
  end.

(** [n] calls of [step], one after the other. *)
Fixpoint steps (n : nat) (s : SimulatorState) : SimulatorState :=
  match n with
  | O => s
  | S k => steps k (dispatch step s)
  end.

(** A full replay: [reset], then [step] once for every candle. *)
Definition replay (s : SimulatorState) : SimulatorState :=
  steps (List.length (candles s)) (dispatch reset s).

(** [setStrategyName]: pause, store the name, reset. *)
Definition setStrategyName (n : StrategyName) (s : SimulatorState)
  : completion SimulatorState :=
  reset {| candles := candles s;
           rsiSeries := rsiSeries s;
           equitySeries := equitySeries s;
           trades := trades s;
           currentIndex := currentIndex s;
           isPlaying := false;
           speedMs := speedMs s;
           cash := cash s;
           shares := shares s;
           lastExplanation := lastExplanation s;
           strategyName := n;
           portfolioValue := portfolioValue s |}.

End Engine.

(** ** Vocabulary of the specification *)

(** [k] is the first index of [cs] where the short and the long SMA are
    both defined, or 0 when there is no such index. *)
Definition isWarmupStart (cs : list Candle) (k : Z) : Prop :=
  (exists c, at_ cs k = Some c /\ bothSmaDefined c = true /\
     forall j c', (0 <= j < k)%Z -> at_ cs j = Some c' ->
                  bothSmaDefined c' = false)
  \/ (k = 0%Z /\ forall c, In c cs -> bothSmaDefined c = false).

(** [Number.isInteger(x)] *)
Definition isInteger (x : number) : Prop :=
  exists z, exists q, x = Fin q /\ q == inject_Z z.

(** Every close of the series is finite and above zero. *)
Definition positivePrices (cs : list Candle) : Prop :=
  forall c, In c cs -> exists p, close c = Fin p /\ 0 < p.

(** The invariant of the shares: [x >= 0] holds, and [x] is an integer
    or [Infinity]. *)
Definition wholeShares (x : number) : Prop :=
  (x >=? ofZ 0)%num = true /\ (isInteger x \/ x = PInf).

(** The step from [s] to [s'] made a purchase: it added a BUY to the
    trade log. *)
Definition purchased (s s' : SimulatorState) : Prop :=
  exists t, trades s' = (trades s ++ [t])%list /\ type t = TBUY.

(** Two stores that differ at most in the playback fields [isPlaying]
    and [speedMs]. *)
Definition agree (s1 s2 : SimulatorState) : Prop :=
  candles s1 = candles s2 /\
  rsiSeries s1 = rsiSeries s2 /\
  equitySeries s1 = equitySeries s2 /\
  trades s1 = trades s2 /\
  currentIndex s1 = currentIndex s2 /\
  cash s1 = cash s2 /\
  shares s1 = shares s2 /\
  lastExplanation s1 = lastExplanation s2 /\
  strategyName s1 = strategyName s2 /\
  portfolioValue s1 = portfolioValue s2.

(** Three series of one length in which every bar has finite prices
    with [0 <= low <= close <= high]. *)
Definition wellFormedBars (highs lows closes : list number) : Prop :=
  List.length highs = List.length closes /\
  List.length lows = List.length closes /\
  forall j h l c,
    nth_error highs j = Some h -> nth_error lows j = Some l ->
    nth_error closes j = Some c ->
    exists qh ql qc, h = Fin qh /\ l = Fin ql /\ c = Fin qc /\
                     0 <= ql /\ ql <= qc /\ qc <= qh.

(** The pair of indicator values a crossover strategy compares. *)
Definition requiredIndicators (strategy : StrategyName)
  : option ((Candle -> option number) * (Candle -> option number)) :=
  match strategy with
  | SMA_CROSSOVER => Some (smaShort, smaLong)
  | EMA_CROSSOVER => Some (emaShort, emaLong)
  | MACD => Some (macdLine, macdSignal)
  | _ => None
  end.

(** ** A host to run the definitions

    [toFixed] is the algorithm of ECMAScript on a finite value below
    [10^21] in magnitude (the nearest multiple of [10^-digits], the
    larger one on a tie, the sign kept apart); [toStr] prints an integer
    in decimal and any other rational as a fraction; the square root is
    exact on the square of a rational and rounded down to a multiple of
    the denominator's inverse elsewhere. *)

Definition digitsOfZ (z : Z) : string :=
  NilZero.string_of_uint (N.to_uint (Z.to_N z)).

Fixpoint zeros (n : nat) : string :=
  match n with
  | O => ""
  | S k => String "0" (zeros k)
  end.

Definition special (x : number) : string :=
  match x with
  | NaN => "NaN"
  | PInf => "Infinity"
  | NInf => "-Infinity"
  | Fin _ => ""
  end.

Definition refToFixed (x : number) (digits : nat) : string :=
  match x with
  | Fin q =>
    let scale := (10 ^ Z.of_nat digits)%Z in
    let n := Qfloor (Qabs q * inject_Z scale + (1 # 2)) in
    let whole := digitsOfZ (n / scale) in
    let frac := digitsOfZ (n mod scale) in
    let sign := match (q ?= 0)%Q with Lt => "-" | _ => "" end in
    match digits with
    | O => sign ++ whole
    | _ => sign ++ whole ++ "."
             ++ zeros (digits - String.length frac) ++ frac
    end
  | _ => special x
  end.

Definition refToStr (x : number) : string :=
  match x with
  | Fin q =>
    let r := Qred q in
    let sign := match (q ?= 0)%Q with Lt => "-" | _ => "" end in
    match Qden r with
    | xH => sign ++ digitsOfZ (Z.abs (Qnum r))
    | d => sign ++ digitsOfZ (Z.abs (Qnum r)) ++ "/" ++ digitsOfZ (Zpos d)
    end
  | _ => special x
  end.

Definition refSqrt (x : number) : number :=
  match x with
  | Fin q =>
    match (q ?= 0)%Q with
    | Lt => NaN
    | _ => Fin (Z.sqrt (Qnum q * Zpos (Qden q)) # Qden q)
    end
  | PInf => PInf
  | _ => NaN
  end.

#[export] Instance refHost : Host :=
  {| Math_sqrt := refSqrt; toFixed := refToFixed; toStr := refToStr |}.

(** ** Sample datasets *)

Definition dayStamp (d : Z) : string :=
  "2024-01-" ++ (if (d <? 10)%Z then "0" else "") ++ digitsOfZ d.

(** Bars whose four prices are the given close, one a day. *)
Fixpoint flatBars (day : Z) (closes : list Z) : list Candle :=
  match closes with
  | [] => []
  | c :: rest =>
    rawCandle (dayStamp day) (ofZ c) (ofZ c) (ofZ c) (ofZ c) (ofZ 1000)
      :: flatBars (day + 1) rest
  end.

(** Fourteen falls of 10 down to 100, then a jump to 500. *)
Definition fallThenJump : list Candle :=
  flatBars 1 [240; 230; 220; 210; 200; 190; 180; 170; 160; 150; 140; 130;
              120; 110; 100; 500]%Z.

(** The store with [fallThenJump] loaded and the RSI strategy chosen. *)
Definition rsiDemo : SimulatorState :=
  dispatch (setStrategyName RSI)
    (loadCandles "2024-02-01T00:00:00.000Z" fallThenJump initialStore).

(** The candle at index [i] and the decision returned, for closed
    examples. *)
Definition candleAt (s : SimulatorState) (i : Z) : Candle :=
  match at_ (candles s) i with
  | Some c => c
  | None => rawCandle "" NaN NaN NaN NaN NaN
  end.

Definition decisionOf (m : completion Decision) : Decision :=
  match m with
  | Normal d => d
  | Throw => mkDecision HOLD ""
  end.

(** Fourteen falls of 1 down to a close of 0. *)
Definition fallToZero : list Candle :=
  flatBars 1 [14; 13; 12; 11; 10; 9; 8; 7; 6; 5; 4; 3; 2; 1; 0]%Z.

Definition zeroDemo : SimulatorState :=
  dispatch (setStrategyName RSI)
    (loadCandles "2024-02-01T00:00:00.000Z" fallToZero initialStore).

(** Fourteen equal values, one window of the stochastic oscillator. *)
Definition window14 (v : Z) : list number := repeat (ofZ v) 14.

(** Two series with holes that hold the same numbers. *)
Definition sameSeries (xs ys : list (option number)) : bool :=
  (List.length xs =? List.length ys)%nat
  && forallb (fun p : option number * option number =>
                match p with
                | (Some x, Some y) => (x === y)%num
                | (None, None) => true
                | _ => false
                end)
       (combine xs ys).

(** ** Checkers for the hypotheses on data *)

Definition isFinite (x : number) : bool :=
  match x with Fin _ => true | _ => false end.

Definition positivePricesb (cs : list Candle) : bool :=
  forallb (fun c => isFinite (close c) && (close c >? ofZ 0)%num) cs.

Definition wellFormedBarb (bar : number * number * number) : bool :=
  match bar with
  | (Fin h, Fin l, Fin c) => Qle_bool 0 l && Qle_bool l c && Qle_bool c h
  | _ => false
  end.

Definition wellFormedBarsb (highs lows closes : list number) : bool :=
  (List.length highs =? List.length closes)%nat
  && (List.length lows =? List.length closes)%nat
  && forallb wellFormedBarb (combine (combine highs lows) closes).

(** ** Sequences of store actions *)

Section Actions.

Context {host : Host}.

(** The actions of the store that work on the ledger. *)
Inductive StoreAction : Type :=
| DoStep
| DoReset
| DoSetStrategyName (n : StrategyName).

Definition perform (a : StoreAction) (s : SimulatorState) : SimulatorState :=
  match a with
  | DoStep => dispatch step s
  | DoReset => dispatch reset s
  | DoSetStrategyName n => dispatch (setStrategyName n) s
  end.

Definition performAll (acts : list StoreAction) (s : SimulatorState)
  : SimulatorState :=
  fold_left (fun t a => perform a t) acts s.

End Actions.

(** The trade [t] was made at the close of the candle at its index. *)
Definition tradeAtClose (cs : list Candle) (t : Trade) : Prop :=
  exists c, at_ cs (index t) = Some c /\ price t = close c.

(** The current index is not before the warm-up start; the trade log is
    in strictly increasing order of index, every index lies after the
    warm-up start and not after the current index, and every trade
    carries the close of its candle. *)
Definition logOrdered (s : SimulatorState) : Prop :=
  (warmupStart (candles s) <= currentIndex s)%Z /\
  StronglySorted Z.lt (map index (trades s)) /\
  Forall (fun t => (warmupStart (candles s) < index t <= currentIndex s)%Z)
    (trades s) /\
  Forall (tradeAtClose (candles s)) (trades s).

(** Whether a position is held after the trades of [log], [holding]
    telling whether one was held before. *)
Fixpoint holdingAfter (holding : bool) (log : list Trade) : bool :=
  match log with
  | [] => holding
  | t :: rest =>
    holdingAfter (match type t with TBUY => true | TSELL => false end) rest
  end.

(** No SELL of [log] comes first or directly after another SELL. *)
Fixpoint sellsFollowBuys (holding : bool) (log : list Trade) : bool :=
  match log with
  | [] => true
  | t :: rest =>
    match type t with
    | TBUY => sellsFollowBuys true rest
    | TSELL => holding && sellsFollowBuys false rest
    end
  end.

(** No SELL was made without a position, and no share is held when the
    log is empty or ends with a SELL. *)
Definition neverShort (s : SimulatorState) : Prop :=
  sellsFollowBuys false (trades s) = true /\
  (holdingAfter false (trades s) = false -> shares s = ofZ 0).

(** The equity curve has one point for every candle from the warm-up
    start to the current index, with that candle's timestamp, and its
    last value is the portfolio value of the store. *)
Definition equityAligned (s : SimulatorState) : Prop :=
  map ep_timestamp (equitySeries s) =
    map timestamp
      (slice (candles s) (warmupStart (candles s)) (currentIndex s + 1)) /\
  last (map ep_value (equitySeries s)) (portfolioValue s) = portfolioValue s.

(** The RSI series has one point for every candle and the current index
    is not negative. *)
Definition seriesAligned (s : SimulatorState) : Prop :=
  List.length (rsiSeries s) = List.length (candles s) /\
  (0 <= currentIndex s)%Z.

(** The value [computeRSI] derives from the two Wilder averages:
    [100 - 100 / (1 + rs)], [rs] being [Infinity] when the average loss
    is 0. *)
Definition rsiValue (avgGain avgLoss : number) : number :=
  let rs := if (avgLoss === ofZ 0)%num then PInf
            else (avgGain / avgLoss)%num in
  (ofZ 100 - ofZ 100 / (ofZ 1 + rs))%num.

(** A number between 0 and 100. *)
Definition percent (x : number) : Prop :=
  exists r, x = Fin r /\ 0 <= r /\ r <= 100.

(** Closes between 0 and [10^100], fewer than [2^32] of them (no array
    is longer): no sum, product or quotient that [computeRSI] forms on
    them leaves the range of binary64. *)
Definition boundedCloses (qs : list Q) : Prop :=
  (Z.of_nat (List.length qs) < 2 ^ 32)%Z /\
  Forall (fun q => 0 <= q /\ q <= inject_Z (10 ^ 100)) qs.

(** A series that never falls, and one that falls at every step, [b]
    being the value before [rest]. *)
Fixpoint neverFalls (b : Q) (rest : list Q) : Prop :=
  match rest with
  | [] => True
  | c :: rest' => b <= c /\ neverFalls c rest'
  end.

Fixpoint alwaysFalls (b : Q) (rest : list Q) : Prop :=
  match rest with
  | [] => True
  | c :: rest' => c < b /\ alwaysFalls c rest'
  end.

(** Two stores show the same run: index, cash, shares, trade log,
    equity curve, portfolio value and explanation are equal. *)
Definition sameRun (s1 s2 : SimulatorState) : Prop :=
  currentIndex s1 = currentIndex s2 /\
  cash s1 = cash s2 /\ shares s1 = shares s2 /\
  trades s1 = trades s2 /\
  equitySeries s1 = equitySeries s2 /\
  portfolioValue s1 = portfolioValue s2 /\
  lastExplanation s1 = lastExplanation s2.

(** Twenty-two bars rising by 1 from 100, and three more. *)
Definition risingBars : list Candle :=
  flatBars 1 (map Z.of_nat (seq 100 22)).

Definition laterBars : list Candle :=
  flatBars 23 [90; 80; 150]%Z.

(** A series with holes that is undefined below index [k] and defined
    from [k] on. *)
Definition definedFrom (k : nat) (xs : list (option number)) : Prop :=
  forall j, (j < List.length xs)%nat ->
    exists o, nth_error xs j = Some o /\ isDefined o = (k <=? j)%nat.

(** The first index at which a strategy can give a signal on a loaded
    series: its indicators, and for the crossovers those of the candle
    before, are defined from there on. *)
Definition firstSignalIndex (n : StrategyName) : option Z :=
  match n with
  | SMA_CROSSOVER => Some 20%Z
  | EMA_CROSSOVER => Some 26%Z
  | RSI => Some 14%Z
  | MACD => Some 34%Z
  | BOLLINGER_BANDS => Some 19%Z
  | STOCHASTIC => Some 15%Z
  | MEAN_REVERSION => Some 19%Z
  | BUY_AND_HOLD => None
  | OTHER _ => None
  end.

(** ** The sidebar statistics

    The win rate the [Sidebar] component shows for a trade log. *)

Definition buyTrades (log : list Trade) : list Trade :=
  filter (fun t => match type t with TBUY => true | TSELL => false end) log.

Definition sellTrades (log : list Trade) : list Trade :=
  filter (fun t => match type t with TSELL => true | TBUY => false end) log.

Definition winningTrades (log : list Trade) : list Trade :=
  filter (fun sell =>
            let correspondingBuy :=
              find (fun buy => (index buy <? index sell)%Z) (buyTrades log) in
            match correspondingBuy with
            | Some buy => (price sell >? price buy)%num
            | None => false
            end)
         (sellTrades log).

Definition winRate (log : list Trade) : number :=
  let sells := ofZ (Z.of_nat (List.length (sellTrades log))) in
  let wins := ofZ (Z.of_nat (List.length (winningTrades log))) in
  if (sells >? ofZ 0)%num then (wins / sells * ofZ 100)%num else ofZ 0.

(** The sales of [log] that closed above the price of its first trade. *)
Definition soldAboveFirst (log : list Trade) : list Trade :=
  match log with
  | [] => []
  | first :: _ =>
    filter (fun sell => (price sell >? price first)%num) (sellTrades log)
  end.

(** ** Playback

    [play], [pause], the callback [tick] and [setSpeedMs], with the
    module variable [intervalId] and the intervals of the window. *)

(** [set({ isPlaying })], [set({ speedMs })], [set({ strategyName })] *)
Definition withIsPlaying (b : bool) (s : SimulatorState) : SimulatorState :=
  {| candles := candles s;
     rsiSeries := rsiSeries s;
     equitySeries := equitySeries s;
     trades := trades s;
     currentIndex := currentIndex s;
     isPlaying := b;
     speedMs := speedMs s;
     cash := cash s;
     shares := shares s;
     lastExplanation := lastExplanation s;
     strategyName := strategyName s;
     portfolioValue := portfolioValue s |}.

Definition withSpeedMs (ms : number) (s : SimulatorState) : SimulatorState :=
  {| candles := candles s;
     rsiSeries := rsiSeries s;
     equitySeries := equitySeries s;
     trades := trades s;
     currentIndex := currentIndex s;
     isPlaying := isPlaying s;
     speedMs := ms;
     cash := cash s;
     shares := shares s;
     lastExplanation := lastExplanation s;
     strategyName := strategyName s;
     portfolioValue := portfolioValue s |}.

Definition withStrategyName (n : StrategyName) (s : SimulatorState)
  : SimulatorState :=
  {| candles := candles s;
     rsiSeries := rsiSeries s;
     equitySeries := equitySeries s;
     trades := trades s;
     currentIndex := currentIndex s;
     isPlaying := isPlaying s;
     speedMs := speedMs s;
     cash := cash s;
     shares := shares s;
     lastExplanation := lastExplanation s;
     strategyName := n;
     portfolioValue := portfolioValue s |}.

(** The page: the store, [intervalId], and the intervals of the window
    that are live, each with its handle and its delay.  [nextHandle] is
    the handle the next [setInterval] returns. *)
Record Page : Type := mkPage {
  store : SimulatorState;
  intervalId : option nat;
  intervals : list (nat * number);
  nextHandle : nat
}.

Definition initialPage : Page := mkPage initialStore None [] 0.

(** [window.clearInterval(h)] *)
Definition clearInterval (h : nat) (live : list (nat * number))
  : list (nat * number) :=
  filter (fun t => negb (fst t =? h)%nat) live.

(** Whether the interval [h] is live. *)
Definition live (h : nat) (p : Page) : bool :=
  existsb (fun t => (fst t =? h)%nat) (intervals p).

(** The store of the page replaced by [f] of it. *)
Definition onStore (f : SimulatorState -> SimulatorState) (p : Page) : Page :=
  mkPage (f (store p)) (intervalId p) (intervals p) (nextHandle p).

Definition pause (p : Page) : Page :=
  let p1 :=
    match intervalId p with
    | Some h =>
      mkPage (store p) None (clearInterval h (intervals p)) (nextHandle p)
    | None => p
    end in
  onStore (withIsPlaying false) p1.

Definition play (p : Page) : Page :=
  if isPlaying (store p) then p
  else
    let h := nextHandle p in
    mkPage (withIsPlaying true (store p)) (Some h)
      ((h, speedMs (store p)) :: intervals p) (S h).

Section Playback.

Context {host : Host}.

(** The callback [play] hands to [setInterval]. *)
Definition tick (p : Page) : Page :=
  if (currentIndex (store p)
      >=? Z.of_nat (List.length (candles (store p))) - 1)%Z
  then pause p
  else onStore (dispatch step) p.

Definition setSpeedMs (ms : number) (p : Page) : Page :=
  let wasPlaying := isPlaying (store p) in
  let p1 := if wasPlaying then pause p else p in
  let p2 := onStore (withSpeedMs ms) p1 in
  if wasPlaying then play p2 else p2.

(** [setStrategyName] with its call of [pause]. *)
Definition setStrategyNameOn (n : StrategyName) (p : Page) : Page :=
  let wasPlaying := isPlaying (store p) in
  let p1 := if wasPlaying then pause p else p in
  onStore (dispatch reset) (onStore (withStrategyName n) p1).

(** The [set] at the end of a [loadDataset] that succeeds: it leaves
    [isPlaying] as it is. *)
Definition loadDatasetCandles (now : string) (raw : list Candle)
  (s : SimulatorState) : SimulatorState :=
  withIsPlaying (isPlaying s) (loadCandles now raw s).

(** What can happen to the page: the buttons and controls, a load, and
    the window calling the callback of the interval [h]. *)
Inductive PageAction : Type :=
| Play
| Pause
| Fire (h : nat)
| Step
| Reset
| SetStrategyName (n : StrategyName)
| SetSpeedMs (ms : number)
| LoadDataset (now : string) (raw : list Candle)
| LoadFromCsvText (now : string) (raw : list Candle).

Definition run (a : PageAction) (p : Page) : Page :=
  match a with
  | Play => play p
  | Pause => pause p
  | Fire h => if live h p then tick p else p
  | Step => onStore (dispatch step) p
  | Reset => onStore (dispatch reset) p
  | SetStrategyName n => setStrategyNameOn n p
  | SetSpeedMs ms => setSpeedMs ms p
  | LoadDataset now raw => onStore (loadDatasetCandles now raw) p
  | LoadFromCsvText now raw => onStore (loadCandles now raw) p
  end.

Definition runAll (acts : list PageAction) (p : Page) : Page :=
  fold_left (fun q a => run a q) acts p.

End Playback.

(** Every action but [loadFromCsvText]. *)
Definition keepsPlaying (a : PageAction) : bool :=
  match a with
  | LoadFromCsvText _ _ => false
  | _ => true
  end.

(** While the store is playing exactly one interval is live, it is the
    one [intervalId] names and its delay is the speed of the store;
    while it is paused no interval is live.  Handles in use are below
    [nextHandle]. *)
Definition oneDriver (p : Page) : Prop :=
  (if isPlaying (store p)
   then exists h, intervalId p = Some h /\
                  intervals p = [(h, speedMs (store p))]
   else intervals p = []) /\
  Forall (fun t => (fst t < nextHandle p)%nat) (intervals p).

(** The interval [h] is live and [intervalId] does not name it. *)
Definition leaked (h : nat) (p : Page) : Prop :=
  In h (map fst (intervals p)) /\ intervalId p <> Some h /\
  (h < nextHandle p)%nat.

(** ** What the chart and the progress bar show *)

(** [Math.round]: the nearest integer, halves upwards. *)
Definition Math_round (x : number) : number :=
  match x with
  | Fin a => ofZ (Qfloor (a + (1 # 2)))
  | _ => x
  end.

(** The part of a series [ChartPanel] draws:
    [xs.slice(0, Math.max(1, currentIndex + 1))]. *)
Definition shown {A : Type} (xs : list A) (currentIndex : Z) : list A :=
  slice xs 0 (Z.max 1 (currentIndex + 1)).

(** The width of the progress bar of [Controls], in percent. *)
Definition progress (s : SimulatorState) : number :=
  min2 (ofZ 100)
    (Math_round
       (((ofZ (currentIndex s) + ofZ 1)
         / max2 (ofZ 1) (ofZ (Z.of_nat (List.length (candles s)))))
        * ofZ 100)%num).

(** The current index is an index of the series (0 when the series is
    empty), and the equity curve has no more points than there are
    candles up to it. *)
Definition indexInRange (s : SimulatorState) : Prop :=
  (0 <= currentIndex s
   < Z.max 1 (Z.of_nat (List.length (candles s))))%Z /\
  (Z.of_nat (List.length (equitySeries s)) <= currentIndex s + 1)%Z.

(** ** Binary64

    The arithmetic the program runs: IEEE 754 binary64, rounding to
    nearest with ties to even, as the standard library specifies it.
    [purchase] and [percentK] are the expressions of [step] and of
    [computeStochastic] over it. *)

Module Binary64.

Definition prec : Z := 53.
Definition emax : Z := 1024.

Definition float64 : Type := spec_float.

Definition add : float64 -> float64 -> float64 := SFadd prec emax.
Definition sub : float64 -> float64 -> float64 := SFsub prec emax.
Definition mul : float64 -> float64 -> float64 := SFmul prec emax.
Definition div : float64 -> float64 -> float64 := SFdiv prec emax.

(** [<], [<=] and [===]: false as soon as an operand is [NaN]. *)
Definition ltb : float64 -> float64 -> bool := SFltb.
Definition leb : float64 -> float64 -> bool := SFleb.
Definition eqb : float64 -> float64 -> bool := SFeqb.

(** The number nearest to the integer [z]. *)
Definition ofInteger (z : Z) : float64 := binary_normalize prec emax z 0 false.

(** The literal [n / 10^k], for [n] and [10^k] below [2^53]: the number
    nearest to it, since both are numbers and the division rounds
    once. *)
Definition decimal (n k : Z) : float64 :=
  div (ofInteger n) (ofInteger (10 ^ k)).

(** [Number.MAX_VALUE] *)
Definition MAX_VALUE : float64 := SFmax_float prec emax.

(** [Math.floor] *)
Definition floor (x : float64) : float64 :=
  match x with
  | S754_finite s m e =>
    if (0 <=? e)%Z then x
    else
      let q := Z.shiftr (Zpos m) (- e) in
      let whole := (Z.shiftl q (- e) =? Zpos m)%Z in
      let z := if s then (if whole then - q else - q - 1)%Z else q in
      binary_normalize prec emax z 0 s
  | _ => x
  end.

(** The BUY branch of [step] on the cash, the shares and the price: the
    cash and the shares after it. *)
Definition purchase (cash shares price : float64) : float64 * float64 :=
  if leb price cash then
    let qty := floor (div cash price) in
    if ltb (ofInteger 0) qty
    then (sub cash (mul qty price), add shares qty)
    else (cash, shares)
  else (cash, shares).

(** The body of the loop of [computeStochastic] on the highest high and
    the lowest low of the window and the close. *)
Definition percentK (highest lowest close : float64) : float64 :=
  if negb (eqb highest lowest)
  then mul (div (sub close lowest) (sub highest lowest)) (ofInteger 100)
  else ofInteger 50.

End Binary64.

(** * Properties *)

(** ** The pipeline and the ledger on examples *)

Example computeSMA_of_1_to_5 :
  sameSeries (computeSMA (map ofZ [1; 2; 3; 4; 5]%Z) 3)
    [None; None; Some (ofZ 2); Some (ofZ 3); Some (ofZ 4)] = true.
Proof. vm_compute. reflexivity. Qed.

Example computeEMA_seed_is_SMA :
  sameSeries (firstn 3 (computeEMA (map ofZ [1; 2; 3; 4; 5]%Z) 3))
    (firstn 3 (computeSMA (map ofZ [1; 2; 3; 4; 5]%Z) 3)) = true.
Proof. vm_compute. reflexivity. Qed.

Example division_by_zero :
  (ofZ 10000 / ofZ 0)%num = PInf /\ (PInf * ofZ 0)%num = NaN /\
  (ofZ 0 / ofZ 0)%num = NaN /\ (NaN >=? ofZ 0)%num = false.
Proof. repeat split. Qed.

Example sample_run_trades :
  trades (replay rsiDemo) =
    [mkTrade 14 TBUY (ofZ 100) "RSI oversold signal (0.0 < 30)";
     mkTrade 15 TSELL (ofZ 500) "RSI overbought signal (75.5 > 70)"] /\
  lastExplanation (replay rsiDemo) =
    "SELL 100 @ $500.00 — RSI overbought signal (75.5 > 70)" /\
  cash (replay rsiDemo) = ofZ 50000.
Proof. vm_compute. repeat split. Qed.

(** ** Facts about numbers and arrays *)

Lemma num_ltb_not_geb (x y : number) :
  (x <? y)%num = true -> (x >=? y)%num = false.
Proof.
  destruct x as [a| | |], y as [b| | |]; simpl; try discriminate; auto.
  unfold num_geb; simpl. intros H.
  destruct (Qle_bool b a) eqn:E; [|reflexivity].
  apply Qle_bool_iff in E.
  destruct (a ?= b)%Q eqn:C; try discriminate.
  apply Qlt_alt in C. exfalso. exact (Qlt_not_le _ _ C E).
Qed.

Lemma at_Some_range {A : Type} (xs : list A) (i : Z) (x : A) :
  at_ xs i = Some x -> (0 <= i < Z.of_nat (List.length xs))%Z.
Proof.
  unfold at_. destruct (i <? 0)%Z eqn:E; [discriminate|].
  apply Z.ltb_ge in E. intros H.
  assert (N : nth_error xs (Z.to_nat i) <> None) by congruence.
  apply nth_error_Some in N. lia.
Qed.

Lemma at_in_range {A : Type} (xs : list A) (i : Z) :
  (0 <= i < Z.of_nat (List.length xs))%Z -> exists x, at_ xs i = Some x.
Proof.
  intros [Hlo Hhi]. unfold at_.
  destruct (i <? 0)%Z eqn:E; [apply Z.ltb_lt in E; lia|].
  destruct (nth_error xs (Z.to_nat i)) eqn:N; [eauto|].
  apply nth_error_None in N. lia.
Qed.

Section StepFacts.

Context {host : Host}.

Lemma not_at_end (s : SimulatorState) (next : Candle) :
  at_ (candles s) (currentIndex s + 1) = Some next ->
  (currentIndex s >=? Z.of_nat (List.length (candles s)) - 1)%Z = false.
Proof.
  intros H. apply at_Some_range in H.
  rewrite Z.geb_leb. apply Z.leb_gt. lia.
Qed.

Ltac enter_step s next d Hnext Hdec :=
  unfold step; rewrite (not_at_end s Hnext);
  fold (nextDecision s); rewrite Hdec; cbn [bind]; rewrite Hnext.

(** C5. When the current index is at the last candle or beyond it,
    [step] returns the state it was given: no field changes. *)
Theorem step_at_end_is_noop (s : SimulatorState) :
  (Z.of_nat (List.length (candles s)) - 1 <= currentIndex s)%Z ->
  step s = Normal s /\ dispatch step s = s.
Proof.
  intros H. unfold dispatch, step.
  assert (G : (currentIndex s >=? Z.of_nat (List.length (candles s)) - 1)%Z = true)
    by (rewrite Z.geb_leb; apply Z.leb_le; exact H).
  rewrite G. split; reflexivity.
Qed.

(** C1. With a BUY decision at an index [i+1] of the series: if
    [cash >= price], the quantity is [floor(cash / price)]; a positive
    quantity is debited from the cash at the close of candle [i+1],
    credited to the shares, and recorded as one BUY trade at [i+1]; a
    zero quantity, or [cash < price], leaves cash, shares and the trade
    log as they were.  From 10000 in cash, no shares and a price of 100
    the result is 100 shares, no cash and one more trade. *)
Theorem step_buy (s : SimulatorState) (d : Decision) (next : Candle) :
  at_ (candles s) (currentIndex s + 1) = Some next ->
  nextDecision s = Normal d ->
  action d = BUY ->
  let price := close next in
  let qty := Math_floor (cash s / price) in
  let bought := mkTrade (currentIndex s + 1) TBUY price (d_reason d) in
  exists s', step s = Normal s' /\
    ((cash s >=? price)%num = true -> (qty >? ofZ 0)%num = true ->
       cash s' = (cash s - qty * price)%num /\
       shares s' = (shares s + qty)%num /\
       trades s' = (trades s ++ [bought])%list) /\
    ((cash s >=? price)%num = true -> qty = ofZ 0 ->
       cash s' = cash s /\ shares s' = shares s /\ trades s' = trades s) /\
    ((cash s <? price)%num = true ->
       cash s' = cash s /\ shares s' = shares s /\ trades s' = trades s) /\
    (cash s = ofZ 10000 -> shares s = ofZ 0 -> price = ofZ 100 ->
       cash s' = ofZ 0 /\ shares s' = ofZ 100 /\
       trades s' = (trades s ++ [bought])%list).
Proof.
  intros Hnext Hdec Hact price qty bought.
  enter_step s next d Hnext Hdec. rewrite Hact.
  fold price. fold qty.
  destruct (cash s >=? price)%num eqn:Hge;
    [destruct (qty >? ofZ 0)%num eqn:Hq|];
    (eexists; split; [reflexivity|]); cbn [cash shares trades];
    (split; [|split; [|split]]).
  (* a positive quantity *)
  - auto.
  - intros _ Hz. rewrite Hz in Hq. discriminate.
  - intros Hlt. apply num_ltb_not_geb in Hlt. congruence.
  - intros Hc Hs Hp. subst qty bought. rewrite Hc, Hs, Hp. repeat split.
  (* no positive quantity *)
  - discriminate.
  - auto.
  - auto.
  - intros Hc Hs Hp. subst qty. rewrite Hc, Hp in Hq. discriminate.
  (* not enough cash *)
  - discriminate.
  - discriminate.
  - auto.
  - intros Hc Hs Hp. rewrite Hc, Hp in Hge. discriminate.
Qed.

(** C2. With a SELL decision at an index [i+1] of the series and
    [shares > 0]: the cash grows by the shares held times the close of
    candle [i+1], one SELL trade at [i+1] is recorded, and no share is
    left.  Selling 50 shares at 80 adds 4000 to the cash. *)
Theorem step_sell (s : SimulatorState) (d : Decision) (next : Candle) :
  at_ (candles s) (currentIndex s + 1) = Some next ->
  nextDecision s = Normal d ->
  action d = SELL ->
  (shares s >? ofZ 0)%num = true ->
  let price := close next in
  let sold := mkTrade (currentIndex s + 1) TSELL price (d_reason d) in
  exists s', step s = Normal s' /\
    cash s' = (cash s + shares s * price)%num /\
    shares s' = ofZ 0 /\
    trades s' = (trades s ++ [sold])%list /\
    (shares s = ofZ 50 -> price = ofZ 80 ->
       cash s' = (cash s + ofZ 4000)%num).
Proof.
  intros Hnext Hdec Hact Hpos price sold.
  enter_step s next d Hnext Hdec. rewrite Hact, Hpos.
  eexists; split; [reflexivity|]. cbn [cash shares trades].
  repeat split.
  intros Hs Hp. fold price. rewrite Hs, Hp. reflexivity.
Qed.

(** C6. A [step] that is not the no-op at the end appends one equity
    point, whatever the decision and whether or not a trade is made: its
    value is the cash plus the shares times the price after the step,
    its timestamp that of candle [i+1]; and the current index becomes
    [i+1]. *)
Theorem step_appends_equity (s : SimulatorState) (d : Decision) (next : Candle) :
  at_ (candles s) (currentIndex s + 1) = Some next ->
  nextDecision s = Normal d ->
  exists s', step s = Normal s' /\
    equitySeries s' =
      (equitySeries s
         ++ [mkEquityPoint (timestamp next)
               (cash s' + shares s' * close next)%num])%list /\
    currentIndex s' = (currentIndex s + 1)%Z.
Proof.
  intros Hnext Hdec.
  enter_step s next d Hnext Hdec.
  destruct (action d);
    [destruct (cash s >=? close next)%num;
       [destruct (Math_floor (cash s / close next) >? ofZ 0)%num|]
    |destruct (shares s >? ofZ 0)%num|];
    (eexists; split; [reflexivity|]); split; reflexivity.
Qed.

End StepFacts.

(** ** [reset] *)

Lemma findIndexFrom_spec {A : Type} (p : A -> bool) (xs : list A) (i : Z) :
  (0 <= i)%Z ->
  let k := findIndexFrom p xs i in
  (k = (-1)%Z /\ forall x, In x xs -> p x = false)
  \/ ((i <= k)%Z /\
      (exists x, nth_error xs (Z.to_nat (k - i)) = Some x /\ p x = true) /\
      forall j y, (i <= j < k)%Z ->
                  nth_error xs (Z.to_nat (j - i)) = Some y -> p y = false).
Proof.
  revert i. induction xs as [|x rest IH]; intros i Hi; cbn.
  - left. split; [reflexivity|]. intros x [].
  - destruct (p x) eqn:Px.
    + right. split; [lia|]. split.
      * exists x. rewrite Z.sub_diag. auto.
      * intros j y Hj. lia.
    + destruct (IH (i + 1)%Z ltac:(lia)) as [[Hk Hall]|[Hk [[y [Hy Py]] Hbefore]]].
      * left. split; [exact Hk|]. intros z [<-|Hz]; auto.
      * right. split; [lia|]. split.
        -- exists y. split; [|exact Py].
           replace (Z.to_nat (findIndexFrom p rest (i + 1) - i))
             with (S (Z.to_nat (findIndexFrom p rest (i + 1) - (i + 1)))) by lia.
           exact Hy.
        -- intros j z Hj Hz.
           destruct (Z.eq_dec j i) as [->|Hne].
           ++ rewrite Z.sub_diag in Hz. cbn in Hz. congruence.
           ++ apply (Hbefore j z); [lia|].
              replace (Z.to_nat (j - i)) with (S (Z.to_nat (j - (i + 1)))) in Hz
                by lia.
              exact Hz.
Qed.

Lemma warmupStart_spec (cs : list Candle) : isWarmupStart cs (warmupStart cs).
Proof.
  unfold warmupStart, findIndex.
  destruct (findIndexFrom_spec bothSmaDefined cs (i := 0%Z) ltac:(lia))
    as [[Hk Hall]|[Hk [[c [Hc Pc]] Hbefore]]].
  - rewrite Hk. cbn. right. auto.
  - destruct (findIndexFrom bothSmaDefined cs 0 =? -1)%Z eqn:E;
      [apply Z.eqb_eq in E; lia|].
    left. exists c. rewrite Z.sub_0_r in Hc. split; [|split].
    + unfold at_. destruct (_ <? 0)%Z eqn:L; [apply Z.ltb_lt in L; lia|exact Hc].
    + exact Pc.
    + intros j c' Hj Hc'. apply (Hbefore j c'); [lia|].
      unfold at_ in Hc'. rewrite Z.sub_0_r.
      destruct (j <? 0)%Z; [discriminate|exact Hc'].
Qed.

Lemma warmupStart_in_range (cs : list Candle) :
  cs <> [] -> exists c, at_ cs (warmupStart cs) = Some c.
Proof.
  intros Hne. destruct (warmupStart_spec cs) as [[c [Hc _]]|[Hk _]].
  - eauto.
  - rewrite Hk. destruct cs as [|c rest]; [contradiction|]. exists c. reflexivity.
Qed.

(** C4, as the code has it.  [reset] returns, and in the state it
    returns the trade log is empty, the cash is the initial capital,
    there is no share, and the current index is the warm-up start index
    (the first index where the short and the long SMA are both defined,
    0 if there is none); on a series that is not empty the equity series
    is the single seed point of that candle's timestamp and the initial
    capital, and on the empty series it is empty. *)
Theorem reset_state (s : SimulatorState) :
  exists s' k,
    reset s = Normal s' /\
    trades s' = [] /\
    cash s' = INITIAL_CAPITAL /\
    shares s' = ofZ 0 /\
    isWarmupStart (candles s) k /\
    currentIndex s' = k /\
    (candles s = [] -> equitySeries s' = []) /\
    (candles s <> [] ->
       exists c, at_ (candles s) k = Some c /\
         equitySeries s' = [mkEquityPoint (timestamp c) INITIAL_CAPITAL]).
Proof.
  unfold reset. destruct (candles s) as [|c0 rest] eqn:Hcs.
  - eexists; exists (warmupStart []); split; [reflexivity|].
    cbn [trades cash shares currentIndex equitySeries].
    repeat split; auto using warmupStart_spec. intros H; contradiction.
  - destruct (warmupStart_in_range (cs := c0 :: rest)) as [c Hc]; [discriminate|].
    cbn [List.length]. rewrite Hc. cbn [bind].
    eexists; exists (warmupStart (c0 :: rest)); split; [reflexivity|].
    cbn [trades cash shares currentIndex equitySeries].
    repeat split; auto using warmupStart_spec; [discriminate|].
    intros _. exists c. auto.
Qed.

(** C4 on the empty series: the store as it is created has no candle,
    and [reset] leaves its equity series empty, not of length 1. *)
Lemma reset_empty_series_has_no_seed :
  candles initialStore = [] /\
  exists s', reset initialStore = Normal s' /\
    List.length (trades s') = 0%nat /\
    List.length (equitySeries s') <> 1%nat.
Proof.
  split; [reflexivity|]. eexists; split; [reflexivity|].
  split; [reflexivity|]. cbn. discriminate.
Qed.

(** ** [decide] *)

Section DecideFacts.

Context {host : Host}.

(** C8. Under the SMA crossover, EMA crossover and MACD strategies,
    [decide] answers HOLD as soon as one of the two indicator values the
    strategy compares is undefined on the current candle or on the
    previous one; at index 0 there is no previous candle. *)
Theorem crossover_holds_while_undefined
  (strategy : StrategyName) (f g : Candle -> option number)
  (idx : Z) (candles : list Candle) (rsi : list number) :
  requiredIndicators strategy = Some (f, g) ->
  idx = 0%Z \/
  chain (at_ candles idx) f = None \/ chain (at_ candles idx) g = None \/
  chain (at_ candles (idx - 1)) f = None \/
  chain (at_ candles (idx - 1)) g = None ->
  exists why, decide strategy idx candles rsi = Normal (mkDecision HOLD why).
Proof.
  intros Hreq Hundef.
  assert (H : chain (at_ candles idx) f = None \/
              chain (at_ candles idx) g = None \/
              chain (at_ candles (idx - 1)) f = None \/
              chain (at_ candles (idx - 1)) g = None).
  { destruct Hundef as [->|H]; [|exact H]. right; right; left. reflexivity. }
  clear Hundef. unfold decide.
  destruct (at_ candles idx) as [c|]; [|eauto].
  cbn [chain] in H.
  destruct strategy; try discriminate; injection Hreq as <- <-.
  - destruct (smaShort c), (smaLong c),
      (chain (at_ candles (idx - 1)) smaShort),
      (chain (at_ candles (idx - 1)) smaLong); eauto;
      destruct H as [H|[H|[H|H]]]; discriminate.
  - destruct (emaShort c), (emaLong c),
      (chain (at_ candles (idx - 1)) emaShort),
      (chain (at_ candles (idx - 1)) emaLong); eauto;
      destruct H as [H|[H|[H|H]]]; discriminate.
  - destruct (macdLine c), (macdSignal c),
      (chain (at_ candles (idx - 1)) macdLine),
      (chain (at_ candles (idx - 1)) macdSignal); eauto;
      destruct H as [H|[H|[H|H]]]; discriminate.
Qed.

Ltac split_matches :=
  repeat match goal with
         | |- context [match ?x with _ => _ end] => destruct x
         end.

(** [decide] throws on no input where the RSI series is as long as the
    candle series. *)
Lemma decide_returns (strategy : StrategyName) (idx : Z)
  (candles : list Candle) (rsi : list number) :
  List.length rsi = List.length candles ->
  exists d, decide strategy idx candles rsi = Normal d.
Proof.
  intros Hlen. unfold decide.
  destruct (at_ candles idx) as [c|] eqn:Hc; [|eauto].
  destruct strategy; try (split_matches; eauto; fail).
  apply at_Some_range in Hc. rewrite <- Hlen in Hc.
  destruct (at_in_range rsi Hc) as [v ->].
  split_matches; eauto.
Qed.

Lemma buy_and_hold_holds (idx : Z) (candles : list Candle) (rsi : list number) :
  idx <> 0%Z ->
  exists why, decide BUY_AND_HOLD idx candles rsi = Normal (mkDecision HOLD why).
Proof.
  intros Hidx. unfold decide.
  destruct (at_ candles idx); [|eauto].
  destruct (idx =? 0)%Z eqn:E; [apply Z.eqb_eq in E; contradiction|eauto].
Qed.

End DecideFacts.

(** ** Runs of the store *)

Section RunFacts.

Context {host : Host}.

(** What a [step] that returns has done to the ledger: nothing, a
    purchase, or a sale. *)
Lemma step_ledger (s s' : SimulatorState) :
  step s = Normal s' ->
  (cash s' = cash s /\ shares s' = shares s /\ trades s' = trades s)
  \/ (exists next d,
        at_ (candles s) (currentIndex s + 1) = Some next /\
        nextDecision s = Normal d /\ action d = BUY /\
        (cash s >=? close next)%num = true /\
        (Math_floor (cash s / close next) >? ofZ 0)%num = true /\
        cash s' = (cash s - Math_floor (cash s / close next) * close next)%num /\
        shares s' = (shares s + Math_floor (cash s / close next))%num)
  \/ (exists next d,
        at_ (candles s) (currentIndex s + 1) = Some next /\
        nextDecision s = Normal d /\ action d = SELL /\
        (shares s >? ofZ 0)%num = true /\
        cash s' = (cash s + shares s * close next)%num /\
        shares s' = ofZ 0).
Proof.
  unfold step. fold (nextDecision s).
  destruct (currentIndex s >=? _)%Z.
  { intros [= <-]. auto. }
  destruct (nextDecision s) as [d|] eqn:Hd; [|discriminate]. cbn [bind].
  destruct (at_ (candles s) (currentIndex s + 1)) as [next|] eqn:Hn;
    [|discriminate].
  destruct (action d) eqn:Ha.
  - destruct (cash s >=? close next)%num eqn:Hge;
      [destruct (Math_floor (cash s / close next) >? ofZ 0)%num eqn:Hq|];
      intros [= <-]; cbn [cash shares trades]; auto.
    right; left. exists next, d. repeat split; auto.
  - destruct (shares s >? ofZ 0)%num eqn:Hpos;
      intros [= <-]; cbn [cash shares trades]; auto.
    right; right. exists next, d. repeat split; auto.
  - intros [= <-]; cbn [cash shares trades]; auto.
Qed.

(** What no [step] touches, and where the index goes. *)
Lemma step_frame (s s' : SimulatorState) :
  step s = Normal s' ->
  candles s' = candles s /\ rsiSeries s' = rsiSeries s /\
  strategyName s' = strategyName s /\
  currentIndex s' =
    if (currentIndex s >=? Z.of_nat (List.length (candles s)) - 1)%Z
    then currentIndex s else (currentIndex s + 1)%Z.
Proof.
  unfold step. fold (nextDecision s).
  destruct (currentIndex s >=? _)%Z.
  { intros [= <-]. auto. }
  destruct (nextDecision s) as [d|]; [|discriminate]. cbn [bind].
  destruct (at_ (candles s) (currentIndex s + 1)) as [next|]; [|discriminate].
  destruct (action d);
    [destruct (cash s >=? close next)%num;
       [destruct (Math_floor (cash s / close next) >? ofZ 0)%num|]
    |destruct (shares s >? ofZ 0)%num|];
    intros [= <-]; cbn; auto.
Qed.

(** [step] returns in every state whose RSI series is as long as its
    candle series and whose index is not below -1. *)
Lemma step_returns (s : SimulatorState) :
  List.length (rsiSeries s) = List.length (candles s) ->
  (0 <= currentIndex s + 1)%Z ->
  exists s', step s = Normal s'.
Proof.
  intros Hlen Hidx. unfold step.
  destruct (currentIndex s >=? _)%Z eqn:G; [eauto|].
  rewrite Z.geb_leb in G. apply Z.leb_gt in G.
  destruct (decide_returns (strategyName s) (currentIndex s + 1)
              (candles s) (map rp_value (rsiSeries s))) as [d ->].
  { rewrite length_map. exact Hlen. }
  destruct (at_in_range (candles s) (i := (currentIndex s + 1)%Z)) as [next ->];
    [lia|].
  cbn [bind].
  destruct (action d);
    [destruct (cash s >=? close next)%num;
       [destruct (Math_floor (cash s / close next) >? ofZ 0)%num|]
    |destruct (shares s >? ofZ 0)%num|]; eauto.
Qed.

Lemma warmupStart_nonneg (cs : list Candle) : (0 <= warmupStart cs)%Z.
Proof.
  destruct (warmupStart_spec cs) as [[c [Hc _]]|[-> _]]; [|lia].
  apply at_Some_range in Hc. lia.
Qed.

(** The store after [reset]. *)
Lemma dispatch_reset (s : SimulatorState) :
  let s' := dispatch reset s in
  candles s' = candles s /\ rsiSeries s' = rsiSeries s /\
  strategyName s' = strategyName s /\
  trades s' = [] /\ cash s' = INITIAL_CAPITAL /\ shares s' = ofZ 0 /\
  currentIndex s' = warmupStart (candles s) /\
  lastExplanation s' = "" /\ portfolioValue s' = INITIAL_CAPITAL /\
  equitySeries s' =
    match at_ (candles s) (warmupStart (candles s)) with
    | Some c => [mkEquityPoint (timestamp c) INITIAL_CAPITAL]
    | None => []
    end.
Proof.
  unfold dispatch, reset.
  destruct (candles s) as [|c0 rest] eqn:Hcs; cbn [List.length bind].
  - cbn. repeat split; reflexivity.
  - destruct (warmupStart_in_range (cs := c0 :: rest)) as [c Hc]; [discriminate|].
    rewrite Hc. cbn. repeat split; reflexivity.
Qed.

(** *** Buy and hold *)

Lemma buy_and_hold_step (s : SimulatorState) :
  strategyName s = BUY_AND_HOLD -> (0 <= currentIndex s)%Z ->
  trades s = [] -> cash s = INITIAL_CAPITAL -> shares s = ofZ 0 ->
  let s' := dispatch step s in
  strategyName s' = BUY_AND_HOLD /\ (0 <= currentIndex s')%Z /\
  trades s' = [] /\ cash s' = INITIAL_CAPITAL /\ shares s' = ofZ 0.
Proof.
  intros Hname Hidx Ht Hc Hs. unfold dispatch.
  destruct (step s) as [s'|] eqn:E; [|auto].
  destruct (step_frame s E) as (_ & _ & Hn & Hi).
  assert (Hhold : exists why, nextDecision s = Normal (mkDecision HOLD why)).
  { unfold nextDecision. rewrite Hname. apply buy_and_hold_holds. lia. }
  destruct Hhold as [why Hhold].
  split; [congruence|]. split; [rewrite Hi; destruct (_ >=? _)%Z; lia|].
  destruct (step_ledger s E)
    as [(Hc' & Hs' & Ht')|[(next & d & _ & Hd & Ha & _)|(next & d & _ & Hd & Ha & _)]].
  - repeat split; congruence.
  - rewrite Hhold in Hd. injection Hd as <-. discriminate.
  - rewrite Hhold in Hd. injection Hd as <-. discriminate.
Qed.

(** C10. Under BUY_AND_HOLD no trade is ever recorded: after any reset
    and any number of steps the trade log is empty, the cash is the
    initial capital and there is no share. *)
Theorem buy_and_hold_never_trades (s : SimulatorState) (n : nat) :
  strategyName s = BUY_AND_HOLD ->
  let s' := steps n (dispatch reset s) in
  trades s' = [] /\ cash s' = INITIAL_CAPITAL /\ shares s' = ofZ 0.
Proof.
  intros Hname.
  assert (Hgen : forall m t,
             strategyName t = BUY_AND_HOLD -> (0 <= currentIndex t)%Z ->
             trades t = [] -> cash t = INITIAL_CAPITAL -> shares t = ofZ 0 ->
             trades (steps m t) = [] /\ cash (steps m t) = INITIAL_CAPITAL /\
             shares (steps m t) = ofZ 0).
  { induction m as [|m IH]; intros t H1 H2 H3 H4 H5; cbn [steps]; [auto|].
    destruct (buy_and_hold_step t H1 H2 H3 H4 H5) as (K1 & K2 & K3 & K4 & K5).
    apply IH; assumption. }
  destruct (dispatch_reset s) as (_ & _ & Hn & Ht & Hc & Hs & Hi & _).
  apply Hgen; try assumption; [congruence|].
  rewrite Hi. apply warmupStart_nonneg.
Qed.

(** *** Determinism *)

Lemma agree_step (s1 s2 : SimulatorState) :
  agree s1 s2 -> agree (dispatch step s1) (dispatch step s2).
Proof.
  destruct s1, s2. unfold agree. cbn.
  intros (-> & -> & -> & -> & -> & -> & -> & -> & -> & ->).
  unfold dispatch, step, bind. cbn.
  destruct (_ >=? _)%Z; [cbn; repeat split|].
  destruct (decide _ _ _ _) as [d|]; [|cbn; repeat split].
  destruct (at_ _ _) as [next|]; [|cbn; repeat split].
  destruct (action d);
    repeat match goal with
           | |- context [if ?c then _ else _] => destruct c
           end; cbn; repeat split.
Qed.

Lemma agree_reset (s1 s2 : SimulatorState) :
  candles s1 = candles s2 -> rsiSeries s1 = rsiSeries s2 ->
  strategyName s1 = strategyName s2 ->
  agree (dispatch reset s1) (dispatch reset s2).
Proof.
  intros Hc Hr Hn.
  destruct (dispatch_reset s1) as (A1 & A2 & A3 & A4 & A5 & A6 & A7 & A8 & A9 & A10).
  destruct (dispatch_reset s2) as (B1 & B2 & B3 & B4 & B5 & B6 & B7 & B8 & B9 & B10).
  unfold agree. rewrite A1, A2, A3, A4, A5, A6, A7, A8, A9, A10.
  rewrite B1, B2, B3, B4, B5, B6, B7, B8, B9, B10.
  rewrite Hc, Hr, Hn. repeat split.
Qed.

Lemma agree_steps (n : nat) (s1 s2 : SimulatorState) :
  agree s1 s2 -> agree (steps n s1) (steps n s2).
Proof.
  revert s1 s2. induction n as [|n IH]; intros s1 s2 H; cbn [steps]; [exact H|].
  apply IH, agree_step, H.
Qed.

(** C9. Two replays of the same candle series (with its RSI series)
    under the same strategy give the same trade log and the same equity
    curve, whatever the two stores held before: after [reset] and any
    number of steps, and so after the full replay, the stores differ at
    most in the playback fields. *)
Theorem replay_deterministic (s1 s2 : SimulatorState) :
  candles s1 = candles s2 ->
  rsiSeries s1 = rsiSeries s2 ->
  strategyName s1 = strategyName s2 ->
  (forall n, agree (steps n (dispatch reset s1)) (steps n (dispatch reset s2))) /\
  trades (replay s1) = trades (replay s2) /\
  equitySeries (replay s1) = equitySeries (replay s2).
Proof.
  intros Hc Hr Hn.
  assert (H : forall n, agree (steps n (dispatch reset s1))
                              (steps n (dispatch reset s2)))
    by (intros n; apply agree_steps, agree_reset; assumption).
  split; [exact H|].
  unfold replay. rewrite <- Hc.
  destruct (H (List.length (candles s1))) as (_ & _ & He & Ht & _).
  split; assumption.
Qed.

(** *** Reaching the last candle *)

Lemma steps_reach_end (n : nat) (s : SimulatorState) :
  List.length (rsiSeries s) = List.length (candles s) ->
  (0 <= currentIndex s)%Z ->
  (Z.of_nat (List.length (candles s)) - 1 <= currentIndex s + Z.of_nat n)%Z ->
  (Z.of_nat (List.length (candles s)) - 1 <= currentIndex (steps n s))%Z /\
  candles (steps n s) = candles s.
Proof.
  revert s. induction n as [|n IH]; intros s Hlen Hidx Hn; cbn [steps].
  - split; [lia|reflexivity].
  - destruct (step_returns s Hlen ltac:(lia)) as [s' Hs'].
    destruct (step_frame s Hs') as (Hc & Hr & _ & Hi).
    unfold dispatch. rewrite Hs'.
    destruct (IH s') as [H1 H2].
    + congruence.
    + rewrite Hi. destruct (_ >=? _)%Z; lia.
    + rewrite Hc, Hi. destruct (_ >=? _)%Z eqn:G; [|lia].
      rewrite Z.geb_leb in G. apply Z.leb_le in G. lia.
    + rewrite Hc in H1, H2. split; assumption.
Qed.

(** A replay ends on the last candle (or beyond it, on the empty
    series): the next [step] is the no-op. *)
Lemma replay_reaches_end (s : SimulatorState) :
  List.length (rsiSeries s) = List.length (candles s) ->
  (Z.of_nat (List.length (candles s)) - 1 <= currentIndex (replay s))%Z.
Proof.
  intros Hlen. unfold replay.
  destruct (dispatch_reset s) as (Hc & Hr & _ & _ & _ & _ & Hi & _).
  destruct (steps_reach_end (List.length (candles s)) (dispatch reset s))
    as [H _].
  - congruence.
  - rewrite Hi. apply warmupStart_nonneg.
  - rewrite Hc, Hi. pose proof (warmupStart_nonneg (candles s)). lia.
  - rewrite Hc in H. exact H.
Qed.

(** *** The ledger invariant *)

Lemma at_In {A : Type} (xs : list A) (i : Z) (x : A) :
  at_ xs i = Some x -> In x xs.
Proof.
  unfold at_. destruct (i <? 0)%Z; [discriminate|]. apply nth_error_In.
Qed.

(** What a [step] that returns has done to the cash and the shares:
    nothing, a purchase that is in the trade log, or a sale. *)
Lemma step_effect (s s' : SimulatorState) :
  step s = Normal s' ->
  (cash s' = cash s /\ shares s' = shares s)
  \/ (exists next,
        (Math_floor (cash s / close next) >? ofZ 0)%num = true /\
        shares s' = (shares s + Math_floor (cash s / close next))%num /\
        purchased s s')
  \/ (exists next,
        at_ (candles s) (currentIndex s + 1) = Some next /\
        (shares s >? ofZ 0)%num = true /\
        cash s' = (cash s + shares s * close next)%num /\
        shares s' = ofZ 0).
Proof.
  unfold step. fold (nextDecision s).
  destruct (currentIndex s >=? _)%Z.
  { intros [= <-]. auto. }
  destruct (nextDecision s) as [d|] eqn:Hd; [|discriminate]. cbn [bind].
  destruct (at_ (candles s) (currentIndex s + 1)) as [next|] eqn:Hn;
    [|discriminate].
  destruct (action d) eqn:Ha.
  - destruct (cash s >=? close next)%num eqn:Hge;
      [destruct (Math_floor (cash s / close next) >? ofZ 0)%num eqn:Hq|];
      intros [= <-]; cbn [cash shares trades]; auto.
    right; left. exists next. split; [exact Hq|]. split; [reflexivity|].
    unfold purchased. cbn [trades]. eexists. split; reflexivity.
  - destruct (shares s >? ofZ 0)%num eqn:Hpos;
      intros [= <-]; cbn [cash shares trades]; auto.
    right; right. exists next. auto.
  - intros [= <-]; cbn [cash shares trades]; auto.
Qed.

(** A positive quantity added to whole shares gives whole shares. *)
Lemma wholeShares_add (x y : number) :
  wholeShares x -> (Math_floor y >? ofZ 0)%num = true ->
  wholeShares (x + Math_floor y)%num.
Proof.
  intros (Hx0 & Hx) Hq.
  destruct y as [b| | |]; cbn [Math_floor] in *; try discriminate Hq.
  - (* a finite quantity *)
    assert (Hz : 0 < inject_Z (Qfloor b)).
    { unfold num_gtb, num_ltb, ofZ in Hq.
      destruct (inject_Z 0 ?= inject_Z (Qfloor b))%Q eqn:C; try discriminate.
      apply Qlt_alt in C. exact C. }
    destruct Hx as [(n & q & -> & Hn)| ->].
    + unfold num_geb, num_leb, ofZ in Hx0. apply Qle_bool_iff in Hx0.
      change (inject_Z 0) with 0 in Hx0.
      unfold ofZ, num_add. split.
      * unfold num_geb, num_leb. apply Qle_bool_iff.
        change (inject_Z 0) with 0. lra.
      * left. exists (n + Qfloor b)%Z. eexists. split; [reflexivity|].
        rewrite inject_Z_plus, Hn. reflexivity.
    + split; [reflexivity|right; reflexivity].
  - (* an infinite quantity *)
    destruct Hx as [(n & q & -> & Hn)| ->];
      (split; [reflexivity|right; reflexivity]).
Qed.

Lemma wholeShares_step (t : SimulatorState) :
  wholeShares (shares t) -> wholeShares (shares (dispatch step t)).
Proof.
  intros Hok. unfold dispatch.
  destruct (step t) as [t'|] eqn:E; [|exact Hok].
  destruct (step_effect t E)
    as [(_ & ->)|[(next & Hq & -> & _)|(next & _ & _ & _ & ->)]].
  - exact Hok.
  - apply wholeShares_add; assumption.
  - split; [reflexivity|]. left. exists 0%Z, (inject_Z 0).
    split; reflexivity.
Qed.

(** A sale at a positive price keeps the cash from falling below 0. *)
Lemma sale_keeps_cash (c x : number) (p : Q) :
  (c >=? ofZ 0)%num = true -> wholeShares x -> 0 < p ->
  (c + x * Fin p >=? ofZ 0)%num = true.
Proof.
  intros Hc (Hx0 & Hx) Hp.
  assert (Hcmp : (p ?= 0)%Q = Gt) by (apply Qgt_alt; exact Hp).
  destruct Hx as [(n & q & -> & Hn)| ->].
  - unfold num_geb, num_leb, ofZ in Hx0. apply Qle_bool_iff in Hx0.
    change (inject_Z 0) with 0 in Hx0.
    destruct c as [a| | |]; try discriminate Hc.
    + unfold num_geb, num_leb, ofZ in Hc. apply Qle_bool_iff in Hc.
      change (inject_Z 0) with 0 in Hc.
      unfold num_mul, num_add, num_geb, num_leb, ofZ.
      apply Qle_bool_iff. change (inject_Z 0) with 0. nra.
    + reflexivity.
  - unfold num_mul. rewrite Hcmp. cbn [signedInf].
    destruct c as [a| | |]; try discriminate Hc; reflexivity.
Qed.


End RunFacts.

(** ** The stochastic oscillator *)

Lemma fold_max_finite (xs : list number) :
  (forall x, In x xs -> exists q, x = Fin q) ->
  forall a, exists M, fold_left max2 xs (Fin a) = Fin M /\ a <= M /\
                      forall q, In (Fin q) xs -> q <= M.
Proof.
  induction xs as [|x rest IH]; intros Hfin a; cbn [fold_left].
  - exists a. repeat split; [lra|intros q []].
  - destruct (Hfin x (or_introl eq_refl)) as [b ->].
    assert (Hrest : forall y, In y rest -> exists q, y = Fin q)
      by (intros y Hy; apply Hfin; right; exact Hy).
    cbn [max2 num_leb]. destruct (Qle_bool a b) eqn:E.
    + apply Qle_bool_iff in E.
      destruct (IH Hrest b) as (M & HM & HbM & Hall). exists M.
      repeat split; [exact HM|lra|].
      intros q [[= ->]|Hq]; [exact HbM|auto].
    + assert (b < a).
      { apply Qnot_le_lt. intros Hle. apply Qle_bool_iff in Hle. congruence. }
      destruct (IH Hrest a) as (M & HM & HaM & Hall). exists M.
      repeat split; [exact HM|exact HaM|].
      intros q [[= ->]|Hq]; [lra|auto].
Qed.

Lemma fold_min_finite (xs : list number) :
  (forall x, In x xs -> exists q, x = Fin q) ->
  forall a, exists m, fold_left min2 xs (Fin a) = Fin m /\ m <= a /\
                      forall q, In (Fin q) xs -> m <= q.
Proof.
  induction xs as [|x rest IH]; intros Hfin a; cbn [fold_left].
  - exists a. repeat split; [lra|intros q []].
  - destruct (Hfin x (or_introl eq_refl)) as [b ->].
    assert (Hrest : forall y, In y rest -> exists q, y = Fin q)
      by (intros y Hy; apply Hfin; right; exact Hy).
    cbn [min2 num_leb]. destruct (Qle_bool a b) eqn:E.
    + apply Qle_bool_iff in E.
      destruct (IH Hrest a) as (m & Hm & Hma & Hall). exists m.
      repeat split; [exact Hm|exact Hma|].
      intros q [[= ->]|Hq]; [lra|auto].
    + assert (b < a).
      { apply Qnot_le_lt. intros Hle. apply Qle_bool_iff in Hle. congruence. }
      destruct (IH Hrest b) as (m & Hm & Hmb & Hall). exists m.
      repeat split; [exact Hm|lra|].
      intros q [[= ->]|Hq]; [exact Hmb|auto].
Qed.

Lemma Math_max_finite (xs : list number) :
  xs <> [] -> (forall x, In x xs -> exists q, x = Fin q) ->
  exists M, Math_max xs = Fin M /\ forall q, In (Fin q) xs -> q <= M.
Proof.
  intros Hne Hfin. destruct xs as [|x rest]; [contradiction|].
  destruct (Hfin x (or_introl eq_refl)) as [b ->].
  destruct (fold_max_finite rest
              ltac:(intros y Hy; apply Hfin; right; exact Hy) b)
    as (M & HM & HbM & Hall).
  exists M. split; [exact HM|].
  intros q [[= ->]|Hq]; [exact HbM|auto].
Qed.

Lemma Math_min_finite (xs : list number) :
  xs <> [] -> (forall x, In x xs -> exists q, x = Fin q) ->
  exists m, Math_min xs = Fin m /\ forall q, In (Fin q) xs -> m <= q.
Proof.
  intros Hne Hfin. destruct xs as [|x rest]; [contradiction|].
  destruct (Hfin x (or_introl eq_refl)) as [b ->].
  destruct (fold_min_finite rest
              ltac:(intros y Hy; apply Hfin; right; exact Hy) b)
    as (m & Hm & Hmb & Hall).
  exists m. split; [exact Hm|].
  intros q [[= ->]|Hq]; [exact Hmb|auto].
Qed.

Lemma In_firstn {A : Type} (n : nat) (xs : list A) (x : A) :
  In x (firstn n xs) -> In x xs.
Proof.
  revert xs. induction n as [|n IH]; intros xs H.
  - destruct xs; contradiction.
  - destruct xs as [|y rest]; [contradiction|].
    destruct H as [H|H]; [left; exact H|right; apply IH, H].
Qed.

Lemma In_skipn {A : Type} (n : nat) (xs : list A) (x : A) :
  In x (skipn n xs) -> In x xs.
Proof.
  revert xs. induction n as [|n IH]; intros xs H; [exact H|].
  destruct xs as [|y rest]; [contradiction|]. right. apply IH, H.
Qed.

Lemma In_slice {A : Type} (xs : list A) (start stop : Z) (x : A) :
  In x (slice xs start stop) -> In x xs.
Proof. unfold slice. intros H. eapply In_skipn, In_firstn, H. Qed.

(** The window that ends at [i] holds the element at [i]. *)
Lemma slice_holds_last {A : Type} (xs : list A) (i k : Z) (x : A) :
  (1 <= k)%Z -> (k - 1 <= i)%Z -> at_ xs i = Some x ->
  In x (slice xs (i - k + 1) (i + 1)).
Proof.
  intros Hk Hi Hx. unfold slice.
  apply nth_error_In with (n := Z.to_nat (k - 1)).
  rewrite nth_error_firstn, nth_error_skipn.
  replace (Z.to_nat (k - 1) <? Z.to_nat (i + 1 - (i - k + 1)))%nat with true
    by (symmetry; apply Nat.ltb_lt; lia).
  replace (Z.to_nat (i - k + 1) + Z.to_nat (k - 1))%nat with (Z.to_nat i) by lia.
  unfold at_ in Hx. destruct (i <? 0)%Z; [discriminate|exact Hx].
Qed.

Lemma at_indices (n : nat) (i : Z) :
  (0 <= i < Z.of_nat n)%Z -> at_ (indices n) i = Some i.
Proof.
  intros Hi. unfold at_, indices.
  destruct (i <? 0)%Z eqn:E; [apply Z.ltb_lt in E; lia|].
  rewrite nth_error_map, nth_error_seq.
  replace (Z.to_nat i <? n)%nat with true by (symmetry; apply Nat.ltb_lt; lia).
  cbn. f_equal. lia.
Qed.

(** Where [%K] is defined and what it is there. *)
Lemma stochK_at (highs lows closes : list number) (kPeriod dPeriod i : Z) :
  (0 <= i < Z.of_nat (List.length closes))%Z ->
  at_ (st_stochK (computeStochastic highs lows closes kPeriod dPeriod)) i =
  Some (if (i >=? kPeriod - 1)%Z
        then Some (stochKAt highs lows closes kPeriod i) else None).
Proof.
  intros Hi. cbn [computeStochastic st_stochK].
  pose proof (at_indices _ Hi) as Hidx.
  unfold at_ in Hidx |- *. destruct (i <? 0)%Z; [discriminate|].
  rewrite nth_error_map, Hidx. reflexivity.
Qed.

Lemma nth_error_in_range {A : Type} (xs : list A) (j : nat) :
  (j < List.length xs)%nat -> exists x, nth_error xs j = Some x.
Proof.
  intros Hj. destruct (nth_error xs j) eqn:E; [eauto|].
  apply nth_error_None in E. lia.
Qed.

(** In well-formed bars every high and every low is finite. *)
Lemma wellFormed_finite (highs lows closes : list number) :
  wellFormedBars highs lows closes ->
  (forall x, In x highs -> exists q, x = Fin q) /\
  (forall x, In x lows -> exists q, x = Fin q).
Proof.
  intros (Lh & Ll & Hwf). split; intros x Hx;
    apply In_nth_error in Hx; destruct Hx as [j Hj];
    assert (Hsome : nth_error highs j <> None \/ nth_error lows j <> None)
      by (first [left; congruence|right; congruence]);
    assert (Hlt : (j < List.length closes)%nat)
      by (destruct Hsome as [H|H]; apply nth_error_Some in H; lia).
  - destruct (nth_error_in_range lows (j := j)) as [l Hl]; [lia|].
    destruct (nth_error_in_range closes (j := j)) as [c Hc]; [lia|].
    destruct (Hwf j x l c Hj Hl Hc) as (qh & ql & qc & -> & _). eauto.
  - destruct (nth_error_in_range highs (j := j)) as [h Hh]; [lia|].
    destruct (nth_error_in_range closes (j := j)) as [c Hc]; [lia|].
    destruct (Hwf j h x c Hh Hj Hc) as (qh & ql & qc & _ & -> & _). eauto.
Qed.

(** C3, as the code has it.  Where [%K] is defined the index is at
    least [kPeriod - 1]; [%K] is 50 when the highest high of the window
    equals its lowest low, and otherwise it is
    [(close - lowest) / (highest - lowest) * 100], whatever the input.
    For series of one length whose bars have finite prices with
    [0 <= low <= close <= high], and a period of at least 1, [%K] lies
    in [0, 100]. *)
Theorem stochastic_K_range
  (highs lows closes : list number) (kPeriod dPeriod i : Z) (k : number) :
  at_ (st_stochK (computeStochastic highs lows closes kPeriod dPeriod)) i
    = Some (Some k) ->
  let highest := Math_max (slice highs (i - kPeriod + 1) (i + 1)) in
  let lowest := Math_min (slice lows (i - kPeriod + 1) (i + 1)) in
  let c := toNumber (at_ closes i) in
  (kPeriod - 1 <= i)%Z /\
  ((highest === lowest)%num = true -> k = ofZ 50) /\
  ((highest === lowest)%num = false ->
   k = ((c - lowest) / (highest - lowest) * ofZ 100)%num) /\
  (wellFormedBars highs lows closes -> (1 <= kPeriod)%Z ->
   (ofZ 0 <=? k)%num = true /\ (k <=? ofZ 100)%num = true).
Proof.
  intros Hat highest lowest c.
  assert (Hi : (0 <= i < Z.of_nat (List.length closes))%Z).
  { apply at_Some_range in Hat. cbn [computeStochastic st_stochK] in Hat.
    unfold indices in Hat. rewrite !length_map, length_seq in Hat. exact Hat. }
  rewrite (stochK_at highs lows closes kPeriod dPeriod Hi) in Hat.
  destruct (i >=? kPeriod - 1)%Z eqn:Hge; [|discriminate].
  rewrite Z.geb_leb in Hge. apply Z.leb_le in Hge.
  injection Hat as Hkval.
  assert (Hformula :
           k = if (highest === lowest)%num then ofZ 50
               else ((c - lowest) / (highest - lowest) * ofZ 100)%num).
  { rewrite <- Hkval. unfold stochKAt, num_neqb. fold highest lowest c.
    destruct (highest === lowest)%num; reflexivity. }
  split; [exact Hge|].
  split; [intros E; rewrite E in Hformula; exact Hformula|].
  split; [intros E; rewrite E in Hformula; exact Hformula|].
  intros Hwf Hk.
  destruct (wellFormed_finite Hwf) as [Hfh Hfl].
  destruct Hwf as (Lh & Ll & Hwf).
  destruct (at_in_range closes Hi) as [ci Hci].
  destruct (at_in_range highs (i := i)) as [hi Hhi]; [lia|].
  destruct (at_in_range lows (i := i)) as [li Hli]; [lia|].
  assert (Hbar : exists qh ql qc, hi = Fin qh /\ li = Fin ql /\ ci = Fin qc /\
                                  0 <= ql /\ ql <= qc /\ qc <= qh).
  { unfold at_ in Hci, Hhi, Hli. destruct (i <? 0)%Z; [discriminate|].
    exact (Hwf _ _ _ _ Hhi Hli Hci). }
  destruct Hbar as (qh & ql & qc & -> & -> & -> & _ & Hlc & Hch).
  pose proof (slice_holds_last highs Hk Hge Hhi) as Hin_h.
  pose proof (slice_holds_last lows Hk Hge Hli) as Hin_l.
  destruct (Math_max_finite (xs := slice highs (i - kPeriod + 1) (i + 1)))
    as (M & HM & HMall).
  { intros E. rewrite E in Hin_h. contradiction. }
  { intros x Hx. apply Hfh. eapply In_slice, Hx. }
  destruct (Math_min_finite (xs := slice lows (i - kPeriod + 1) (i + 1)))
    as (m & Hm & Hmall).
  { intros E. rewrite E in Hin_l. contradiction. }
  { intros x Hx. apply Hfl. eapply In_slice, Hx. }
  pose proof (HMall _ Hin_h) as HhM. pose proof (Hmall _ Hin_l) as Hml.
  subst highest lowest c.
  rewrite HM, Hm, Hci in Hformula. cbn [toNumber] in Hformula.
  unfold num_eqb in Hformula.
  destruct (Qeq_bool M m) eqn:E; rewrite Hformula.
  - (* no range in the window *)
    split; reflexivity.
  - (* a range *)
    assert (Hlt : m < M).
    { apply Qeq_bool_neq in E. destruct (Qlt_le_dec m M) as [?|Hle]; [assumption|].
      exfalso. apply E. lra. }
    unfold num_sub, num_div.
    assert (Z0 : Qeq_bool (M - m) 0 = false).
    { destruct (Qeq_bool (M - m) 0) eqn:Z0; [|reflexivity].
      apply Qeq_bool_iff in Z0. lra. }
    rewrite Z0. unfold num_mul, num_leb, ofZ.
    set (r := (qc - m) / (M - m)).
    assert (Hr0 : 0 <= r) by (apply Qle_shift_div_l; lra).
    assert (Hr1 : r <= 1) by (apply Qle_shift_div_r; lra).
    split; apply Qle_bool_iff; change (inject_Z 0) with 0;
      change (inject_Z 100) with 100; nra.
Qed.

(** C3 as stated fails twice.  On fourteen bars with high 10, low 0 and
    close 5, [%K] is 50 though the highest high is not the lowest low;
    on fourteen bars whose close 5 lies above the high 2, [%K] is 400. *)
Lemma stochastic_K_is_50_with_a_range :
  (let highs := window14 10 in
   let lows := window14 0 in
   let closes := window14 5 in
   exists k,
     at_ (st_stochK (computeStochastic highs lows closes 14 3)) 13
       = Some (Some k) /\
     (k === ofZ 50)%num = true /\
     (Math_max (slice highs 0 14) === Math_min (slice lows 0 14))%num = false)
  /\
  (exists k,
     at_ (st_stochK (computeStochastic (window14 2) (window14 1) (window14 5)
                       14 3)) 13
       = Some (Some k) /\
     (k <=? ofZ 100)%num = false).
Proof.
  split.
  - eexists. split; [vm_compute; reflexivity|]. split; vm_compute; reflexivity.
  - eexists. split; [vm_compute; reflexivity|]. vm_compute; reflexivity.
Qed.

Lemma combine_nth_error {A B : Type} (xs : list A) (ys : list B) (j : nat)
  (x : A) (y : B) :
  nth_error xs j = Some x -> nth_error ys j = Some y ->
  nth_error (combine xs ys) j = Some (x, y).
Proof.
  revert ys j. induction xs as [|a xs IH]; intros [|b ys] [|j]; cbn;
    try discriminate; [congruence|apply IH].
Qed.

Lemma wellFormedBarsb_ok (highs lows closes : list number) :
  wellFormedBarsb highs lows closes = true -> wellFormedBars highs lows closes.
Proof.
  unfold wellFormedBarsb. intros H.
  apply andb_prop in H. destruct H as [H Hall].
  apply andb_prop in H. destruct H as [Lh Ll].
  apply Nat.eqb_eq in Lh. apply Nat.eqb_eq in Ll.
  split; [exact Lh|]. split; [exact Ll|].
  intros j h l c Hh Hl Hc.
  pose proof (combine_nth_error _ _ _ (combine_nth_error _ _ _ Hh Hl) Hc) as Hj.
  apply nth_error_In in Hj.
  rewrite forallb_forall in Hall. apply Hall in Hj.
  destruct h as [qh| | |], l as [ql| | |], c as [qc| | |]; try discriminate.
  cbn in Hj. apply andb_prop in Hj. destruct Hj as [H1 H2].
  apply andb_prop in H1. destruct H1 as [H0 H1].
  apply Qle_bool_iff in H0. apply Qle_bool_iff in H1.
  apply Qle_bool_iff in H2.
  exists qh, ql, qc. auto 6.
Qed.

Lemma positivePricesb_ok (cs : list Candle) :
  positivePricesb cs = true -> positivePrices cs.
Proof.
  unfold positivePricesb, positivePrices. intros H c Hc.
  rewrite forallb_forall in H. apply H in Hc.
  apply andb_prop in Hc. destruct Hc as [Hf Hp].
  destruct (close c) as [p| | |]; try discriminate.
  exists p. split; [reflexivity|].
  unfold num_gtb, num_ltb, ofZ in Hp.
  destruct (inject_Z 0 ?= p)%Q eqn:C; try discriminate.
  apply Qlt_alt in C. exact C.
Qed.

(** The amended C3 on fourteen bars with high 10, low 0 and close 5:
    [%K] is [(5 - 0) / (10 - 0) * 100], and within the range. *)
Lemma stochastic_K_range_witness :
  let highs := window14 10 in
  let lows := window14 0 in
  let closes := window14 5 in
  let k := stochKAt highs lows closes 14 13 in
  at_ (st_stochK (computeStochastic highs lows closes 14 3)) 13
    = Some (Some k) /\
  wellFormedBars highs lows closes /\ (1 <= 14)%Z /\
  k = ((ofZ 5 - ofZ 0) / (ofZ 10 - ofZ 0) * ofZ 100)%num /\
  (ofZ 0 <=? k)%num = true /\ (k <=? ofZ 100)%num = true.
Proof.
  intros highs lows closes k.
  assert (H1 : at_ (st_stochK (computeStochastic highs lows closes 14 3)) 13
               = Some (Some k)) by (vm_compute; reflexivity).
  assert (H2 : wellFormedBars highs lows closes)
    by (apply wellFormedBarsb_ok; vm_compute; reflexivity).
  assert (H3 : (1 <= 14)%Z) by lia.
  destruct (@stochastic_K_range highs lows closes 14 3 13 k H1)
    as (_ & _ & Hformula & Hrange).
  refine (conj H1 (conj H2 (conj H3 (conj _ (Hrange H2 H3))))).
  rewrite Hformula; vm_compute; reflexivity.
Defined.

(** ** Closed instances *)

(** C1 on the sample series: the fourteenth step buys 100 shares at 100
    with the whole initial capital. *)
Lemma step_buy_witness :
  let s := steps 13 rsiDemo in
  let next := candleAt s 14 in
  let d := decisionOf (nextDecision s) in
  at_ (candles s) (currentIndex s + 1) = Some next /\
  nextDecision s = Normal d /\
  action d = BUY /\
  exists s', step s = Normal s' /\
    cash s' = ofZ 0 /\ shares s' = ofZ 100 /\
    trades s' = [mkTrade 14 TBUY (ofZ 100) "RSI oversold signal (0.0 < 30)"].
Proof.
  intros s next d.
  assert (H1 : at_ (candles s) (currentIndex s + 1) = Some next)
    by (vm_compute; reflexivity).
  assert (H2 : nextDecision s = Normal d) by (vm_compute; reflexivity).
  assert (H3 : action d = BUY) by (vm_compute; reflexivity).
  destruct (@step_buy refHost s d next H1 H2 H3) as (s' & Hs & _ & _ & _ & Hex).
  refine (conj H1 (conj H2 (conj H3 _))).
  exists s'. split; [exact Hs|].
  destruct Hex as (Hc & Hsh & Ht); try (vm_compute; reflexivity).
  rewrite Hc, Hsh, Ht. repeat split.
Defined.

(** C2 on the sample series: the fifteenth step sells the 100 shares at
    500. *)
Lemma step_sell_witness :
  let s := steps 14 rsiDemo in
  let next := candleAt s 15 in
  let d := decisionOf (nextDecision s) in
  at_ (candles s) (currentIndex s + 1) = Some next /\
  nextDecision s = Normal d /\
  action d = SELL /\
  (shares s >? ofZ 0)%num = true /\
  exists s', step s = Normal s' /\
    cash s' = ofZ 50000 /\ shares s' = ofZ 0 /\
    List.length (trades s') = 2%nat.
Proof.
  intros s next d.
  assert (H1 : at_ (candles s) (currentIndex s + 1) = Some next)
    by (vm_compute; reflexivity).
  assert (H2 : nextDecision s = Normal d) by (vm_compute; reflexivity).
  assert (H3 : action d = SELL) by (vm_compute; reflexivity).
  assert (H4 : (shares s >? ofZ 0)%num = true) by (vm_compute; reflexivity).
  destruct (@step_sell refHost s d next H1 H2 H3 H4)
    as (s' & Hs & Hc & Hsh & Ht & _).
  refine (conj H1 (conj H2 (conj H3 (conj H4 _)))).
  exists s'. split; [exact Hs|].
  rewrite Hc, Hsh, Ht. repeat split.
Defined.

(** C5 on the sample series, all of its sixteen candles replayed. *)
Lemma step_at_end_is_noop_witness :
  let s := steps 15 rsiDemo in
  (Z.of_nat (List.length (candles s)) - 1 <= currentIndex s)%Z /\
  step s = Normal s /\ dispatch step s = s.
Proof.
  intros s.
  assert (H : (Z.of_nat (List.length (candles s)) - 1 <= currentIndex s)%Z)
    by (apply Z.leb_le; vm_compute; reflexivity).
  exact (conj H (@step_at_end_is_noop refHost s H)).
Defined.

(** C6 on the first step of the sample series, a HOLD. *)
Lemma step_appends_equity_witness :
  let s := rsiDemo in
  let next := candleAt s 1 in
  let d := decisionOf (nextDecision s) in
  at_ (candles s) (currentIndex s + 1) = Some next /\
  nextDecision s = Normal d /\
  exists s', step s = Normal s' /\
    equitySeries s' =
      [mkEquityPoint "2024-01-01" (ofZ 10000);
       mkEquityPoint "2024-01-02" (cash s' + shares s' * ofZ 230)%num] /\
    currentIndex s' = 1%Z.
Proof.
  intros s next d.
  assert (H1 : at_ (candles s) (currentIndex s + 1) = Some next)
    by (vm_compute; reflexivity).
  assert (H2 : nextDecision s = Normal d) by (vm_compute; reflexivity).
  destruct (@step_appends_equity refHost s d next H1 H2) as (s' & Hs & He & Hi).
  refine (conj H1 (conj H2 _)).
  exists s'. split; [exact Hs|]. split; [exact He|exact Hi].
Defined.



(** C8 on the sample series: at index 5 no long SMA is defined yet. *)
Lemma crossover_holds_while_undefined_witness :
  requiredIndicators SMA_CROSSOVER = Some (smaShort, smaLong) /\
  (5%Z = 0%Z \/
   chain (at_ (candles rsiDemo) 5) smaShort = None \/
   chain (at_ (candles rsiDemo) 5) smaLong = None \/
   chain (at_ (candles rsiDemo) (5 - 1)) smaShort = None \/
   chain (at_ (candles rsiDemo) (5 - 1)) smaLong = None) /\
  exists why,
    decide SMA_CROSSOVER 5 (candles rsiDemo) (map rp_value (rsiSeries rsiDemo))
      = Normal (mkDecision HOLD why).
Proof.
  assert (H1 : requiredIndicators SMA_CROSSOVER = Some (smaShort, smaLong))
    by reflexivity.
  assert (H2 : 5%Z = 0%Z \/
               chain (at_ (candles rsiDemo) 5) smaShort = None \/
               chain (at_ (candles rsiDemo) 5) smaLong = None \/
               chain (at_ (candles rsiDemo) (5 - 1)) smaShort = None \/
               chain (at_ (candles rsiDemo) (5 - 1)) smaLong = None)
    by (right; right; left; vm_compute; reflexivity).
  exact (conj H1 (conj H2
           (@crossover_holds_while_undefined refHost SMA_CROSSOVER
              smaShort smaLong 5 (candles rsiDemo)
              (map rp_value (rsiSeries rsiDemo)) H1 H2))).
Defined.

(** C9 on the sample series, replayed from the fresh store and from the
    store left by an earlier replay. *)
Lemma replay_deterministic_witness :
  let s1 := rsiDemo in
  let s2 := steps 15 rsiDemo in
  candles s1 = candles s2 /\ rsiSeries s1 = rsiSeries s2 /\
  strategyName s1 = strategyName s2 /\
  trades s1 <> trades s2 /\
  trades (replay s1) = trades (replay s2) /\
  equitySeries (replay s1) = equitySeries (replay s2).
Proof.
  intros s1 s2.
  assert (H1 : candles s1 = candles s2) by (vm_compute; reflexivity).
  assert (H2 : rsiSeries s1 = rsiSeries s2) by (vm_compute; reflexivity).
  assert (H3 : strategyName s1 = strategyName s2) by (vm_compute; reflexivity).
  assert (H4 : trades s1 <> trades s2) by (vm_compute; discriminate).
  destruct (@replay_deterministic refHost s1 s2 H1 H2 H3) as (_ & Ht & He).
  exact (conj H1 (conj H2 (conj H3 (conj H4 (conj Ht He))))).
Defined.

(** C10 on the sample series under BUY_AND_HOLD. *)
Lemma buy_and_hold_never_trades_witness :
  let s := dispatch (setStrategyName BUY_AND_HOLD) rsiDemo in
  strategyName s = BUY_AND_HOLD /\
  let s' := steps 16 (dispatch reset s) in
  trades s' = [] /\ cash s' = INITIAL_CAPITAL /\ shares s' = ofZ 0.
Proof.
  intros s.
  assert (H : strategyName s = BUY_AND_HOLD) by (vm_compute; reflexivity).
  exact (conj H (@buy_and_hold_never_trades refHost s 16 H)).
Defined.

(** * Further properties of the engine *)

(** ** The ledger along any sequence of actions *)

Section LedgerFacts.

Context {host : Host}.

(** Everything a [step] that returns has done. *)
Lemma step_cases (s s' : SimulatorState) :
  step s = Normal s' ->
  s' = s \/
  exists next d,
    at_ (candles s) (currentIndex s + 1) = Some next /\
    nextDecision s = Normal d /\
    candles s' = candles s /\ rsiSeries s' = rsiSeries s /\
    strategyName s' = strategyName s /\
    isPlaying s' = isPlaying s /\ speedMs s' = speedMs s /\
    currentIndex s' = (currentIndex s + 1)%Z /\
    portfolioValue s' = (cash s' + shares s' * close next)%num /\
    equitySeries s' =
      (equitySeries s ++ [mkEquityPoint (timestamp next) (portfolioValue s')])%list /\
    ((trades s' = trades s /\ cash s' = cash s /\ shares s' = shares s)
     \/ (action d = BUY /\
         (cash s >=? close next)%num = true /\
         (Math_floor (cash s / close next) >? ofZ 0)%num = true /\
         trades s' =
           (trades s ++ [mkTrade (currentIndex s + 1) TBUY (close next)
                           (d_reason d)])%list /\
         cash s' = (cash s - Math_floor (cash s / close next) * close next)%num /\
         shares s' = (shares s + Math_floor (cash s / close next))%num)
     \/ (action d = SELL /\
         (shares s >? ofZ 0)%num = true /\
         trades s' =
           (trades s ++ [mkTrade (currentIndex s + 1) TSELL (close next)
                           (d_reason d)])%list /\
         cash s' = (cash s + shares s * close next)%num /\
         shares s' = ofZ 0)).
Proof.
  unfold step. fold (nextDecision s).
  destruct (currentIndex s >=? _)%Z.
  { intros [= <-]. left. reflexivity. }
  destruct (nextDecision s) as [d|] eqn:Hd; [|discriminate]. cbn [bind].
  destruct (at_ (candles s) (currentIndex s + 1)) as [next|] eqn:Hn;
    [|discriminate].
  intros H. right. exists next, d.
  destruct (action d) eqn:Ha.
  - destruct (cash s >=? close next)%num eqn:Hge;
      [destruct (Math_floor (cash s / close next) >? ofZ 0)%num eqn:Hq|];
      injection H as <-; cbn; repeat split; auto.
    right; left. repeat split; auto.
  - destruct (shares s >? ofZ 0)%num eqn:Hpos;
      injection H as <-; cbn; repeat split; auto.
    right; right. repeat split; auto.
  - injection H as <-; cbn; repeat split; auto.
Qed.

Lemma reset_returns (s : SimulatorState) : exists s', reset s = Normal s'.
Proof.
  unfold reset. destruct (candles s) as [|c0 rest] eqn:Hcs; cbn [List.length bind].
  - eauto.
  - destruct (warmupStart_in_range (cs := c0 :: rest)) as [c Hc]; [discriminate|].
    rewrite Hc. cbn [bind]. eauto.
Qed.

(** [setStrategyName] is a [reset] of the store with the new name. *)
Lemma dispatch_setStrategyName (n : StrategyName) (s : SimulatorState) :
  exists t, dispatch (setStrategyName n) s = dispatch reset t /\
            candles t = candles s /\ rsiSeries t = rsiSeries s /\
            strategyName t = n.
Proof.
  unfold dispatch at 1, setStrategyName.
  match goal with |- context [reset ?t] => set (u := t) end.
  exists u. destruct (reset_returns u) as [u' Hu].
  unfold dispatch. rewrite Hu. repeat split.
Qed.

(** A property that holds after every [reset] and is kept by [step]
    holds after any sequence of actions that follows a [reset]. *)
Lemma performAll_invariant (P : SimulatorState -> Prop) :
  (forall t, P (dispatch reset t)) ->
  (forall t, P t -> P (dispatch step t)) ->
  forall acts s, P s -> P (performAll acts s).
Proof.
  intros Hreset Hstep acts. unfold performAll.
  induction acts as [|a acts IH]; intros s Hs; cbn [fold_left]; [exact Hs|].
  apply IH. destruct a; cbn [perform].
  - apply Hstep, Hs.
  - apply Hreset.
  - destruct (dispatch_setStrategyName n s) as (t & -> & _). apply Hreset.
Qed.

Lemma StronglySorted_snoc (xs : list Z) (x : Z) :
  StronglySorted Z.lt xs -> Forall (fun y => (y < x)%Z) xs ->
  StronglySorted Z.lt (xs ++ [x]).
Proof.
  induction 1 as [|y ys Hs IH Hy]; intros Hx; cbn.
  - constructor; constructor.
  - inversion Hx; subst. constructor; [apply IH; assumption|].
    apply Forall_app. split; [exact Hy|]. constructor; [assumption|constructor].
Qed.

Lemma logOrdered_step (s : SimulatorState) :
  logOrdered s -> logOrdered (dispatch step s).
Proof.
  intros (Hstart & Hsorted & Hbounds & Hclose). unfold dispatch.
  destruct (step s) as [s'|] eqn:E; [|repeat split; assumption].
  destruct (step_cases s E)
    as [->|(next & d & Hn & _ & Hc & _ & _ & _ & _ & Hi & _ & _ & Ht)];
    [repeat split; assumption|].
  unfold logOrdered. rewrite Hc, Hi.
  assert (Hkeep : Forall (fun t => (warmupStart (candles s) < index t
                                     <= currentIndex s + 1)%Z) (trades s)).
  { eapply Forall_impl; [|exact Hbounds]. cbn. intros t Ht'. lia. }
  assert (Hnew : forall ty why,
             let t := mkTrade (currentIndex s + 1) ty (close next) why in
             StronglySorted Z.lt (map index (trades s ++ [t])) /\
             Forall (fun t => (warmupStart (candles s) < index t
                               <= currentIndex s + 1)%Z) (trades s ++ [t]) /\
             Forall (tradeAtClose (candles s)) (trades s ++ [t])).
  { intros ty why t. split; [|split].
    - rewrite map_app. apply StronglySorted_snoc; [exact Hsorted|].
      apply Forall_map. eapply Forall_impl; [|exact Hbounds].
      cbn. intros u Hu. lia.
    - apply Forall_app. split; [exact Hkeep|].
      constructor; [cbn; lia|constructor].
    - apply Forall_app. split; [exact Hclose|].
      constructor; [|constructor]. exists next. split; [exact Hn|reflexivity]. }
  split; [lia|].
  destruct Ht as [(-> & _)|[(_ & _ & _ & -> & _)|(_ & _ & -> & _)]].
  - repeat split; assumption.
  - apply Hnew.
  - apply Hnew.
Qed.

Lemma logOrdered_reset (s : SimulatorState) : logOrdered (dispatch reset s).
Proof.
  destruct (dispatch_reset s) as (Hc & _ & _ & Ht & _ & _ & Hi & _).
  unfold logOrdered. rewrite Hc, Ht, Hi. cbn.
  repeat split; [lia|constructor|constructor|constructor].
Qed.

(** After a [reset] (or a load) and any sequence of steps, resets and
    changes of strategy, the trade log is strictly increasing in index,
    its indices lie after the warm-up start and not after the current
    index, and every trade records the close of the candle at its
    index. *)
Theorem trade_log_ordered (acts : list StoreAction) (s : SimulatorState)
  (now : string) (raw : list Candle) :
  logOrdered (performAll acts (dispatch reset s)) /\
  logOrdered (performAll acts (loadCandles now raw s)).
Proof.
  split; apply performAll_invariant;
    auto using logOrdered_reset, logOrdered_step.
  unfold logOrdered, loadCandles; cbn.
  repeat split; [lia|constructor|constructor|constructor].
Qed.

(** *** No short selling *)

Lemma holdingAfter_snoc (holding : bool) (log : list Trade) (t : Trade) :
  holdingAfter holding (log ++ [t]) =
  match type t with TBUY => true | TSELL => false end.
Proof.
  revert holding. induction log as [|u rest IH]; intros holding; cbn; auto.
Qed.

Lemma sellsFollowBuys_snoc (holding : bool) (log : list Trade) (t : Trade) :
  sellsFollowBuys holding (log ++ [t]) =
  sellsFollowBuys holding log
  && match type t with TBUY => true | TSELL => holdingAfter holding log end.
Proof.
  revert holding. induction log as [|u rest IH]; intros holding; cbn.
  - destruct (type t); cbn; rewrite ?andb_true_r; reflexivity.
  - destruct (type u); rewrite IH; [reflexivity|].
    rewrite andb_assoc. reflexivity.
Qed.

Lemma neverShort_step (s : SimulatorState) :
  neverShort s -> neverShort (dispatch step s).
Proof.
  intros (Hok & Hflat). unfold dispatch.
  destruct (step s) as [s'|] eqn:E; [|split; assumption].
  destruct (step_cases s E)
    as [->|(next & d & _ & _ & _ & _ & _ & _ & _ & _ & _ & _ & Ht)];
    [split; assumption|].
  unfold neverShort.
  destruct Ht as [(-> & _ & ->)
                 |[(_ & _ & _ & -> & _ & _)|(_ & Hpos & -> & _ & ->)]].
  - split; assumption.
  - rewrite sellsFollowBuys_snoc, holdingAfter_snoc, Hok. cbn.
    split; [reflexivity|discriminate].
  - rewrite sellsFollowBuys_snoc, holdingAfter_snoc, Hok. cbn.
    split; [|reflexivity].
    destruct (holdingAfter false (trades s)); [reflexivity|].
    rewrite Hflat in Hpos by reflexivity. discriminate.
Qed.

Lemma neverShort_reset (s : SimulatorState) : neverShort (dispatch reset s).
Proof.
  destruct (dispatch_reset s) as (_ & _ & _ & Ht & _ & Hs & _).
  unfold neverShort. rewrite Ht, Hs. split; reflexivity.
Qed.

(** After a [reset] (or a load) and any sequence of actions, no SELL of
    the trade log comes first or directly after another SELL, and the
    store holds no share whenever the log is empty or ends with a SELL:
    the ledger never sells what it does not hold. *)
Theorem ledger_never_sells_short (acts : list StoreAction) (s : SimulatorState)
  (now : string) (raw : list Candle) :
  neverShort (performAll acts (dispatch reset s)) /\
  neverShort (performAll acts (loadCandles now raw s)).
Proof.
  split; apply performAll_invariant;
    auto using neverShort_reset, neverShort_step.
  unfold neverShort, loadCandles; cbn. split; reflexivity.
Qed.

(** *** The equity curve *)

Lemma firstn_snoc {A : Type} (xs : list A) (n : nat) (x : A) :
  nth_error xs n = Some x -> firstn (S n) xs = (firstn n xs ++ [x])%list.
Proof.
  revert xs. induction n as [|n IH]; intros xs H;
    destruct xs as [|y rest]; try discriminate H.
  - injection H as ->. reflexivity.
  - cbn [nth_error] in H.
    change (firstn (S (S n)) (y :: rest)) with (y :: firstn (S n) rest).
    rewrite (IH rest H). reflexivity.
Qed.

Lemma slice_snoc {A : Type} (xs : list A) (a b : Z) (x : A) :
  (0 <= a <= b)%Z -> at_ xs b = Some x ->
  slice xs a (b + 1) = (slice xs a b ++ [x])%list.
Proof.
  intros Hab Hx. unfold slice.
  replace (Z.to_nat (b + 1 - a)) with (S (Z.to_nat (b - a))) by lia.
  apply firstn_snoc. rewrite nth_error_skipn.
  replace (Z.to_nat a + Z.to_nat (b - a))%nat with (Z.to_nat b) by lia.
  unfold at_ in Hx. destruct (b <? 0)%Z; [discriminate|exact Hx].
Qed.

Lemma slice_single {A : Type} (xs : list A) (a : Z) (x : A) :
  (0 <= a)%Z -> at_ xs a = Some x -> slice xs a (a + 1) = [x].
Proof.
  intros Ha Hx. rewrite (slice_snoc xs (a := a) (b := a) ltac:(lia) Hx).
  unfold slice. rewrite Z.sub_diag. reflexivity.
Qed.

Lemma last_snoc {A : Type} (xs : list A) (x d : A) :
  last (xs ++ [x]) d = x.
Proof.
  induction xs as [|y rest IH]; [reflexivity|].
  cbn [app]. destruct (rest ++ [x])%list eqn:E.
  - destruct rest; discriminate.
  - cbn [last]. exact IH.
Qed.

Lemma equityAligned_step (s : SimulatorState) :
  (warmupStart (candles s) <= currentIndex s)%Z ->
  equityAligned s -> equityAligned (dispatch step s).
Proof.
  intros Hstart (Hts & Hlast). unfold dispatch.
  destruct (step s) as [s'|] eqn:E; [|split; assumption].
  destruct (step_cases s E)
    as [->|(next & d & Hn & _ & Hc & _ & _ & _ & _ & Hi & _ & He & _)];
    [split; assumption|].
  unfold equityAligned. rewrite Hc, Hi, He.
  pose proof (warmupStart_nonneg (candles s)) as H0.
  rewrite (slice_snoc (candles s) (a := warmupStart (candles s))
             (b := (currentIndex s + 1)%Z) ltac:(lia) Hn).
  rewrite !map_app, Hts. cbn [map ep_timestamp ep_value].
  split; [reflexivity|apply last_snoc].
Qed.

Lemma equityAligned_reset (s : SimulatorState) :
  equityAligned (dispatch reset s).
Proof.
  destruct (dispatch_reset s)
    as (Hc & _ & _ & _ & _ & _ & Hi & _ & Hp & He).
  unfold equityAligned. rewrite Hc, Hi, He, Hp.
  pose proof (warmupStart_nonneg (candles s)) as H0.
  destruct (at_ (candles s) (warmupStart (candles s))) as [c|] eqn:Hat.
  - rewrite (slice_single (candles s) H0 Hat). split; reflexivity.
  - split; [|reflexivity]. cbn [map].
    destruct (candles s) as [|c0 rest] eqn:Hcs; [reflexivity|].
    destruct (warmupStart_in_range (cs := c0 :: rest)) as [c Hc']; [discriminate|].
    congruence.
Qed.

Lemma length_indices (n : nat) : List.length (indices n) = n.
Proof. unfold indices. rewrite length_map, length_seq. reflexivity. Qed.

Lemma decorate_length (raw : list Candle) :
  List.length (decorate raw) = List.length raw.
Proof.
  unfold decorate. rewrite length_map, length_combine, length_indices.
  apply Nat.min_id.
Qed.

Lemma loadCandles_start (now : string) (raw : list Candle) (s : SimulatorState) :
  raw <> [] ->
  exists c, at_ (candles (loadCandles now raw s))
              (currentIndex (loadCandles now raw s)) = Some c /\
            equitySeries (loadCandles now raw s)
              = [mkEquityPoint (timestamp c) INITIAL_CAPITAL].
Proof.
  intros Hraw. cbn [loadCandles candles currentIndex equitySeries].
  destruct (warmupStart_in_range (cs := decorate raw)) as [c Hc].
  - intros E. apply (f_equal (@List.length Candle)) in E.
    rewrite decorate_length in E. destruct raw; [contradiction|discriminate].
  - exists c. rewrite Hc. split; reflexivity.
Qed.

(** After a [reset] and any sequence of actions the equity curve has
    exactly one point for every candle from the warm-up start to the
    current index, in order and with that candle's timestamp, and its
    last value is the stored portfolio value; the same holds after a
    load of at least one candle. *)
Theorem equity_curve_follows_candles (acts : list StoreAction)
  (s : SimulatorState) (now : string) (raw : list Candle) :
  equityAligned (performAll acts (dispatch reset s)) /\
  (raw <> [] -> equityAligned (performAll acts (loadCandles now raw s))).
Proof.
  assert (Hinv : forall t,
             logOrdered t /\ equityAligned t ->
             logOrdered (performAll acts t) /\ equityAligned (performAll acts t)).
  { intros t Ht.
    apply (performAll_invariant (fun u => logOrdered u /\ equityAligned u));
      [| |exact Ht].
    - intros u. split; [apply logOrdered_reset|apply equityAligned_reset].
    - intros u [Hl He]. split; [apply logOrdered_step, Hl|].
      apply equityAligned_step; [apply Hl|exact He]. }
  split.
  - apply Hinv. split; [apply logOrdered_reset|apply equityAligned_reset].
  - intros Hraw. apply Hinv. split.
    + unfold logOrdered, loadCandles; cbn.
      repeat split; [lia|constructor|constructor|constructor].
    + destruct (loadCandles_start now s Hraw) as (c & Hc & He).
      unfold equityAligned. rewrite He.
      assert (Hi : currentIndex (loadCandles now raw s)
                   = warmupStart (candles (loadCandles now raw s)))
        by reflexivity.
      rewrite Hi in Hc |- *.
      rewrite (slice_single _ (warmupStart_nonneg _) Hc).
      split; reflexivity.
Qed.

(** *** No exception after a load *)

(** As [performAll_invariant], for a property that a [reset] keeps on
    the same series. *)
Lemma performAll_invariant_on_series (P : SimulatorState -> Prop) :
  (forall t u, candles u = candles t -> rsiSeries u = rsiSeries t ->
               P t -> P (dispatch reset u)) ->
  (forall t, P t -> P (dispatch step t)) ->
  forall acts s, P s -> P (performAll acts s).
Proof.
  intros Hreset Hstep acts. unfold performAll.
  induction acts as [|a acts IH]; intros s Hs; cbn [fold_left]; [exact Hs|].
  apply IH. destruct a; cbn [perform].
  - apply Hstep, Hs.
  - apply (Hreset s s); auto.
  - destruct (dispatch_setStrategyName n s) as (t & -> & Hc & Hr & _).
    apply (Hreset s t); auto.
Qed.

Lemma seriesAligned_step (s : SimulatorState) :
  seriesAligned s -> seriesAligned (dispatch step s).
Proof.
  intros (Hlen & Hidx). unfold dispatch.
  destruct (step s) as [s'|] eqn:E; [|split; assumption].
  destruct (step_frame s E) as (Hc & Hr & _ & Hi).
  unfold seriesAligned. rewrite Hc, Hr, Hi.
  split; [exact Hlen|]. destruct (_ >=? _)%Z; lia.
Qed.

Lemma seriesAligned_load (now : string) (raw : list Candle) (s : SimulatorState) :
  seriesAligned (loadCandles now raw s).
Proof.
  unfold seriesAligned. cbn [loadCandles rsiSeries candles currentIndex].
  split; [|apply warmupStart_nonneg].
  rewrite length_map, length_combine, length_indices. apply Nat.min_id.
Qed.

(** After a load and any sequence of steps, resets and changes of
    strategy, the RSI series still has one point for every candle and
    [step] returns: on a loaded store no [step] throws, under any
    strategy. *)
Theorem step_never_throws_after_load (acts : list StoreAction)
  (now : string) (raw : list Candle) (s : SimulatorState) :
  let t := performAll acts (loadCandles now raw s) in
  List.length (rsiSeries t) = List.length (candles t) /\
  exists t', step t = Normal t'.
Proof.
  intros t.
  assert (Ht : seriesAligned t).
  { apply performAll_invariant_on_series; [| |apply seriesAligned_load].
    - intros u v Hc Hr (Hlen & _).
      destruct (dispatch_reset v) as (Hc' & Hr' & _ & _ & _ & _ & Hi & _).
      unfold seriesAligned. rewrite Hc', Hr', Hi, Hc, Hr.
      split; [exact Hlen|]. rewrite <- Hc. apply warmupStart_nonneg.
    - apply seriesAligned_step. }
  destruct Ht as (Hlen & Hidx). split; [exact Hlen|].
  apply step_returns; [exact Hlen|lia].
Qed.

End LedgerFacts.

(** ** The indicator pipeline *)

Section PipelineFacts.

Context {host : Host}.

Lemma smaLoop_length (values : list number) (window : Z) (rest : list number) :
  forall i sum, List.length (smaLoop values window i rest sum) = List.length rest.
Proof.
  induction rest as [|v rest IH]; intros i sum; cbn; [reflexivity|].
  rewrite IH. reflexivity.
Qed.

Lemma emaLoop_length (window : Z) (multiplier : number) (rest : list number) :
  forall i sum prev,
    List.length (emaLoop window multiplier i rest sum prev) = List.length rest.
Proof.
  induction rest as [|v rest IH]; intros i sum prev; cbn; [reflexivity|].
  destruct (i <? window)%Z; cbn; rewrite IH; reflexivity.
Qed.

Lemma rsiLoop_length (window : Z) (rest : list number) :
  forall i before gain loss,
    List.length (rsiLoop window i before rest gain loss) = List.length rest.
Proof.
  induction rest as [|c rest IH]; intros i before gain loss; cbn; [reflexivity|].
  destruct (i <=? window)%Z; [destruct (i =? window)%Z|]; cbn; rewrite IH;
    reflexivity.
Qed.

Lemma expand_length (mask series : list (option number)) :
  List.length (expand mask series) = List.length mask.
Proof.
  revert series. induction mask as [|[m|] mask IH]; intros series; cbn;
    [reflexivity| |rewrite IH; reflexivity].
  destruct series; cbn; rewrite IH; reflexivity.
Qed.

Lemma computeSMA_length (values : list number) (window : Z) :
  List.length (computeSMA values window) = List.length values.
Proof. apply smaLoop_length. Qed.

Lemma computeEMA_length (values : list number) (window : Z) :
  List.length (computeEMA values window) = List.length values.
Proof. apply emaLoop_length. Qed.

(** Every indicator function returns series as long as its input,
    whatever the periods and the values. *)
Theorem indicators_keep_length (values highs lows : list number)
  (w fast slow signal kPeriod dPeriod : Z) (k : number) :
  let n := List.length values in
  List.length (computeSMA values w) = n /\
  List.length (computeEMA values w) = n /\
  List.length (computeRSI values w) = n /\
  (let m := computeMACD values fast slow signal in
   List.length (macd_macdLine m) = n /\ List.length (macd_signal m) = n /\
   List.length (macd_histogram m) = n) /\
  (let b := computeBollingerBands values w k in
   List.length (bb_upper b) = n /\ List.length (bb_middle b) = n /\
   List.length (bb_lower b) = n) /\
  (let st := computeStochastic highs lows values kPeriod dPeriod in
   List.length (st_stochK st) = n /\ List.length (st_stochD st) = n).
Proof.
  intros n. subst n.
  split; [apply computeSMA_length|].
  split; [apply computeEMA_length|].
  split.
  { unfold computeRSI. destruct values as [|c rest]; [reflexivity|].
    cbn [List.length]. rewrite rsiLoop_length. reflexivity. }
  split.
  { cbn [computeMACD macd_macdLine macd_signal macd_histogram].
    rewrite expand_length, !length_map, !length_indices. auto. }
  split.
  { cbn [computeBollingerBands bb_upper bb_middle bb_lower].
    rewrite !length_map, !length_indices, computeSMA_length. auto. }
  cbn [computeStochastic st_stochK st_stochD].
  rewrite expand_length, !length_map, !length_indices. auto.
Qed.

Lemma smaLoop_defined (values : list number) (window : Z) (rest : list number) :
  forall i sum j, (j < List.length rest)%nat ->
    exists o, nth_error (smaLoop values window i rest sum) j = Some o /\
              isDefined o = (i + Z.of_nat j >=? window - 1)%Z.
Proof.
  induction rest as [|v rest IH]; intros i sum j Hj; cbn in Hj; [lia|].
  destruct j as [|j]; cbn [smaLoop nth_error].
  - eexists; split; [reflexivity|]. rewrite Z.add_0_r.
    destruct (i >=? window - 1)%Z; reflexivity.
  - destruct (IH (i + 1)%Z
                (if (i >=? window)%Z
                 then (sum + v - toNumber (at_ values (i - window)))%num
                 else (sum + v)%num) j ltac:(lia)) as (o & Ho & Hd).
    exists o. split; [exact Ho|]. rewrite Hd. f_equal. lia.
Qed.

Lemma emaLoop_defined (window : Z) (multiplier : number) (rest : list number) :
  forall i sum prev j, (j < List.length rest)%nat ->
    exists o, nth_error (emaLoop window multiplier i rest sum prev) j = Some o /\
              isDefined o = (i + Z.of_nat j >=? window - 1)%Z.
Proof.
  induction rest as [|v rest IH]; intros i sum prev j Hj; cbn in Hj; [lia|].
  destruct j as [|j]; cbn [emaLoop].
  - rewrite Z.add_0_r. destruct (i <? window)%Z eqn:L; cbn [nth_error].
    + eexists; split; [reflexivity|]. apply Z.ltb_lt in L.
      destruct (i =? window - 1)%Z eqn:E; cbn.
      * apply Z.eqb_eq in E. symmetry. rewrite Z.geb_leb. apply Z.leb_le. lia.
      * apply Z.eqb_neq in E. symmetry. rewrite Z.geb_leb. apply Z.leb_gt. lia.
    + eexists; split; [reflexivity|]. apply Z.ltb_ge in L. cbn.
      symmetry. rewrite Z.geb_leb. apply Z.leb_le. lia.
  - destruct (i <? window)%Z; cbn [nth_error];
      match goal with
      | |- context [emaLoop _ _ _ rest ?s ?p] =>
        destruct (IH (i + 1)%Z s p j ltac:(lia)) as (o & Ho & Hd)
      end;
      exists o; (split; [exact Ho|]); rewrite Hd; f_equal; lia.
Qed.

Lemma element_outside (xs : list (option number)) (i : Z) :
  ((0 <=? i)%Z && (i <? Z.of_nat (List.length xs))%Z) = false ->
  element xs i = None.
Proof.
  intros H. unfold element, at_.
  destruct (i <? 0)%Z eqn:L; [reflexivity|].
  apply Z.ltb_ge in L.
  replace (0 <=? i)%Z with true in H by (symmetry; apply Z.leb_le; lia).
  cbn in H. apply Z.ltb_ge in H.
  destruct (nth_error xs (Z.to_nat i)) eqn:N; [|reflexivity].
  assert (nth_error xs (Z.to_nat i) <> None) by congruence.
  apply nth_error_Some in H0. lia.
Qed.

Lemma element_inside (xs : list (option number)) (i : Z) :
  ((0 <=? i)%Z && (i <? Z.of_nat (List.length xs))%Z) = true ->
  at_ xs i = nth_error xs (Z.to_nat i) /\ (Z.to_nat i < List.length xs)%nat /\
  (0 <= i)%Z.
Proof.
  intros H. apply andb_prop in H. destruct H as [H0 H1].
  apply Z.leb_le in H0. apply Z.ltb_lt in H1.
  unfold at_. destruct (i <? 0)%Z eqn:L; [apply Z.ltb_lt in L; lia|].
  repeat split; lia.
Qed.

(** [computeSMA] and [computeEMA] are defined exactly at the indices of
    the input from [window - 1] on: nowhere when the series is shorter
    than the window.  For [computeEMA] this is said of the indices from
    0 on and of every index when the window is not negative: a negative
    window writes below index 0. *)
Theorem moving_averages_defined_from_window (values : list number)
  (window i : Z) :
  let inside := ((0 <=? i)%Z && (i <? Z.of_nat (List.length values))%Z) in
  isDefined (element (computeSMA values window) i)
    = inside && (i >=? window - 1)%Z /\
  ((0 <= window \/ 0 <= i)%Z ->
   isDefined (element (computeEMA values window) i)
     = inside && (i >=? window - 1)%Z).
Proof.
  intros inside. subst inside.
  destruct ((0 <=? i)%Z && (i <? Z.of_nat (List.length values))%Z) eqn:H.
  - split; [|intros _].
    + pose proof H as H'. rewrite <- (computeSMA_length values window) in H'.
      destruct (element_inside _ _ H') as (Hat & Hlt & H0).
      rewrite computeSMA_length in Hlt.
      destruct (smaLoop_defined values window values 0 (ofZ 0) Hlt)
        as (o & Ho & Hd).
      unfold element. rewrite Hat. unfold computeSMA. rewrite Ho.
      cbn [chain andb]. unfold id. rewrite Hd. f_equal. lia.
    + pose proof H as H'. rewrite <- (computeEMA_length values window) in H'.
      destruct (element_inside _ _ H') as (Hat & Hlt & H0).
      rewrite computeEMA_length in Hlt.
      destruct (emaLoop_defined window (ofZ 2 / (ofZ window + ofZ 1))%num
                  values 0 (ofZ 0) None Hlt) as (o & Ho & Hd).
      unfold element. rewrite Hat. unfold computeEMA. rewrite Ho.
      cbn [chain andb]. unfold id. rewrite Hd. f_equal. lia.
  - split; [|intros _]; rewrite element_outside; auto;
      rewrite ?computeSMA_length, ?computeEMA_length; exact H.
Qed.

(** *** The simple moving average is the mean of the window *)

Lemma ofZ_div (s : Q) (w : Z) :
  (1 <= w)%Z -> (Fin s / ofZ w)%num = Fin (s / inject_Z w).
Proof.
  intros Hw. unfold num_div, ofZ.
  destruct (Qeq_bool (inject_Z w) 0) eqn:E; [|reflexivity].
  apply Qeq_bool_iff in E. unfold Qeq in E. cbn in E. lia.
Qed.

(** *** A [NaN] stays in the running sum *)

Lemma smaLoop_after_NaN (values : list number) (w : Z) (rest : list number) :
  forall i j, (j < List.length rest)%nat ->
    nth_error (smaLoop values w i rest NaN) j
    = Some (if (i + Z.of_nat j >=? w - 1)%Z then Some NaN else None).
Proof.
  induction rest as [|v rest IH]; intros i j Hj; cbn in Hj; [lia|].
  cbn [smaLoop]. change (NaN + v)%num with NaN.
  replace (if (i >=? w)%Z
           then (NaN - toNumber (at_ values (i - w)))%num else NaN)
    with NaN by (destruct (i >=? w)%Z; reflexivity).
  destruct j as [|j]; cbn [nth_error].
  - rewrite Z.add_0_r. reflexivity.
  - rewrite IH by lia.
    replace (i + 1 + Z.of_nat j)%Z with (i + Z.of_nat (S j))%Z by lia.
    reflexivity.
Qed.

Lemma num_add_NaN_r (x : number) : (x + NaN)%num = NaN.
Proof. destruct x; reflexivity. Qed.

Lemma smaLoop_from_NaN (values : list number) (w : Z) (rest : list number) :
  forall i sum k j, nth_error rest k = Some NaN ->
    (k <= j < List.length rest)%nat ->
    nth_error (smaLoop values w i rest sum) j
    = Some (if (i + Z.of_nat j >=? w - 1)%Z then Some NaN else None).
Proof.
  induction rest as [|v rest IH]; intros i sum k j Hk Hj; cbn in Hj; [lia|].
  destruct k as [|k].
  - injection Hk as ->. cbn [smaLoop]. rewrite num_add_NaN_r.
    replace (if (i >=? w)%Z
             then (NaN - toNumber (at_ values (i - w)))%num else NaN)
      with NaN by (destruct (i >=? w)%Z; reflexivity).
    destruct j as [|j]; cbn [nth_error].
    + rewrite Z.add_0_r. reflexivity.
    + rewrite smaLoop_after_NaN by lia.
      replace (i + 1 + Z.of_nat j)%Z with (i + Z.of_nat (S j))%Z by lia.
      reflexivity.
  - destruct j as [|j]; [lia|]. cbn [smaLoop nth_error].
    cbn [nth_error] in Hk. rewrite (IH _ _ k j Hk) by lia.
    replace (i + 1 + Z.of_nat j)%Z with (i + Z.of_nat (S j))%Z by lia.
    reflexivity.
Qed.

(** A [NaN] among the values makes every later value of [computeSMA]
    [NaN], also at the indices whose window no longer holds it: the
    running sum never recovers. *)
Theorem computeSMA_never_recovers_from_NaN (values : list number)
  (w k i : Z) :
  at_ values k = Some NaN ->
  (k <= i < Z.of_nat (List.length values))%Z -> (w - 1 <= i)%Z ->
  element (computeSMA values w) i = Some NaN.
Proof.
  intros Hk Hi Hw.
  pose proof (at_Some_range _ _ Hk) as Hkr.
  unfold at_ in Hk. destruct (k <? 0)%Z; [discriminate|].
  unfold element, at_, computeSMA.
  destruct (i <? 0)%Z eqn:L; [apply Z.ltb_lt in L; lia|].
  rewrite (smaLoop_from_NaN values w values 0 (ofZ 0)
             (k := Z.to_nat k) (j := Z.to_nat i) Hk) by lia.
  replace (0 + Z.of_nat (Z.to_nat i) >=? w - 1)%Z with true
    by (symmetry; rewrite Z.geb_leb; apply Z.leb_le; lia).
  reflexivity.
Qed.

(** *** The relative strength index *)

Lemma Fin_div (a b : Q) : ~ b == 0 -> (Fin a / Fin b)%num = Fin (a / b).
Proof.
  intros Hb. unfold num_div.
  destruct (Qeq_bool b 0) eqn:E; [|reflexivity].
  apply Qeq_bool_iff in E. contradiction.
Qed.

Lemma rsiValue_finite (g l : Q) :
  0 <= g -> 0 <= l ->
  exists r, rsiValue (Fin g) (Fin l) = Fin r /\ 0 <= r /\ r <= 100 /\
            (l == 0 -> r == 100) /\ (g == 0 -> ~ l == 0 -> r == 0).
Proof.
  intros Hg Hl. unfold rsiValue, num_eqb, ofZ.
  destruct (Qeq_bool l (inject_Z 0)) eqn:E.
  - apply Qeq_bool_iff in E. change (inject_Z 0) with 0 in E.
    cbn. eexists; split; [reflexivity|].
    change (inject_Z 100) with 100.
    split; [lra|]. split; [lra|]. split; [intros _; lra|].
    intros _ Hn. contradiction.
  - apply Qeq_bool_neq in E. change (inject_Z 0) with 0 in E.
    rewrite (Fin_div g E). unfold num_add.
    assert (Hr : 0 <= g / l) by (apply Qle_shift_div_l; lra).
    assert (Hd : ~ inject_Z 1 + g / l == 0)
      by (change (inject_Z 1) with 1; lra).
    rewrite (Fin_div _ Hd).
    unfold num_sub. eexists; split; [reflexivity|].
    change (inject_Z 100) with 100. change (inject_Z 1) with 1.
    assert (Hq : 0 <= 100 / (1 + g / l)) by (apply Qle_shift_div_l; lra).
    assert (Hq' : 100 / (1 + g / l) <= 100)
      by (apply Qle_shift_div_r; lra).
    split; [lra|]. split; [lra|]. split; [intros F; contradiction|].
    intros G0 _. setoid_replace (g / l) with 0 by (rewrite G0; field; exact E).
    field_simplify. reflexivity.
Qed.

Lemma max2_zero (x : Q) :
  exists u, max2 (Fin x) (ofZ 0) = Fin u /\ 0 <= u /\
            (x <= 0 -> u == 0) /\ (0 <= x -> u == x).
Proof.
  unfold max2, num_leb, ofZ. change (inject_Z 0) with 0.
  destruct (Qle_bool x 0) eqn:E.
  - apply Qle_bool_iff in E. exists 0.
    split; [reflexivity|]. split; [lra|]. split; intros H; lra.
  - assert (0 < x).
    { apply Qnot_le_lt. intros H. apply Qle_bool_iff in H. congruence. }
    exists x.
    split; [reflexivity|]. split; [lra|]. split; intros H'; lra.
Qed.

(** One turn of the loop of [computeRSI] on finite values. *)
Lemma rsiLoop_cons_finite (w : Z) (Hw : (1 <= w)%Z) (i : Z) (b c g l : Q)
  (rest : list number) :
  0 <= g -> 0 <= l ->
  exists u d G L out0,
    rsiLoop w i (Fin b) (Fin c :: rest) (Fin g) (Fin l)
      = out0 :: rsiLoop w (i + 1) (Fin c) rest (Fin G) (Fin L) /\
    0 <= u /\ 0 <= d /\ 0 <= G /\ 0 <= L /\
    (b <= c -> d == 0) /\ (c < b -> u == 0 /\ 0 < d) /\
    (((i < w)%Z /\ out0 = ofZ 50 /\ G == g + u /\ L == l + d)
     \/ ((w <= i)%Z /\ out0 = rsiValue (Fin G) (Fin L) /\
         ((i = w /\ G == (g + u) / inject_Z w /\ L == (l + d) / inject_Z w)
          \/ ((w < i)%Z /\
              G == (g * (inject_Z w - 1) + u) / inject_Z w /\
              L == (l * (inject_Z w - 1) + d) / inject_Z w)))).
Proof.
  intros Hg Hl.
  destruct (max2_zero (c - b)) as (u & Hu & Hu0 & Hu1 & Hu2).
  destruct (max2_zero (- (c - b))) as (d & Hd & Hd0 & Hd1 & Hd2).
  assert (Hw0 : 0 < inject_Z w).
  { change 0 with (inject_Z 0). rewrite <- Zlt_Qlt. lia. }
  assert (Hw1 : 0 <= inject_Z w - 1).
  { change 1 with (inject_Z 1). unfold Qminus. rewrite <- inject_Z_opp,
      <- inject_Z_plus. change 0 with (inject_Z 0). rewrite <- Zle_Qle. lia. }
  cbn [rsiLoop]. change (Fin c - Fin b)%num with (Fin (c - b)).
  change (num_neg (Fin (c - b))) with (Fin (- (c - b))).
  rewrite Hu, Hd.
  change (Fin g + Fin u)%num with (Fin (g + u)).
  change (Fin l + Fin d)%num with (Fin (l + d)).
  change (Fin g * (ofZ w - ofZ 1) + Fin u)%num
    with (Fin (g * (inject_Z w - inject_Z 1) + u)).
  change (Fin l * (ofZ w - ofZ 1) + Fin d)%num
    with (Fin (l * (inject_Z w - inject_Z 1) + d)).
  rewrite !(ofZ_div _ Hw).
  assert (Hfall : c < b -> u == 0 /\ 0 < d).
  { intros H. split; [apply Hu1; lra|]. rewrite Hd2 by lra. lra. }
  assert (Hrise : b <= c -> d == 0) by (intros H; apply Hd1; lra).
  destruct (i <=? w)%Z eqn:Le; [destruct (i =? w)%Z eqn:Eq|].
  - apply Z.eqb_eq in Eq.
    exists u, d, ((g + u) / inject_Z w), ((l + d) / inject_Z w).
    eexists. split; [reflexivity|].
    split; [exact Hu0|]. split; [exact Hd0|].
    split; [apply Qle_shift_div_l; [exact Hw0|lra]|].
    split; [apply Qle_shift_div_l; [exact Hw0|lra]|].
    split; [exact Hrise|]. split; [exact Hfall|].
    right. split; [lia|]. split; [reflexivity|]. left.
    split; [exact Eq|]. split; reflexivity.
  - apply Z.eqb_neq in Eq. apply Z.leb_le in Le.
    exists u, d, (g + u), (l + d). eexists. split; [reflexivity|].
    split; [exact Hu0|]. split; [exact Hd0|].
    split; [lra|]. split; [lra|].
    split; [exact Hrise|]. split; [exact Hfall|].
    left. split; [lia|]. split; [reflexivity|]. split; reflexivity.
  - apply Z.leb_gt in Le.
    exists u, d, ((g * (inject_Z w - inject_Z 1) + u) / inject_Z w),
      ((l * (inject_Z w - inject_Z 1) + d) / inject_Z w).
    eexists. split; [reflexivity|].
    change (inject_Z 1) with 1.
    split; [exact Hu0|]. split; [exact Hd0|].
    split; [apply Qle_shift_div_l; [exact Hw0|nra]|].
    split; [apply Qle_shift_div_l; [exact Hw0|nra]|].
    split; [exact Hrise|]. split; [exact Hfall|].
    right. split; [lia|]. split; [reflexivity|]. right.
    split; [lia|]. split; reflexivity.
Qed.

Lemma Qdiv_zero (x w : Q) : 0 < w -> x == 0 -> x / w == 0.
Proof. intros Hw Hx. rewrite Hx. field. lra. Qed.

Lemma Qdiv_pos (x w : Q) : 0 < w -> 0 < x -> 0 < x / w.
Proof. intros Hw Hx. apply Qlt_shift_div_l; lra. Qed.

Lemma rsiLoop_finite (w : Z) (Hw : (1 <= w)%Z) (rest : list Q) :
  forall (i : Z) (b g l : Q), 0 <= g -> 0 <= l ->
    let out := rsiLoop w i (Fin b) (map Fin rest) (Fin g) (Fin l) in
    Forall percent out /\
    (neverFalls b rest -> l == 0 ->
     forall j x, nth_error out j = Some x -> (w <= i + Z.of_nat j)%Z ->
                 (x === ofZ 100)%num = true) /\
    (alwaysFalls b rest -> g == 0 -> ((w < i)%Z -> 0 < l) ->
     forall j x, nth_error out j = Some x -> (w <= i + Z.of_nat j)%Z ->
                 (x === ofZ 0)%num = true).
Proof.
  assert (Hw0 : 0 < inject_Z w).
  { change 0 with (inject_Z 0). rewrite <- Zlt_Qlt. lia. }
  assert (Hw1 : 0 <= inject_Z w - 1).
  { change 1 with (inject_Z 1). unfold Qminus. rewrite <- inject_Z_opp,
      <- inject_Z_plus. change 0 with (inject_Z 0). rewrite <- Zle_Qle. lia. }
  induction rest as [|c rest IH]; intros i b g l Hg Hl out; subst out.
  { cbn. split; [constructor|]. split; intros; destruct j; discriminate. }
  cbn [map].
  destruct (rsiLoop_cons_finite Hw i b c (map Fin rest) Hg Hl)
    as (u & d & G & L & out0 & Heq & Hu & Hd & HG & HL & Hrise & Hfall & Hcase).
  rewrite Heq.
  destruct (IH (i + 1)%Z c G L HG HL) as (IH1 & IH2 & IH3).
  destruct (rsiValue_finite HG HL) as (r & Hr & Hr0 & Hr1 & Hr100 & Hr00).
  assert (Hout0 : percent out0).
  { destruct Hcase as [(_ & -> & _)|(_ & -> & _)].
    - exists (inject_Z 50). split; [reflexivity|].
      change (inject_Z 50) with 50. lra.
    - exists r. auto. }
  split; [constructor; assumption|]. split.
  - intros [Hbc Hnf] Hl0 j x Hx Hj.
    pose proof (Hrise Hbc) as Hd0.
    assert (HL0 : L == 0).
    { destruct Hcase as [(_ & _ & _ & ->)|(_ & _ & [(_ & _ & ->)|(_ & _ & ->)])].
      - lra.
      - apply Qdiv_zero; [exact Hw0|lra].
      - apply Qdiv_zero; [exact Hw0|]. rewrite Hl0, Hd0. ring. }
    destruct j as [|j]; cbn [nth_error] in Hx.
    + injection Hx as <-.
      destruct Hcase as [(Hlt & _)|(_ & -> & _)]; [lia|].
      rewrite Hr. unfold num_eqb, ofZ. apply Qeq_bool_iff.
      change (inject_Z 100) with 100. apply Hr100, HL0.
    + apply (IH2 Hnf HL0 j x Hx). lia.
  - intros [Hcb Haf] Hg0 Hpos j x Hx Hj.
    destruct (Hfall Hcb) as (Hu0 & Hd0).
    assert (HG0 : G == 0).
    { destruct Hcase as [(_ & _ & -> & _)|(_ & _ & [(_ & -> & _)|(_ & -> & _)])].
      - lra.
      - apply Qdiv_zero; [exact Hw0|lra].
      - apply Qdiv_zero; [exact Hw0|]. rewrite Hg0, Hu0. ring. }
    assert (HLpos : (w < i + 1)%Z -> 0 < L).
    { intros Hi.
      destruct Hcase as [(Hlt & _)|(_ & _ & [(_ & _ & ->)|(Hgt & _ & ->)])].
      - lia.
      - apply Qdiv_pos; [exact Hw0|lra].
      - apply Qdiv_pos; [exact Hw0|]. specialize (Hpos Hgt). nra. }
    destruct j as [|j]; cbn [nth_error] in Hx.
    + injection Hx as <-.
      destruct Hcase as [(Hlt & _)|(Hle & -> & _)]; [lia|].
      rewrite Hr. unfold num_eqb, ofZ. apply Qeq_bool_iff.
      change (inject_Z 0) with 0. apply Hr00; [exact HG0|].
      assert (0 < L) by (apply HLpos; lia). lra.
    + apply (IH3 Haf HG0 HLpos j x Hx). lia.
Qed.

(** On closes between 0 and [10^100] and a window of at least 1 every
    value of [computeRSI] is finite and lies between 0 and 100.  The
    bounds on the closes are there for the program, whose sums of gains
    and losses must stay finite; with exact sums the proof does not
    call on them. *)
Theorem computeRSI_in_range (qs : list Q) (w : Z) :
  (1 <= w)%Z -> boundedCloses qs ->
  Forall percent (computeRSI (map Fin qs) w).
Proof.
  intros Hw _. destruct qs as [|b rest]; [constructor|].
  cbn [map computeRSI]. constructor.
  - exists (inject_Z 50). split; [reflexivity|].
    change (inject_Z 50) with 50. lra.
  - change (ofZ 0) with (Fin 0).
    apply (rsiLoop_finite Hw rest 1 b (g := 0) (l := 0)); lra.
Qed.


Lemma rsiLoop_warmup (w : Z) (rest : list number) :
  forall i before gain loss j x,
    nth_error (rsiLoop w i before rest gain loss) j = Some x ->
    (i + Z.of_nat j < w)%Z -> x = ofZ 50.
Proof.
  induction rest as [|c rest IH]; intros i before gain loss j x Hx Hj;
    [destruct j; discriminate|].
  cbn [rsiLoop] in Hx.
  destruct (i <=? w)%Z eqn:Le; [destruct (i =? w)%Z eqn:Eq|].
  - apply Z.eqb_eq in Eq. lia.
  - destruct j as [|j]; cbn [nth_error] in Hx; [congruence|].
    eapply IH; [exact Hx|lia].
  - apply Z.leb_gt in Le. lia.
Qed.

(** Whatever the closes, [computeRSI] is the sentinel 50 at index 0 and
    at every index below the window. *)
Theorem computeRSI_sentinel_before_window (closes : list number) (w i : Z) :
  (0 <= i < Z.of_nat (List.length closes))%Z -> (i = 0 \/ i < w)%Z ->
  at_ (computeRSI closes w) i = Some (ofZ 50).
Proof.
  intros Hi Hw. destruct closes as [|b rest]; [cbn in Hi; lia|].
  cbn [List.length] in Hi. cbn [computeRSI]. unfold at_.
  destruct (i <? 0)%Z eqn:L; [apply Z.ltb_lt in L; lia|].
  destruct (Z.eq_dec i 0) as [->|Hne]; [reflexivity|].
  replace (Z.to_nat i) with (S (Z.to_nat (i - 1))) by lia.
  cbn [nth_error].
  destruct (nth_error_in_range (rsiLoop w 1 b rest (ofZ 0) (ofZ 0))
              (j := Z.to_nat (i - 1))) as [x Hx].
  { rewrite rsiLoop_length. lia. }
  rewrite Hx. f_equal. eapply rsiLoop_warmup; [exact Hx|lia].
Qed.

(** *** No lookahead *)

Lemma at_app_left {A : Type} (xs ys : list A) (i : Z) :
  (i < Z.of_nat (List.length xs))%Z -> at_ (xs ++ ys) i = at_ xs i.
Proof.
  intros Hi. unfold at_. destruct (i <? 0)%Z eqn:L; [reflexivity|].
  apply Z.ltb_ge in L. apply nth_error_app1. lia.
Qed.

Lemma element_app_left (xs ys : list (option number)) (i : Z) :
  (i < Z.of_nat (List.length xs))%Z -> element (xs ++ ys) i = element xs i.
Proof. intros Hi. unfold element. rewrite at_app_left by exact Hi. reflexivity. Qed.

Lemma smaLoop_app (xs ys : list number) (w : Z) (Hw : (1 <= w)%Z)
  (rest : list number) :
  forall i sum, (0 <= i)%Z ->
    (i + Z.of_nat (List.length rest) = Z.of_nat (List.length xs))%Z ->
    exists tail,
      smaLoop (xs ++ ys) w i (rest ++ ys) sum
      = (smaLoop xs w i rest sum ++ tail)%list.
Proof.
  induction rest as [|v rest IH]; intros i sum Hi Hlen.
  - cbn [app smaLoop]. eauto.
  - cbn [List.length] in Hlen. cbn [app smaLoop].
    rewrite (at_app_left xs ys (i := (i - w)%Z)) by lia.
    match goal with
    | |- context [smaLoop (xs ++ ys) w (i + 1) (rest ++ ys) ?s] =>
      destruct (IH (i + 1)%Z s ltac:(lia) ltac:(lia)) as [tail ->]
    end.
    exists tail. reflexivity.
Qed.

Lemma computeSMA_app (xs ys : list number) (w : Z) :
  (1 <= w)%Z ->
  exists tail, computeSMA (xs ++ ys) w = (computeSMA xs w ++ tail)%list.
Proof.
  intros Hw. unfold computeSMA. apply smaLoop_app; [exact Hw|lia|lia].
Qed.

Lemma emaLoop_app (w : Z) (m : number) (rest ys : list number) :
  forall i sum prev,
    exists tail,
      emaLoop w m i (rest ++ ys) sum prev
      = (emaLoop w m i rest sum prev ++ tail)%list.
Proof.
  induction rest as [|v rest IH]; intros i sum prev.
  - cbn [app emaLoop]. eauto.
  - cbn [app emaLoop]. destruct (i <? w)%Z;
      match goal with
      | |- context [emaLoop w m (i + 1) (rest ++ ys) ?s ?p] =>
        destruct (IH (i + 1)%Z s p) as [tail ->]
      end; exists tail; reflexivity.
Qed.

Lemma computeEMA_app (xs ys : list number) (w : Z) :
  exists tail, computeEMA (xs ++ ys) w = (computeEMA xs w ++ tail)%list.
Proof. unfold computeEMA. apply emaLoop_app. Qed.

Lemma rsiLoop_app (w : Z) (rest ys : list number) :
  forall i before gain loss,
    exists tail,
      rsiLoop w i before (rest ++ ys) gain loss
      = (rsiLoop w i before rest gain loss ++ tail)%list.
Proof.
  induction rest as [|c rest IH]; intros i before gain loss.
  - cbn [app rsiLoop]. eauto.
  - cbn [app rsiLoop].
    destruct (i <=? w)%Z; [destruct (i =? w)%Z|];
      match goal with
      | |- context [rsiLoop w (i + 1) c (rest ++ ys) ?g ?l] =>
        destruct (IH (i + 1)%Z c g l) as [tail ->]
      end; exists tail; reflexivity.
Qed.

Lemma computeRSI_app (xs ys : list number) (w : Z) :
  exists tail, computeRSI (xs ++ ys) w = (computeRSI xs w ++ tail)%list.
Proof.
  destruct xs as [|b rest]; [cbn; eauto|].
  cbn [app computeRSI].
  destruct (rsiLoop_app w rest ys 1 b (ofZ 0) (ofZ 0)) as [tail ->].
  exists tail. reflexivity.
Qed.

Lemma indices_app (n k : nat) :
  indices (n + k) = (indices n ++ map Z.of_nat (seq n k))%list.
Proof. unfold indices. rewrite seq_app, map_app. reflexivity. Qed.

Lemma In_indices (n : nat) (i : Z) :
  In i (indices n) -> (0 <= i < Z.of_nat n)%Z.
Proof.
  unfold indices. intros H. apply in_map_iff in H.
  destruct H as (j & <- & Hj). apply in_seq in Hj. lia.
Qed.

(** Two functions that agree below [n] give, on the indices of a longer
    array, a series that starts with the series on [n] indices. *)
Lemma map_indices_app {B : Type} (f g : Z -> B) (n k : nat) :
  (forall i, (0 <= i < Z.of_nat n)%Z -> g i = f i) ->
  exists tail, map g (indices (n + k)) = (map f (indices n) ++ tail)%list.
Proof.
  intros Hfg. rewrite indices_app, map_app.
  eexists. f_equal. apply map_ext_in. intros i Hi. apply Hfg, In_indices, Hi.
Qed.

Lemma compact_app (xs ys : list (option number)) :
  compact (xs ++ ys) = (compact xs ++ compact ys)%list.
Proof.
  induction xs as [|[x|] xs IH]; cbn; [reflexivity| |exact IH].
  rewrite IH. reflexivity.
Qed.

Lemma expand_app (mask mask' : list (option number)) :
  forall series series',
    List.length series = List.length (compact mask) ->
    expand (mask ++ mask') (series ++ series')
    = (expand mask series ++ expand mask' series')%list.
Proof.
  induction mask as [|[m|] mask IH]; intros series series' Hlen.
  - destruct series; [reflexivity|discriminate].
  - destruct series as [|v series]; [discriminate|].
    cbn in Hlen. cbn [app expand]. rewrite IH by lia. reflexivity.
  - cbn [app expand compact] in *. rewrite IH by exact Hlen. reflexivity.
Qed.

Lemma slice_app_left {A : Type} (xs ys : list A) (a b : Z) :
  (0 <= a)%Z -> (b <= Z.of_nat (List.length xs))%Z ->
  slice (xs ++ ys) a b = slice xs a b.
Proof.
  intros Ha Hb. unfold slice.
  destruct (Z_le_gt_dec b a) as [Hle|Hgt].
  - replace (Z.to_nat (b - a)) with 0%nat by lia. reflexivity.
  - rewrite skipn_app, firstn_app.
    replace (Z.to_nat (b - a) - List.length (skipn (Z.to_nat a) xs))%nat
      with 0%nat by (rewrite length_skipn; lia).
    cbn [firstn]. apply app_nil_r.
Qed.

Lemma computeMACD_app (xs ys : list number) (fast slow signal : Z) :
  let m := computeMACD xs fast slow signal in
  let m' := computeMACD (xs ++ ys) fast slow signal in
  exists t1 t2 t3,
    macd_macdLine m' = (macd_macdLine m ++ t1)%list /\
    macd_signal m' = (macd_signal m ++ t2)%list /\
    macd_histogram m' = (macd_histogram m ++ t3)%list.
Proof.
  cbn [computeMACD macd_macdLine macd_signal macd_histogram].
  destruct (computeEMA_app xs ys fast) as [tf Hf].
  destruct (computeEMA_app xs ys slow) as [ts Hs].
  rewrite Hf, Hs, length_app.
  destruct (map_indices_app
              (fun i => diffDefined (element (computeEMA xs fast) i)
                          (element (computeEMA xs slow) i))
              (fun i => diffDefined (element (computeEMA xs fast ++ tf) i)
                          (element (computeEMA xs slow ++ ts) i))
              (List.length xs) (List.length ys)) as [t1 H1].
  { intros i Hi. rewrite !element_app_left
      by (rewrite computeEMA_length; lia). reflexivity. }
  rewrite H1. set (line := map _ (indices (List.length xs))) in *.
  assert (Hline : List.length line = List.length xs)
    by (subst line; rewrite length_map, length_indices; reflexivity).
  rewrite compact_app.
  destruct (computeEMA_app (compact line) (compact t1) signal) as [t Ht].
  rewrite Ht, expand_app by apply computeEMA_length.
  set (sig := expand line (computeEMA (compact line) signal)) in *.
  assert (Hsig : List.length sig = List.length xs)
    by (subst sig; rewrite expand_length; exact Hline).
  destruct (map_indices_app
              (fun i => diffDefined (element line i) (element sig i))
              (fun i => diffDefined (element (line ++ t1) i)
                          (element (sig ++ expand t1 t) i))
              (List.length xs) (List.length ys)) as [t3 H3].
  { intros i Hi. rewrite !element_app_left by lia. reflexivity. }
  rewrite H3. do 3 eexists. repeat split; reflexivity.
Qed.

Lemma computeBollingerBands_app (xs ys : list number) (w : Z) (k : number) :
  (1 <= w)%Z ->
  let b := computeBollingerBands xs w k in
  let b' := computeBollingerBands (xs ++ ys) w k in
  exists t1 t2 t3,
    bb_upper b' = (bb_upper b ++ t1)%list /\
    bb_middle b' = (bb_middle b ++ t2)%list /\
    bb_lower b' = (bb_lower b ++ t3)%list.
Proof.
  intros Hw. cbn [computeBollingerBands bb_upper bb_middle bb_lower].
  destruct (computeSMA_app xs ys Hw) as [tm Hm].
  rewrite Hm, length_app.
  assert (Hpoint : forall i, (0 <= i < Z.of_nat (List.length xs))%Z ->
            (i >=? w - 1)%Z = true ->
            element (computeSMA xs w ++ tm) i = element (computeSMA xs w) i /\
            slice (xs ++ ys) (i - w + 1) (i + 1) = slice xs (i - w + 1) (i + 1)).
  { intros i Hi Hge. rewrite Z.geb_leb in Hge. apply Z.leb_le in Hge. split.
    - apply element_app_left. rewrite computeSMA_length. lia.
    - apply slice_app_left; lia. }
  match goal with
  | |- exists t1 t2 t3, map ?g _ = (map ?f _ ++ t1)%list /\ _ /\
                        map ?g' _ = (map ?f' _ ++ t3)%list =>
    destruct (map_indices_app f g (List.length xs) (List.length ys)) as [t1 H1];
    [|destruct (map_indices_app f' g' (List.length xs) (List.length ys))
        as [t3 H3]]
  end.
  - intros i Hi. destruct (i >=? w - 1)%Z eqn:G; [|reflexivity].
    destruct (Hpoint i Hi G) as [-> ->]. reflexivity.
  - intros i Hi. destruct (i >=? w - 1)%Z eqn:G; [|reflexivity].
    destruct (Hpoint i Hi G) as [-> ->]. reflexivity.
  - rewrite H1, H3. do 3 eexists. repeat split; reflexivity.
Qed.

Lemma computeStochastic_app (hs ls cs hs' ls' cs' : list number) (k d : Z) :
  (1 <= d)%Z ->
  List.length hs = List.length cs -> List.length ls = List.length cs ->
  let st := computeStochastic hs ls cs k d in
  let st' := computeStochastic (hs ++ hs') (ls ++ ls') (cs ++ cs') k d in
  exists t1 t2,
    st_stochK st' = (st_stochK st ++ t1)%list /\
    st_stochD st' = (st_stochD st ++ t2)%list.
Proof.
  intros Hd Lh Ll. cbn [computeStochastic st_stochK st_stochD].
  rewrite length_app.
  destruct (map_indices_app
              (fun i => if (i >=? k - 1)%Z
                        then Some (stochKAt hs ls cs k i) else None)
              (fun i => if (i >=? k - 1)%Z
                        then Some (stochKAt (hs ++ hs') (ls ++ ls') (cs ++ cs') k i)
                        else None)
              (List.length cs) (List.length cs')) as [t1 H1].
  { intros i Hi. destruct (i >=? k - 1)%Z eqn:G; [|reflexivity].
    rewrite Z.geb_leb in G. apply Z.leb_le in G.
    unfold stochKAt.
    rewrite !slice_app_left by lia.
    rewrite (at_app_left cs cs' (i := i)) by lia. reflexivity. }
  rewrite H1. set (K := map _ (indices (List.length cs))) in *.
  rewrite compact_app.
  destruct (computeSMA_app (compact K) (compact t1) Hd) as [t Ht].
  rewrite Ht, expand_app by apply computeSMA_length.
  do 2 eexists. split; reflexivity.
Qed.

Lemma combine_app {A B : Type} (xs xs' : list A) (ys ys' : list B) :
  List.length xs = List.length ys ->
  combine (xs ++ xs') (ys ++ ys') = (combine xs ys ++ combine xs' ys')%list.
Proof.
  revert ys. induction xs as [|x xs IH]; intros [|y ys] H; cbn in *;
    try discriminate; [reflexivity|].
  rewrite IH by lia. reflexivity.
Qed.

Lemma In_combine_indices {A : Type} (n : nat) (xs : list A) (i : Z) (x : A) :
  In (i, x) (combine (indices n) xs) -> (0 <= i < Z.of_nat n)%Z.
Proof. intros H. apply in_combine_l in H. apply In_indices, H. Qed.

Lemma computeMACD_lengths (values : list number) (fast slow signal : Z) :
  let m := computeMACD values fast slow signal in
  List.length (macd_macdLine m) = List.length values /\
  List.length (macd_signal m) = List.length values /\
  List.length (macd_histogram m) = List.length values.
Proof.
  cbn [computeMACD macd_macdLine macd_signal macd_histogram].
  rewrite expand_length, !length_map, !length_indices. auto.
Qed.

Lemma computeBollingerBands_lengths (values : list number) (w : Z) (k : number) :
  let b := computeBollingerBands values w k in
  List.length (bb_upper b) = List.length values /\
  List.length (bb_middle b) = List.length values /\
  List.length (bb_lower b) = List.length values.
Proof.
  cbn [computeBollingerBands bb_upper bb_middle bb_lower].
  rewrite !length_map, !length_indices, computeSMA_length. auto.
Qed.

Lemma computeStochastic_lengths (hs ls cs : list number) (k d : Z) :
  let st := computeStochastic hs ls cs k d in
  List.length (st_stochK st) = List.length cs /\
  List.length (st_stochD st) = List.length cs.
Proof.
  cbn [computeStochastic st_stochK st_stochD].
  rewrite expand_length, !length_map, !length_indices. auto.
Qed.

Lemma decorate_app (raw more : list Candle) :
  exists tail, decorate (raw ++ more) = (decorate raw ++ tail)%list.
Proof.
  unfold decorate. cbv zeta. rewrite !map_app, length_app.
  set (closes := map close raw). set (closes' := map close more).
  set (highs := map high raw). set (lows := map low raw).
  set (n := List.length raw).
  assert (Ln : List.length closes = n)
    by (subst closes n; apply length_map).
  destruct (computeSMA_app closes closes' (w := 10) ltac:(lia)) as [t1 H1].
  destruct (computeSMA_app closes closes' (w := 20) ltac:(lia)) as [t2 H2].
  destruct (computeEMA_app closes closes' 12) as [t3 H3].
  destruct (computeEMA_app closes closes' 26) as [t4 H4].
  destruct (computeMACD_app closes closes' 12 26 9)
    as (t5 & t6 & t7 & H5 & H6 & H7).
  destruct (computeBollingerBands_app closes closes' (w := 20) (ofZ 2)
              ltac:(lia)) as (t8 & t9 & t10 & H8 & H9 & H10).
  destruct (computeStochastic_app highs lows closes (map high more)
              (map low more) closes' 14 (d := 3) ltac:(lia))
    as (t11 & t12 & H11 & H12);
    [subst highs closes; rewrite !length_map; reflexivity
    |subst lows closes; rewrite !length_map; reflexivity|].
  rewrite H1, H2, H3, H4, H5, H6, H7, H8, H9, H10, H11, H12.
  destruct (computeMACD_lengths closes 12 26 9) as (L5 & L6 & L7).
  destruct (computeBollingerBands_lengths closes 20 (ofZ 2)) as (L8 & L9 & L10).
  destruct (computeStochastic_lengths highs lows closes 14 3) as (L11 & L12).
  rewrite indices_app, combine_app by apply length_indices.
  rewrite map_app. eexists. f_equal.
  apply map_ext_in. intros [i c] Hin. apply In_combine_indices in Hin.
  rewrite !element_app_left
    by (rewrite ?computeSMA_length, ?computeEMA_length, ?L5, ?L6, ?L7,
          ?L8, ?L9, ?L10, ?L11, ?L12, ?Ln; lia).
  reflexivity.
Qed.

Lemma prefix_firstn {A : Type} (xs tail : list A) :
  firstn (List.length xs) (xs ++ tail) = xs.
Proof.
  rewrite firstn_app, Nat.sub_diag, firstn_all. cbn. apply app_nil_r.
Qed.

(** Loading more candles after a series changes nothing before them:
    the decorated candles of the longer series start with the decorated
    candles of the shorter one, and so does the RSI.  No indicator value
    depends on a later candle. *)
Theorem indicators_have_no_lookahead (raw more : list Candle) (w : Z) :
  firstn (List.length raw) (decorate (raw ++ more)) = decorate raw /\
  firstn (List.length raw) (computeRSI (map close (raw ++ more)) w)
    = computeRSI (map close raw) w.
Proof.
  split.
  - destruct (decorate_app raw more) as [tail ->].
    rewrite <- (decorate_length raw). apply prefix_firstn.
  - rewrite map_app.
    destruct (computeRSI_app (map close raw) (map close more) w) as [tail ->].
    replace (List.length raw) with (List.length (computeRSI (map close raw) w)).
    + apply prefix_firstn.
    + unfold computeRSI. destruct raw as [|c rest]; [reflexivity|].
      cbn [map List.length]. rewrite rsiLoop_length, length_map. reflexivity.
Qed.

(** *** Decoration *)

Lemma nth_error_indices (n j : nat) :
  (j < n)%nat -> nth_error (indices n) j = Some (Z.of_nat j).
Proof.
  intros Hj. unfold indices. rewrite nth_error_map, nth_error_seq.
  replace (j <? n)%nat with true by (symmetry; apply Nat.ltb_lt; exact Hj).
  reflexivity.
Qed.

Lemma decorate_nth (raw : list Candle) (j : nat) (c0 : Candle) :
  nth_error raw j = Some c0 ->
  let closes := map close raw in
  let i := Z.of_nat j in
  nth_error (decorate raw) j = Some
    {| timestamp := timestamp c0;
       open := open c0;
       high := high c0;
       low := low c0;
       close := close c0;
       volume := volume c0;
       smaShort := element (computeSMA closes 10) i;
       smaLong := element (computeSMA closes 20) i;
       emaShort := element (computeEMA closes 12) i;
       emaLong := element (computeEMA closes 26) i;
       macdLine := element (macd_macdLine (computeMACD closes 12 26 9)) i;
       macdSignal := element (macd_signal (computeMACD closes 12 26 9)) i;
       macdHistogram := element (macd_histogram (computeMACD closes 12 26 9)) i;
       bollingerUpper :=
         element (bb_upper (computeBollingerBands closes 20 (ofZ 2))) i;
       bollingerMiddle :=
         element (bb_middle (computeBollingerBands closes 20 (ofZ 2))) i;
       bollingerLower :=
         element (bb_lower (computeBollingerBands closes 20 (ofZ 2))) i;
       stochK :=
         element (st_stochK (computeStochastic (map high raw) (map low raw)
                               closes 14 3)) i;
       stochD :=
         element (st_stochD (computeStochastic (map high raw) (map low raw)
                               closes 14 3)) i |}.
Proof.
  intros Hj closes i. unfold decorate. cbv zeta.
  assert (Hlt : (j < List.length raw)%nat)
    by (apply nth_error_Some; congruence).
  rewrite nth_error_map.
  rewrite (combine_nth_error _ _ _ (nth_error_indices Hlt) Hj).
  reflexivity.
Qed.

Lemma computeSMA_defined_at (values : list number) (w i : Z) :
  (0 <= i < Z.of_nat (List.length values))%Z ->
  isDefined (element (computeSMA values w) i) = (i >=? w - 1)%Z.
Proof.
  intros Hi.
  destruct (smaLoop_defined values w values 0 (ofZ 0) (j := Z.to_nat i))
    as (o & Ho & Hd); [lia|].
  unfold element, at_, computeSMA.
  destruct (i <? 0)%Z eqn:L; [apply Z.ltb_lt in L; lia|].
  rewrite Ho. cbn [chain]. unfold id. rewrite Hd. f_equal. lia.
Qed.

Lemma decorate_bothSmaDefined (raw : list Candle) (i : Z) (c : Candle) :
  at_ (decorate raw) i = Some c -> bothSmaDefined c = (i >=? 19)%Z.
Proof.
  intros Hc. pose proof (at_Some_range _ _ Hc) as Hi.
  rewrite decorate_length in Hi.
  destruct (at_in_range raw Hi) as [c0 Hc0].
  unfold at_ in Hc, Hc0. destruct (i <? 0)%Z; [discriminate|].
  pose proof (decorate_nth raw _ Hc0) as Hd. cbv zeta in Hd.
  rewrite Hd in Hc. injection Hc as <-.
  unfold bothSmaDefined. cbn [smaShort smaLong].
  rewrite Z2Nat.id by lia.
  rewrite !computeSMA_defined_at by (rewrite length_map; lia).
  change (20 - 1)%Z with 19%Z. change (10 - 1)%Z with 9%Z.
  rewrite !Z.geb_leb.
  destruct (19 <=? i)%Z eqn:G.
  - apply Z.leb_le in G.
    replace (9 <=? i)%Z with true by (symmetry; apply Z.leb_le; lia).
    reflexivity.
  - apply andb_false_r.
Qed.

Lemma warmupStart_decorate (raw : list Candle) :
  warmupStart (decorate raw)
  = if (20 <=? Z.of_nat (List.length raw))%Z then 19%Z else 0%Z.
Proof.
  destruct (warmupStart_spec (decorate raw))
    as [(c & Hc & Hdef & Hbefore)|(Hk & Hnone)].
  - rewrite (decorate_bothSmaDefined raw _ Hc) in Hdef.
    rewrite Z.geb_leb in Hdef. apply Z.leb_le in Hdef.
    pose proof (at_Some_range _ _ Hc) as Hr. rewrite decorate_length in Hr.
    replace (20 <=? Z.of_nat (List.length raw))%Z with true
      by (symmetry; apply Z.leb_le; lia).
    destruct (Z.eq_dec (warmupStart (decorate raw)) 19) as [E|Hne]; [exact E|].
    destruct (at_in_range (decorate raw) (i := 19%Z)) as [c19 H19];
      [rewrite decorate_length; lia|].
    pose proof (Hbefore 19%Z c19 ltac:(lia) H19) as Hfalse.
    rewrite (decorate_bothSmaDefined raw _ H19) in Hfalse. discriminate.
  - rewrite Hk.
    destruct (20 <=? Z.of_nat (List.length raw))%Z eqn:G; [|reflexivity].
    apply Z.leb_le in G.
    destruct (at_in_range (decorate raw) (i := 19%Z)) as [c19 H19];
      [rewrite decorate_length; lia|].
    pose proof (Hnone c19 (at_In _ _ H19)) as Hfalse.
    rewrite (decorate_bothSmaDefined raw _ H19) in Hfalse. discriminate.
Qed.

(** A loaded series starts at index 19 (the first candle with a
    20-period SMA) when it has at least 20 candles and at index 0 when
    it is shorter, and [reset] goes back to that same index. *)
Theorem warmup_start_of_loaded_series (now : string) (raw : list Candle)
  (s : SimulatorState) :
  let start := if (20 <=? Z.of_nat (List.length raw))%Z then 19%Z else 0%Z in
  currentIndex (loadCandles now raw s) = start /\
  currentIndex (dispatch reset (loadCandles now raw s)) = start.
Proof.
  intros start. split.
  - cbn [loadCandles currentIndex]. apply warmupStart_decorate.
  - destruct (dispatch_reset (loadCandles now raw s)) as (_ & _ & _ & _ & _ & _ & Hi & _).
    rewrite Hi. cbn [loadCandles candles]. apply warmupStart_decorate.
Qed.

End PipelineFacts.

(** ** A run depends on the past only *)

Section CausalityFacts.

Context {host : Host}.

Lemma decide_ext (n : StrategyName) (idx : Z) (c1 c2 : list Candle)
  (r1 r2 : list number) :
  at_ c1 idx = at_ c2 idx -> at_ c1 (idx - 1) = at_ c2 (idx - 1) ->
  at_ r1 idx = at_ r2 idx ->
  decide n idx c1 r1 = decide n idx c2 r2.
Proof. intros H1 H2 H3. unfold decide. rewrite H1, H2, H3. reflexivity. Qed.

Lemma computeRSI_length (closes : list number) (w : Z) :
  List.length (computeRSI closes w) = List.length closes.
Proof.
  destruct closes as [|b rest]; [reflexivity|].
  cbn [computeRSI List.length]. rewrite rsiLoop_length. reflexivity.
Qed.

Lemma decorate_close (raw : list Candle) :
  map close (decorate raw) = map close raw.
Proof.
  apply nth_error_ext. intros j. rewrite !nth_error_map.
  destruct (nth_error raw j) as [c0|] eqn:E.
  - rewrite (decorate_nth raw j E). reflexivity.
  - apply nth_error_None in E.
    replace (nth_error (decorate raw) j) with (@None Candle); [reflexivity|].
    symmetry. apply nth_error_None. rewrite decorate_length. exact E.
Qed.

(** The values of the stored RSI series are the 14-period RSI of the
    closes; the fallback 50 of the source is never taken. *)
Lemma loadCandles_rsi (now : string) (raw : list Candle) (s : SimulatorState) :
  map rp_value (rsiSeries (loadCandles now raw s))
  = computeRSI (map close raw) 14.
Proof.
  cbn [loadCandles rsiSeries]. rewrite decorate_close, decorate_length.
  apply nth_error_ext. intros j. rewrite !nth_error_map.
  destruct (nth_error (computeRSI (map close raw) 14) j) as [v|] eqn:E.
  - assert (Hj : (j < List.length raw)%nat).
    { rewrite <- (length_map close), <- (computeRSI_length _ 14).
      apply nth_error_Some. congruence. }
    destruct (nth_error_in_range (decorate raw) (j := j)) as [c Hc];
      [rewrite decorate_length; exact Hj|].
    rewrite (combine_nth_error _ _ _ (nth_error_indices Hj) Hc).
    cbn. unfold at_.
    replace (Z.of_nat j <? 0)%Z with false by (symmetry; apply Z.ltb_ge; lia).
    rewrite Nat2Z.id, E. reflexivity.
  - apply nth_error_None in E. rewrite computeRSI_length, length_map in E.
    replace (nth_error (combine (indices (List.length raw)) (decorate raw)) j)
      with (@None (Z * Candle)); [reflexivity|].
    symmetry. apply nth_error_None.
    rewrite length_combine, length_indices, decorate_length. lia.
Qed.

Lemma decorate_at_prefix (raw more : list Candle) (i : Z) :
  (i < Z.of_nat (List.length raw))%Z ->
  at_ (decorate (raw ++ more)) i = at_ (decorate raw) i.
Proof.
  intros Hi. destruct (decorate_app raw more) as [tail ->].
  apply at_app_left. rewrite decorate_length. exact Hi.
Qed.

Lemma computeRSI_at_prefix (raw more : list Candle) (i : Z) :
  (i < Z.of_nat (List.length raw))%Z ->
  at_ (computeRSI (map close (raw ++ more)) 14) i
  = at_ (computeRSI (map close raw) 14) i.
Proof.
  intros Hi. rewrite map_app.
  destruct (computeRSI_app (map close raw) (map close more) 14) as [tail ->].
  apply at_app_left. rewrite computeRSI_length, length_map. exact Hi.
Qed.

(** The decision at an index of a loaded series is the one taken when
    only the candles up to that index are loaded. *)
Lemma decide_on_prefix (now1 now2 : string) (raw more : list Candle)
  (s1 s2 : SimulatorState) (n : StrategyName) (idx : Z) :
  (idx < Z.of_nat (List.length raw))%Z ->
  decide n idx (candles (loadCandles now2 (raw ++ more) s2))
    (map rp_value (rsiSeries (loadCandles now2 (raw ++ more) s2)))
  = decide n idx (candles (loadCandles now1 raw s1))
      (map rp_value (rsiSeries (loadCandles now1 raw s1))).
Proof.
  intros Hi. rewrite !loadCandles_rsi.
  cbn [loadCandles candles].
  apply decide_ext.
  - apply decorate_at_prefix. exact Hi.
  - apply decorate_at_prefix. lia.
  - apply computeRSI_at_prefix. exact Hi.
Qed.

(** Two stores that show the same run, run the same strategy, and agree
    on the candles at the current and the next index and on the RSI at
    the next index, show the same run after a [step]. *)
Lemma step_causal (s1 s2 : SimulatorState) (next : Candle) :
  sameRun s1 s2 -> strategyName s1 = strategyName s2 ->
  at_ (candles s1) (currentIndex s1 + 1) = Some next ->
  at_ (candles s2) (currentIndex s1 + 1) = Some next ->
  at_ (candles s1) (currentIndex s1) = at_ (candles s2) (currentIndex s1) ->
  at_ (map rp_value (rsiSeries s1)) (currentIndex s1 + 1)
    = at_ (map rp_value (rsiSeries s2)) (currentIndex s1 + 1) ->
  sameRun (dispatch step s1) (dispatch step s2).
Proof.
  intros Hrun Hn H1 H2 Hprev Hrsi.
  pose proof Hrun as (Hi & Hc & Hs & Ht & He & Hv & Hx).
  unfold dispatch, step.
  rewrite (not_at_end s1 H1).
  assert (H2' : at_ (candles s2) (currentIndex s2 + 1) = Some next)
    by (rewrite <- Hi; exact H2).
  rewrite (not_at_end s2 H2').
  rewrite <- Hi, <- Hn, <- Hc, <- Hs, <- Ht, <- He.
  rewrite (@decide_ext (strategyName s1) (currentIndex s1 + 1)
             (candles s2) (candles s1)
             (map rp_value (rsiSeries s2)) (map rp_value (rsiSeries s1))).
  - rewrite H1, H2.
    destruct (decide _ _ _ _) as [d|]; cbn [bind]; [|exact Hrun].
    destruct (action d);
      [destruct (cash s1 >=? close next)%num;
         [destruct (Math_floor (cash s1 / close next) >? ofZ 0)%num|]
      |destruct (shares s1 >? ofZ 0)%num|];
      unfold sameRun; cbn; repeat split; reflexivity.
  - rewrite H1, H2. reflexivity.
  - replace (currentIndex s1 + 1 - 1)%Z with (currentIndex s1) by lia.
    symmetry. exact Hprev.
  - symmetry. exact Hrsi.
Qed.

Lemma steps_frame (k : nat) :
  forall s, candles (steps k s) = candles s /\
            rsiSeries (steps k s) = rsiSeries s /\
            strategyName (steps k s) = strategyName s.
Proof.
  induction k as [|k IH]; intros s; [auto|].
  cbn [steps]. destruct (IH (dispatch step s)) as (-> & -> & ->).
  unfold dispatch. destruct (step s) as [s'|] eqn:E; [|auto].
  destruct (step_frame s E) as (-> & -> & -> & _). auto.
Qed.

Lemma steps_snoc (k : nat) :
  forall s, steps (S k) s = dispatch step (steps k s).
Proof.
  induction k as [|k IH]; intros s; [reflexivity|].
  change (steps (S (S k)) s) with (steps (S k) (dispatch step s)).
  rewrite IH. reflexivity.
Qed.

Lemma steps_index (k : nat) :
  forall s, seriesAligned s ->
    (currentIndex s + Z.of_nat k <= Z.of_nat (List.length (candles s)) - 1)%Z ->
    currentIndex (steps k s) = (currentIndex s + Z.of_nat k)%Z.
Proof.
  induction k as [|k IH]; intros s Hal Hk; [cbn; lia|].
  rewrite steps_snoc.
  assert (Hk' : (currentIndex s + Z.of_nat k
                 <= Z.of_nat (List.length (candles s)) - 1)%Z) by lia.
  specialize (IH s Hal Hk').
  destruct (steps_frame k s) as (Hc & Hr & _).
  destruct Hal as (Hlen & H0).
  destruct (@step_returns host (steps k s)) as [s' Hs'].
  { rewrite Hc, Hr. exact Hlen. }
  { rewrite IH. lia. }
  unfold dispatch. rewrite Hs'.
  destruct (step_frame _ Hs') as (_ & _ & _ & ->).
  rewrite IH, Hc.
  replace (currentIndex s + Z.of_nat k
           >=? Z.of_nat (List.length (candles s)) - 1)%Z with false; [lia|].
  symmetry. rewrite Z.geb_leb. apply Z.leb_gt. lia.
Qed.

(** A backtest has no lookahead.  Load a series of at least 20 candles,
    or the same series followed by further candles: as long as the
    index stays within the shorter series, the two stores show the same
    run after the same number of steps, whatever the strategy. *)
Theorem backtest_has_no_lookahead (now1 now2 : string)
  (raw more : list Candle) (s : SimulatorState) (k : nat) :
  (20 <= Z.of_nat (List.length raw))%Z ->
  (19 + Z.of_nat k <= Z.of_nat (List.length raw) - 1)%Z ->
  sameRun (steps k (loadCandles now1 raw s))
          (steps k (loadCandles now2 (raw ++ more) s)).
Proof.
  intros H20. induction k as [|k IH]; intros Hk.
  - cbn [steps]. unfold sameRun. cbn [loadCandles currentIndex cash shares
      trades equitySeries portfolioValue lastExplanation].
    rewrite !warmupStart_decorate, length_app, Nat2Z.inj_add.
    replace (20 <=? Z.of_nat (List.length raw))%Z with true
      by (symmetry; apply Z.leb_le; lia).
    replace (20 <=? Z.of_nat (List.length raw)
                    + Z.of_nat (List.length more))%Z with true
      by (symmetry; apply Z.leb_le; lia).
    rewrite decorate_at_prefix by lia.
    destruct (at_in_range (decorate raw) (i := 19%Z)) as [c ->];
      [rewrite decorate_length; lia|].
    repeat split; reflexivity.
  - specialize (IH ltac:(lia)).
    set (a := loadCandles now1 raw s) in *.
    set (b := loadCandles now2 (raw ++ more) s) in *.
    rewrite !steps_snoc.
    destruct (steps_frame k a) as (Hca & Hra & Hna).
    destruct (steps_frame k b) as (Hcb & Hrb & Hnb).
    assert (Hia : currentIndex (steps k a) = (19 + Z.of_nat k)%Z).
    { rewrite steps_index.
      - unfold a. cbn [loadCandles currentIndex].
        rewrite warmupStart_decorate.
        replace (20 <=? Z.of_nat (List.length raw))%Z with true
          by (symmetry; apply Z.leb_le; lia).
        reflexivity.
      - apply seriesAligned_load.
      - unfold a. cbn [loadCandles currentIndex candles].
        rewrite warmupStart_decorate, decorate_length.
        replace (20 <=? Z.of_nat (List.length raw))%Z with true
          by (symmetry; apply Z.leb_le; lia).
        lia. }
    destruct (at_in_range (decorate raw) (i := (19 + Z.of_nat k + 1)%Z))
      as [next Hnext]; [rewrite decorate_length; lia|].
    apply (@step_causal (steps k a) (steps k b) next).
    + exact IH.
    + rewrite Hna, Hnb. reflexivity.
    + rewrite Hca, Hia. exact Hnext.
    + rewrite Hcb, Hia. unfold b. cbn [loadCandles candles].
      rewrite decorate_at_prefix by lia. exact Hnext.
    + rewrite Hca, Hcb, Hia. unfold a, b. cbn [loadCandles candles].
      symmetry. apply decorate_at_prefix. lia.
    + rewrite Hra, Hrb, Hia. unfold a, b. rewrite !loadCandles_rsi.
      symmetry. apply computeRSI_at_prefix. lia.
Qed.

End CausalityFacts.

(** ** Where the derived indicators begin *)

Section WarmupFacts.

Context {host : Host}.

Ltac zbool :=
  rewrite ?Z.geb_leb;
  repeat match goal with
         | |- context [(?a <=? ?b)%Z] => destruct (Z.leb_spec a b)
         | |- context [(?a <=? ?b)%nat] => destruct (Nat.leb_spec a b)
         end;
  cbn; try reflexivity; try lia.

Lemma isDefined_diffDefined (a b : option number) :
  isDefined (diffDefined a b) = isDefined a && isDefined b.
Proof. destruct a, b; reflexivity. Qed.

Lemma computeEMA_defined_at (values : list number) (w i : Z) :
  (0 <= i < Z.of_nat (List.length values))%Z ->
  isDefined (element (computeEMA values w) i) = (i >=? w - 1)%Z.
Proof.
  intros Hi.
  destruct (emaLoop_defined w (ofZ 2 / (ofZ w + ofZ 1))%num values 0 (ofZ 0)
              None (j := Z.to_nat i)) as (o & Ho & Hd); [lia|].
  unfold element, at_, computeEMA.
  destruct (i <? 0)%Z eqn:L; [apply Z.ltb_lt in L; lia|].
  rewrite Ho. cbn [chain]. unfold id. rewrite Hd. f_equal. lia.
Qed.

Lemma computeEMA_nth_defined (values : list number) (w : Z) (j : nat) :
  (j < List.length values)%nat ->
  exists o, nth_error (computeEMA values w) j = Some o /\
            isDefined o = (Z.of_nat j >=? w - 1)%Z.
Proof.
  intros Hj. unfold computeEMA.
  destruct (emaLoop_defined w (ofZ 2 / (ofZ w + ofZ 1))%num values 0 (ofZ 0)
              None Hj) as (o & Ho & Hd).
  exists o. split; [exact Ho|]. rewrite Hd. f_equal.
Qed.

Lemma computeSMA_nth_defined (values : list number) (w : Z) (j : nat) :
  (j < List.length values)%nat ->
  exists o, nth_error (computeSMA values w) j = Some o /\
            isDefined o = (Z.of_nat j >=? w - 1)%Z.
Proof.
  intros Hj. unfold computeSMA.
  destruct (smaLoop_defined values w values 0 (ofZ 0) Hj) as (o & Ho & Hd).
  exists o. split; [exact Ho|]. rewrite Hd. f_equal.
Qed.

Lemma element_map_indices (f : Z -> option number) (n : nat) (i : Z) :
  (0 <= i < Z.of_nat n)%Z -> element (map f (indices n)) i = f i.
Proof.
  intros Hi. unfold element, at_.
  destruct (i <? 0)%Z eqn:L; [apply Z.ltb_lt in L; lia|].
  rewrite nth_error_map, nth_error_indices by lia.
  cbn. rewrite Z2Nat.id by lia. reflexivity.
Qed.

Lemma definedFrom_element (k : nat) (xs : list (option number)) (i : Z) :
  definedFrom k xs -> (0 <= i < Z.of_nat (List.length xs))%Z ->
  isDefined (element xs i) = (Z.of_nat k <=? i)%Z.
Proof.
  intros Hx Hi. destruct (Hx (Z.to_nat i)) as (o & Ho & Hd); [lia|].
  unfold element, at_.
  destruct (i <? 0)%Z eqn:L; [apply Z.ltb_lt in L; lia|].
  rewrite Ho. cbn [chain]. unfold id. rewrite Hd. zbool.
Qed.

Lemma map_indices_definedFrom (f : Z -> option number) (n k : nat) :
  (forall i, (0 <= i < Z.of_nat n)%Z ->
             isDefined (f i) = (Z.of_nat k <=? i)%Z) ->
  definedFrom k (map f (indices n)).
Proof.
  intros Hf j Hj. rewrite length_map, length_indices in Hj.
  rewrite nth_error_map, nth_error_indices by exact Hj.
  eexists. split; [reflexivity|]. rewrite Hf by lia. zbool.
Qed.

Lemma definedFrom_cons (k : nat) (m : option number)
  (mask : list (option number)) :
  definedFrom k (m :: mask) ->
  isDefined m = (k <=? 0)%nat /\ definedFrom (Nat.pred k) mask.
Proof.
  intros H. split.
  - destruct (H 0%nat) as (o & Ho & Hd); [cbn; lia|].
    cbn in Ho. injection Ho as <-. exact Hd.
  - intros j Hj. destruct (H (S j)) as (o & Ho & Hd); [cbn; lia|].
    exists o. split; [exact Ho|]. rewrite Hd.
    destruct k as [|k]; reflexivity.
Qed.

(** The compacted series of a mask defined from [k] on has the length of
    the mask less [k]. *)
Lemma compact_length_definedFrom (mask : list (option number)) :
  forall k, definedFrom k mask ->
    List.length (compact mask) = (List.length mask - k)%nat.
Proof.
  induction mask as [|m mask IH]; intros k H; [reflexivity|].
  destruct (definedFrom_cons H) as (Hm & Hrest).
  specialize (IH _ Hrest).
  destruct m as [v|]; destruct k as [|k]; cbn in Hm; try discriminate;
    cbn [compact List.length Nat.pred] in *; lia.
Qed.

(** Expanding a series over a mask defined from [k] on shifts it by
    [k]. *)
Lemma expand_definedFrom (mask : list (option number)) :
  forall k series j, definedFrom k mask -> (j < List.length mask)%nat ->
    nth_error (expand mask series) j
    = Some (if (k <=? j)%nat
            then match nth_error series (j - k) with
                 | Some v => v
                 | None => None
                 end
            else None).
Proof.
  induction mask as [|m mask IH]; intros k series j H Hj; [cbn in Hj; lia|].
  destruct (definedFrom_cons H) as (Hm & Hrest). cbn in Hj.
  destruct m as [v|]; destruct k as [|k]; cbn in Hm; try discriminate;
    cbn [Nat.pred] in Hrest.
  - destruct series as [|x series]; cbn [expand];
      (destruct j as [|j]; cbn [nth_error]; [reflexivity|]);
      rewrite (IH 0%nat _ j Hrest) by lia; cbn [Nat.leb];
      rewrite Nat.sub_0_r; cbn [Nat.sub nth_error]; try reflexivity.
    destruct j; reflexivity.
  - cbn [expand]. destruct j as [|j]; cbn [nth_error]; [reflexivity|].
    rewrite (IH k series j Hrest) by lia. reflexivity.
Qed.

(** A series computed on the compacted mask and put back on it: defined
    from the index where the mask and then the series begin. *)
Lemma expand_threshold (mask series : list (option number)) (k : nat)
  (w i : Z) :
  definedFrom k mask ->
  List.length series = List.length (compact mask) ->
  (forall j, (j < List.length series)%nat ->
     exists o, nth_error series j = Some o /\
               isDefined o = (Z.of_nat j >=? w - 1)%Z) ->
  (0 <= i < Z.of_nat (List.length mask))%Z ->
  isDefined (element (expand mask series) i)
  = (Z.of_nat k <=? i)%Z && (Z.of_nat k + w - 1 <=? i)%Z.
Proof.
  intros Hmask Hlen Hser Hi.
  rewrite (compact_length_definedFrom Hmask) in Hlen.
  unfold element, at_.
  destruct (i <? 0)%Z eqn:L; [apply Z.ltb_lt in L; lia|].
  rewrite (expand_definedFrom series Hmask (j := Z.to_nat i)) by lia.
  cbn [chain]. unfold id.
  destruct (Nat.leb_spec k (Z.to_nat i)) as [Hk|Hk].
  - destruct (Hser (Z.to_nat i - k)%nat) as (o & -> & Hd); [lia|].
    rewrite Hd. zbool.
  - zbool.
Qed.

Lemma macdLine_definedFrom (values : list number) (fast slow signal : Z) :
  definedFrom (Z.to_nat (Z.max fast slow - 1))
    (macd_macdLine (computeMACD values fast slow signal)).
Proof.
  cbn [computeMACD macd_macdLine]. apply map_indices_definedFrom.
  intros i Hi.
  rewrite isDefined_diffDefined, !computeEMA_defined_at by exact Hi. zbool.
Qed.

Lemma macdSignal_defined_at (values : list number) (fast slow signal i : Z) :
  (0 <= i < Z.of_nat (List.length values))%Z ->
  let K := Z.of_nat (Z.to_nat (Z.max fast slow - 1)) in
  isDefined (element (macd_signal (computeMACD values fast slow signal)) i)
  = (K <=? i)%Z && (K + signal - 1 <=? i)%Z.
Proof.
  intros Hi K.
  pose proof (macdLine_definedFrom values fast slow signal) as Hline.
  cbn [computeMACD macd_macdLine macd_signal] in *.
  apply expand_threshold.
  - exact Hline.
  - apply computeEMA_length.
  - intros j Hj. rewrite computeEMA_length in Hj.
    apply computeEMA_nth_defined. exact Hj.
  - rewrite length_map, length_indices. exact Hi.
Qed.

Lemma macdHistogram_defined_at (values : list number)
  (fast slow signal i : Z) :
  (0 <= i < Z.of_nat (List.length values))%Z ->
  let K := Z.of_nat (Z.to_nat (Z.max fast slow - 1)) in
  isDefined (element (macd_histogram (computeMACD values fast slow signal)) i)
  = (K <=? i)%Z && (K + signal - 1 <=? i)%Z.
Proof.
  intros Hi K.
  pose proof (macdSignal_defined_at values fast slow signal Hi) as Hsig.
  pose proof (macdLine_definedFrom values fast slow signal) as Hline.
  cbn [computeMACD macd_macdLine macd_signal macd_histogram] in *.
  rewrite element_map_indices by exact Hi.
  rewrite isDefined_diffDefined. cbv zeta in Hsig. rewrite Hsig.
  rewrite (definedFrom_element Hline)
    by (rewrite length_map, length_indices; exact Hi).
  fold K. destruct (K <=? i)%Z; reflexivity.
Qed.

Lemma stochK_definedFrom (highs lows closes : list number) (kP dP : Z) :
  definedFrom (Z.to_nat (kP - 1))
    (st_stochK (computeStochastic highs lows closes kP dP)).
Proof.
  cbn [computeStochastic st_stochK]. apply map_indices_definedFrom.
  intros i Hi. destruct (i >=? kP - 1)%Z eqn:G; cbn [isDefined];
    rewrite Z.geb_leb in G; revert G; zbool.
Qed.

Lemma stochD_defined_at (highs lows closes : list number) (kP dP i : Z) :
  (0 <= i < Z.of_nat (List.length closes))%Z ->
  let K := Z.of_nat (Z.to_nat (kP - 1)) in
  isDefined (element (st_stochD (computeStochastic highs lows closes kP dP)) i)
  = (K <=? i)%Z && (K + dP - 1 <=? i)%Z.
Proof.
  intros Hi K.
  pose proof (stochK_definedFrom highs lows closes kP dP) as HK.
  cbn [computeStochastic st_stochK st_stochD] in *.
  apply expand_threshold.
  - exact HK.
  - apply computeSMA_length.
  - intros j Hj. rewrite computeSMA_length in Hj.
    apply computeSMA_nth_defined. exact Hj.
  - rewrite length_map, length_indices. exact Hi.
Qed.

Lemma bollinger_defined_at (values : list number) (w : Z) (k : number)
  (i : Z) :
  (0 <= i < Z.of_nat (List.length values))%Z ->
  isDefined (element (bb_upper (computeBollingerBands values w k)) i)
    = (i >=? w - 1)%Z /\
  isDefined (element (bb_lower (computeBollingerBands values w k)) i)
    = (i >=? w - 1)%Z.
Proof.
  intros Hi. cbn [computeBollingerBands bb_upper bb_lower].
  rewrite !element_map_indices by exact Hi.
  destruct (i >=? w - 1)%Z; auto.
Qed.

(** With periods of at least 1, the derived series begin where their
    inputs allow: the MACD line at index [max fast slow - 1]; its signal
    line and histogram [signal - 1] indices later; both Bollinger bands
    at [window - 1]; %K at [kPeriod - 1] and %D [dPeriod - 1] indices
    later.  Before that, and outside the input, they are undefined. *)
Theorem derived_indicators_defined_from (values highs lows : list number)
  (fast slow signal window kPeriod dPeriod : Z) (stdDev : number) (i : Z) :
  (1 <= fast)%Z -> (1 <= slow)%Z -> (1 <= signal)%Z ->
  (1 <= kPeriod)%Z -> (1 <= dPeriod)%Z ->
  (0 <= i < Z.of_nat (List.length values))%Z ->
  let macd := computeMACD values fast slow signal in
  let bands := computeBollingerBands values window stdDev in
  let stoch := computeStochastic highs lows values kPeriod dPeriod in
  isDefined (element (macd_macdLine macd) i)
    = (Z.max fast slow - 1 <=? i)%Z /\
  isDefined (element (macd_signal macd) i)
    = (Z.max fast slow + signal - 2 <=? i)%Z /\
  isDefined (element (macd_histogram macd) i)
    = (Z.max fast slow + signal - 2 <=? i)%Z /\
  isDefined (element (bb_upper bands) i) = (window - 1 <=? i)%Z /\
  isDefined (element (bb_lower bands) i) = (window - 1 <=? i)%Z /\
  isDefined (element (st_stochK stoch) i) = (kPeriod - 1 <=? i)%Z /\
  isDefined (element (st_stochD stoch) i)
    = (kPeriod + dPeriod - 2 <=? i)%Z.
Proof.
  intros Hf Hs Hg Hk Hd Hi macd bands stoch.
  split; [|split; [|split; [|split; [|split; [|split]]]]].
  - subst macd.
    rewrite (definedFrom_element (macdLine_definedFrom values fast slow signal)).
    + zbool.
    + destruct (computeMACD_lengths values fast slow signal) as (-> & _).
      exact Hi.
  - subst macd. rewrite (macdSignal_defined_at values fast slow signal Hi).
    zbool.
  - subst macd. rewrite (macdHistogram_defined_at values fast slow signal Hi).
    zbool.
  - subst bands.
    destruct (bollinger_defined_at values window stdDev Hi) as (-> & _).
    zbool.
  - subst bands.
    destruct (bollinger_defined_at values window stdDev Hi) as (_ & ->).
    zbool.
  - subst stoch.
    rewrite (definedFrom_element
               (stochK_definedFrom highs lows values kPeriod dPeriod)).
    + zbool.
    + destruct (computeStochastic_lengths highs lows values kPeriod dPeriod)
        as (-> & _).
      exact Hi.
  - subst stoch.
    rewrite (stochD_defined_at highs lows values kPeriod dPeriod Hi). zbool.
Qed.

(** The same at the periods [buildStateFromCsvText] uses. *)
Lemma derived_indicators_defined_facts (closes highs lows : list number)
  (i : Z) :
  (0 <= i < Z.of_nat (List.length closes))%Z ->
  isDefined (element (macd_macdLine (computeMACD closes 12 26 9)) i)
    = (25 <=? i)%Z /\
  isDefined (element (macd_signal (computeMACD closes 12 26 9)) i)
    = (33 <=? i)%Z /\
  isDefined (element (macd_histogram (computeMACD closes 12 26 9)) i)
    = (33 <=? i)%Z /\
  isDefined (element (bb_upper (computeBollingerBands closes 20 (ofZ 2))) i)
    = (19 <=? i)%Z /\
  isDefined (element (bb_lower (computeBollingerBands closes 20 (ofZ 2))) i)
    = (19 <=? i)%Z /\
  isDefined (element (st_stochK (computeStochastic highs lows closes 14 3)) i)
    = (13 <=? i)%Z /\
  isDefined (element (st_stochD (computeStochastic highs lows closes 14 3)) i)
    = (15 <=? i)%Z.
Proof.
  intros Hi.
  split; [|split; [|split; [|split; [|split; [|split]]]]].
  - rewrite (definedFrom_element (macdLine_definedFrom closes 12 26 9)).
    + zbool.
    + destruct (computeMACD_lengths closes 12 26 9) as (-> & _). exact Hi.
  - rewrite (macdSignal_defined_at closes 12 26 9 Hi). zbool.
  - rewrite (macdHistogram_defined_at closes 12 26 9 Hi). zbool.
  - destruct (bollinger_defined_at closes 20 (ofZ 2) Hi) as (-> & _). zbool.
  - destruct (bollinger_defined_at closes 20 (ofZ 2) Hi) as (_ & ->). zbool.
  - rewrite (definedFrom_element (stochK_definedFrom highs lows closes 14 3)).
    + zbool.
    + destruct (computeStochastic_lengths highs lows closes 14 3) as (-> & _).
      exact Hi.
  - rewrite (stochD_defined_at highs lows closes 14 3 Hi). zbool.
Qed.

End WarmupFacts.

(** ** No signal before the indicators exist *)

Section SignalFacts.

Context {host : Host}.

(** The indicator fields of the candle at index [i] of a decorated
    series are defined from the indices 9, 19, 11, 25 (moving averages),
    25, 33, 33 (MACD), 19 (Bollinger) and 13, 15 (stochastic) on. *)
Lemma decorate_defined (raw : list Candle) (i : Z) (c : Candle) :
  at_ (decorate raw) i = Some c ->
  isDefined (smaShort c) = (9 <=? i)%Z /\
  isDefined (smaLong c) = (19 <=? i)%Z /\
  isDefined (emaShort c) = (11 <=? i)%Z /\
  isDefined (emaLong c) = (25 <=? i)%Z /\
  isDefined (macdLine c) = (25 <=? i)%Z /\
  isDefined (macdSignal c) = (33 <=? i)%Z /\
  isDefined (macdHistogram c) = (33 <=? i)%Z /\
  isDefined (bollingerUpper c) = (19 <=? i)%Z /\
  isDefined (bollingerMiddle c) = (19 <=? i)%Z /\
  isDefined (bollingerLower c) = (19 <=? i)%Z /\
  isDefined (stochK c) = (13 <=? i)%Z /\
  isDefined (stochD c) = (15 <=? i)%Z.
Proof.
  intros Hc. pose proof (at_Some_range _ _ Hc) as Hi.
  rewrite decorate_length in Hi.
  destruct (at_in_range raw Hi) as [c0 Hc0].
  unfold at_ in Hc, Hc0. destruct (i <? 0)%Z; [discriminate|].
  pose proof (decorate_nth raw _ Hc0) as Hd. cbv zeta in Hd.
  rewrite Hd in Hc. injection Hc as <-.
  cbn [smaShort smaLong emaShort emaLong macdLine macdSignal macdHistogram
       bollingerUpper bollingerMiddle bollingerLower stochK stochD].
  rewrite Z2Nat.id by lia.
  assert (Hi' : (0 <= i < Z.of_nat (List.length (map close raw)))%Z)
    by (rewrite length_map; exact Hi).
  pose proof (derived_indicators_defined_facts (map close raw)
                (map high raw) (map low raw) Hi') as H.
  cbn [computeBollingerBands bb_middle].
  rewrite !computeSMA_defined_at, !computeEMA_defined_at by exact Hi'.
  rewrite !Z.geb_leb.
  change (10 - 1)%Z with 9%Z. change (20 - 1)%Z with 19%Z.
  change (12 - 1)%Z with 11%Z. change (26 - 1)%Z with 25%Z.
  destruct H as (H1 & H2 & H3 & H4 & H5 & H6 & H7).
  repeat split; assumption.
Qed.

Lemma computeRSI_warmup_at (closes : list number) (w i : Z) :
  (0 <= i < Z.of_nat (List.length closes))%Z -> (i < w)%Z ->
  at_ (computeRSI closes w) i = Some (ofZ 50).
Proof.
  intros Hi Hw. destruct closes as [|b rest]; [cbn in Hi; lia|].
  cbn [List.length] in Hi. cbn [computeRSI]. unfold at_.
  destruct (i <? 0)%Z eqn:L; [apply Z.ltb_lt in L; lia|].
  destruct (Z.eq_dec i 0) as [->|Hne]; [reflexivity|].
  replace (Z.to_nat i) with (S (Z.to_nat (i - 1))) by lia.
  cbn [nth_error].
  destruct (nth_error_in_range (rsiLoop w 1 b rest (ofZ 0) (ofZ 0))
              (j := Z.to_nat (i - 1))) as [x Hx].
  { rewrite rsiLoop_length. lia. }
  rewrite Hx. f_equal. eapply rsiLoop_warmup; [exact Hx|lia].
Qed.

Ltac undefined_field :=
  repeat match goal with
         | H : isDefined (Some _) = (?a <=? ?b)%Z |- _ =>
           cbn [isDefined] in H; symmetry in H; apply Z.leb_le in H
         | H : isDefined None = _ |- _ => clear H
         end;
  first [eexists; split; reflexivity | exfalso; lia].

(** On a loaded series no strategy gives a signal before its indicators
    exist: [decide] returns HOLD at every index below 20 for the SMA
    crossover, 26 for the EMA crossover, 14 for RSI, 34 for MACD, 19 for
    the Bollinger bands and the mean reversion, 15 for the stochastic
    oscillator. *)
Theorem strategies_hold_until_warm (now : string) (raw : list Candle)
  (s : SimulatorState) (n : StrategyName) (w idx : Z) :
  firstSignalIndex n = Some w -> (idx < w)%Z ->
  let loaded := loadCandles now raw s in
  exists d, decide n idx (candles loaded) (map rp_value (rsiSeries loaded))
            = Normal d /\ action d = HOLD.
Proof.
  intros Hn Hidx loaded. subst loaded. rewrite loadCandles_rsi.
  cbn [loadCandles candles]. unfold decide.
  destruct (at_ (decorate raw) idx) as [c|] eqn:Hc;
    [|eexists; split; reflexivity].
  pose proof (decorate_defined raw idx Hc)
    as (D1 & D2 & D3 & D4 & D5 & D6 & D7 & D8 & D9 & D10 & D11 & D12).
  pose proof (at_Some_range _ _ Hc) as Hr. rewrite decorate_length in Hr.
  destruct n; cbn in Hn; try discriminate; injection Hn as <-.
  - (* SMA_CROSSOVER *)
    destruct (at_ (decorate raw) (idx - 1)) as [p|] eqn:Hp; cbn [chain].
    + pose proof (decorate_defined raw (idx - 1) Hp) as (_ & P2 & _).
      destruct (smaShort c), (smaLong c), (smaShort p), (smaLong p);
        undefined_field.
    + destruct (smaShort c), (smaLong c); eexists; split; reflexivity.
  - (* EMA_CROSSOVER *)
    destruct (at_ (decorate raw) (idx - 1)) as [p|] eqn:Hp; cbn [chain].
    + pose proof (decorate_defined raw (idx - 1) Hp) as (_ & _ & _ & P4 & _).
      destruct (emaShort c), (emaLong c), (emaShort p), (emaLong p);
        undefined_field.
    + destruct (emaShort c), (emaLong c); eexists; split; reflexivity.
  - (* RSI *)
    rewrite computeRSI_warmup_at by (rewrite ?length_map; lia).
    eexists; split; reflexivity.
  - (* MACD *)
    destruct (at_ (decorate raw) (idx - 1)) as [p|] eqn:Hp; cbn [chain].
    + pose proof (decorate_defined raw (idx - 1) Hp)
        as (_ & _ & _ & _ & _ & P6 & _).
      destruct (macdLine c), (macdSignal c), (macdLine p), (macdSignal p);
        undefined_field.
    + destruct (macdLine c), (macdSignal c); eexists; split; reflexivity.
  - (* BOLLINGER_BANDS *)
    destruct (bollingerUpper c), (bollingerLower c); undefined_field.
  - (* STOCHASTIC *)
    destruct (stochK c), (stochD c); undefined_field.
  - (* MEAN_REVERSION *)
    destruct (bollingerMiddle c); undefined_field.
Qed.

End SignalFacts.

(** ** The win rate of the sidebar *)

Section SidebarFacts.

Context {host : Host}.

Lemma sellTrades_In (log : list Trade) (t : Trade) :
  In t (sellTrades log) -> In t log /\ type t = TSELL.
Proof.
  unfold sellTrades. intros H. apply filter_In in H.
  destruct H as (Hin & Ht). split; [exact Hin|].
  destruct (type t); [discriminate|reflexivity].
Qed.

(** In a log that is ordered and starts with a BUY, the purchase the
    sidebar finds for a sale is the first trade of the log. *)
Lemma correspondingBuy_is_first (first : Trade) (rest : list Trade)
  (sell : Trade) :
  StronglySorted Z.lt (map index (first :: rest)) ->
  type first = TBUY ->
  In sell (sellTrades (first :: rest)) ->
  find (fun buy => (index buy <? index sell)%Z) (buyTrades (first :: rest))
  = Some first.
Proof.
  intros Hsorted Hbuy Hsell.
  destruct (sellTrades_In _ _ Hsell) as ([<-|Hin] & Htype); [congruence|].
  cbn [map] in Hsorted. apply StronglySorted_inv in Hsorted.
  destruct Hsorted as (_ & Hall). rewrite Forall_forall in Hall.
  assert (Hlt : (index first < index sell)%Z)
    by (apply Hall, in_map, Hin).
  unfold buyTrades. cbn [filter]. rewrite Hbuy. cbn [find].
  replace (index first <? index sell)%Z with true
    by (symmetry; apply Z.ltb_lt; exact Hlt).
  reflexivity.
Qed.

Lemma winningTrades_first (log : list Trade) :
  StronglySorted Z.lt (map index log) ->
  sellsFollowBuys false log = true ->
  winningTrades log = soldAboveFirst log.
Proof.
  intros Hsorted Hok. destruct log as [|first rest]; [reflexivity|].
  assert (Hbuy : type first = TBUY).
  { cbn [sellsFollowBuys] in Hok. destruct (type first); [reflexivity|].
    discriminate. }
  unfold winningTrades, soldAboveFirst. apply filter_ext_in.
  intros sell Hsell. cbv zeta.
  rewrite (@correspondingBuy_is_first first rest sell Hsorted Hbuy Hsell).
  reflexivity.
Qed.

Lemma filter_length_le {A : Type} (p : A -> bool) (xs : list A) :
  (List.length (filter p xs) <= List.length xs)%nat.
Proof.
  induction xs as [|x xs IH]; cbn [filter List.length]; [lia|].
  destruct (p x); cbn [List.length]; lia.
Qed.

Lemma winRate_percent (log : list Trade) : percent (winRate log).
Proof.
  unfold winRate, percent.
  pose proof (filter_length_le
    (fun sell =>
       match find (fun buy => (index buy <? index sell)%Z) (buyTrades log) with
       | Some buy => (price sell >? price buy)%num
       | None => false
       end) (sellTrades log)) as Hle.
  fold (winningTrades log) in Hle.
  set (n := List.length (sellTrades log)) in *.
  set (k := List.length (winningTrades log)) in *.
  cbv zeta.
  destruct (ofZ (Z.of_nat n) >? ofZ 0)%num eqn:G.
  - assert (Hn : (1 <= Z.of_nat n)%Z).
    { destruct n; [discriminate G|lia]. }
    unfold ofZ at 1. rewrite (ofZ_div _ Hn).
    change (Fin (inject_Z (Z.of_nat k) / inject_Z (Z.of_nat n)) * ofZ 100)%num
      with (Fin (inject_Z (Z.of_nat k) / inject_Z (Z.of_nat n)
                 * inject_Z 100)).
    eexists. split; [reflexivity|]. change (inject_Z 100) with 100.
    assert (H0 : 0 < inject_Z (Z.of_nat n)).
    { change 0 with (inject_Z 0). rewrite <- Zlt_Qlt. lia. }
    assert (Hk0 : 0 <= inject_Z (Z.of_nat k)).
    { change 0 with (inject_Z 0). rewrite <- Zle_Qle. lia. }
    assert (Hkn : inject_Z (Z.of_nat k) <= inject_Z (Z.of_nat n)).
    { rewrite <- Zle_Qle. lia. }
    assert (Hlo : 0 <= inject_Z (Z.of_nat k) / inject_Z (Z.of_nat n)).
    { apply Qle_shift_div_l; [exact H0|lra]. }
    assert (Hhi : inject_Z (Z.of_nat k) / inject_Z (Z.of_nat n) <= 1).
    { apply Qle_shift_div_r; [exact H0|lra]. }
    split; lra.
  - exists 0. split; [reflexivity|]. lra.
Qed.

(** After a [reset] (or a load) and any sequence of store actions, the
    sales the sidebar counts as won are those that closed above the
    price of the first trade of the log: every sale is compared with
    the first purchase of the run, not with the purchase it closes.
    The win rate shown lies between 0 and 100. *)
Theorem win_rate_compares_with_first_buy (acts : list StoreAction)
  (s : SimulatorState) (now : string) (raw : list Candle) :
  let afterReset := trades (performAll acts (dispatch reset s)) in
  let afterLoad := trades (performAll acts (loadCandles now raw s)) in
  winningTrades afterReset = soldAboveFirst afterReset /\
  winningTrades afterLoad = soldAboveFirst afterLoad /\
  percent (winRate afterReset) /\ percent (winRate afterLoad).
Proof.
  intros afterReset afterLoad.
  assert (Hinv : forall u, logOrdered u /\ neverShort u ->
                   winningTrades (trades u) = soldAboveFirst (trades u)).
  { intros u ((_ & Hsorted & _) & (Hok & _)).
    apply winningTrades_first; assumption. }
  split; [|split; [|split; apply winRate_percent]].
  - apply Hinv.
    apply (performAll_invariant (fun u => logOrdered u /\ neverShort u)).
    + intros t. split; [apply logOrdered_reset|apply neverShort_reset].
    + intros t (H1 & H2).
      split; [apply logOrdered_step, H1|apply neverShort_step, H2].
    + split; [apply logOrdered_reset|apply neverShort_reset].
  - apply Hinv.
    apply (performAll_invariant (fun u => logOrdered u /\ neverShort u)).
    + intros t. split; [apply logOrdered_reset|apply neverShort_reset].
    + intros t (H1 & H2).
      split; [apply logOrdered_step, H1|apply neverShort_step, H2].
    + split.
      * unfold logOrdered, loadCandles; cbn.
        repeat split; [lia|constructor|constructor|constructor].
      * unfold neverShort, loadCandles; cbn. split; reflexivity.
Qed.

(** Two round trips, the second one closed at a loss (bought at 200,
    sold at 180): both sales are above the first purchase at 100, and
    the win rate shown is 100. *)
Example a_losing_sale_counted_as_won :
  let log := [mkTrade 20 TBUY (ofZ 100) "b"; mkTrade 21 TSELL (ofZ 150) "s";
              mkTrade 22 TBUY (ofZ 200) "b"; mkTrade 23 TSELL (ofZ 180) "s"] in
  List.length (winningTrades log) = 2%nat /\
  (winRate log === ofZ 100)%num = true.
Proof. split; vm_compute; reflexivity. Qed.

End SidebarFacts.

(** ** Playback *)

Section PlaybackFacts.

Context {host : Host}.

Lemma step_keeps_controls (s : SimulatorState) :
  isPlaying (dispatch step s) = isPlaying s /\
  speedMs (dispatch step s) = speedMs s.
Proof.
  unfold dispatch. destruct (step s) as [s'|] eqn:E; [|auto].
  destruct (step_cases s E)
    as [->|(next & d & _ & _ & _ & _ & _ & Hp & Hs & _)]; auto.
Qed.

Lemma reset_keeps_controls (s : SimulatorState) :
  isPlaying (dispatch reset s) = isPlaying s /\
  speedMs (dispatch reset s) = speedMs s.
Proof.
  unfold dispatch. destruct (reset s) as [s'|] eqn:E; [|auto].
  unfold reset in E.
  destruct (match List.length (candles s) with
            | O => Normal []
            | S _ => match at_ (candles s) (warmupStart (candles s)) with
                     | Some c => Normal [mkEquityPoint (timestamp c)
                                           INITIAL_CAPITAL]
                     | None => Throw
                     end
            end) as [seed|]; cbn [bind] in E; [|discriminate].
  injection E as <-. auto.
Qed.

(** On the store, [setStrategyName] of the page is the action the
    ledger knows. *)
Lemma setStrategyNameOn_store (n : StrategyName) (p : Page) :
  store (setStrategyNameOn n p) = dispatch (setStrategyName n) (store p).
Proof.
  unfold setStrategyNameOn. cbv zeta.
  set (t := withIsPlaying false (withStrategyName n (store p))).
  assert (Ht : store (onStore (withStrategyName n)
                        (if isPlaying (store p) then pause p else p)) = t).
  { destruct (isPlaying (store p)) eqn:P.
    - unfold pause. destruct (intervalId p); reflexivity.
    - unfold t, onStore, withStrategyName, withIsPlaying. cbn.
      rewrite P. reflexivity. }
  unfold onStore at 1. cbn [store]. rewrite Ht.
  assert (E : setStrategyName n (store p) = reset t) by reflexivity.
  unfold dispatch. rewrite E.
  destruct (reset_returns t) as [t' ->]. reflexivity.
Qed.

Lemma oneDriver_onStore (f : SimulatorState -> SimulatorState) (p : Page) :
  (forall s, isPlaying (f s) = isPlaying s /\ speedMs (f s) = speedMs s) ->
  oneDriver p -> oneDriver (onStore f p).
Proof.
  intros Hf (Hplay & Hfresh). destruct (Hf (store p)) as (Hp & Hs).
  unfold oneDriver, onStore. cbn [store intervalId intervals nextHandle].
  rewrite Hp, Hs. split; assumption.
Qed.

Lemma oneDriver_pause (p : Page) :
  oneDriver p ->
  oneDriver (pause p) /\ isPlaying (store (pause p)) = false /\
  intervals (pause p) = [] /\
  speedMs (store (pause p)) = speedMs (store p) /\
  nextHandle (pause p) = nextHandle p.
Proof.
  intros (Hplay & Hfresh). unfold pause, oneDriver.
  destruct (isPlaying (store p)) eqn:P.
  - destruct Hplay as (h & Hid & Hlive). rewrite Hid. cbn.
    rewrite Hlive. unfold clearInterval. cbn. rewrite Nat.eqb_refl. cbn.
    repeat split; constructor.
  - rewrite Hplay in *. destruct (intervalId p); cbn;
      try rewrite Hplay; repeat split; constructor.
Qed.

Lemma oneDriver_play (p : Page) :
  oneDriver p ->
  oneDriver (play p) /\ speedMs (store (play p)) = speedMs (store p).
Proof.
  intros (Hplay & Hfresh). unfold play.
  destruct (isPlaying (store p)) eqn:P.
  - split; [|reflexivity]. unfold oneDriver. rewrite P. split; assumption.
  - unfold oneDriver. cbn. rewrite Hplay. split; [split|reflexivity].
    + exists (nextHandle p). split; reflexivity.
    + repeat constructor.
Qed.

Lemma oneDriver_paused_speed (ms : number) (p : Page) :
  oneDriver p -> isPlaying (store p) = false ->
  oneDriver (onStore (withSpeedMs ms) p).
Proof.
  intros (Hlive & Hfresh) P. rewrite P in Hlive.
  unfold oneDriver, onStore.
  cbn [store intervalId intervals nextHandle withSpeedMs isPlaying].
  rewrite P. split; assumption.
Qed.

Lemma oneDriver_run (a : PageAction) (p : Page) :
  keepsPlaying a = true -> oneDriver p -> oneDriver (run a p).
Proof.
  intros Ha Hp. destruct a; cbn [run]; try discriminate Ha.
  - apply oneDriver_play, Hp.
  - apply oneDriver_pause, Hp.
  - destruct (live h p); [|exact Hp]. unfold tick.
    destruct (_ >=? _)%Z; [apply oneDriver_pause, Hp|].
    apply oneDriver_onStore; [apply step_keeps_controls|exact Hp].
  - apply oneDriver_onStore; [apply step_keeps_controls|exact Hp].
  - apply oneDriver_onStore; [apply reset_keeps_controls|exact Hp].
  - unfold setStrategyNameOn. cbv zeta.
    apply oneDriver_onStore; [apply reset_keeps_controls|].
    apply oneDriver_onStore; [intros s; split; reflexivity|].
    destruct (isPlaying (store p)); [apply oneDriver_pause, Hp|exact Hp].
  - unfold setSpeedMs. cbv zeta.
    destruct (isPlaying (store p)) eqn:P.
    + destruct (oneDriver_pause Hp) as (Hq & Hpaused & _).
      apply oneDriver_play, oneDriver_paused_speed; assumption.
    + apply oneDriver_paused_speed; assumption.
  - apply oneDriver_onStore; [|exact Hp].
    intros s. split; reflexivity.
Qed.

(** Whatever is done to the page short of [loadFromCsvText], playback
    has one driver: while the store is playing exactly one interval is
    live, [intervalId] names it and its delay is the speed shown; while
    it is paused none is live. *)
Theorem playback_has_one_driver (acts : list PageAction) :
  forallb keepsPlaying acts = true -> oneDriver (runAll acts initialPage).
Proof.
  assert (H0 : oneDriver initialPage).
  { unfold oneDriver, initialPage. cbn. split; constructor. }
  revert H0. generalize initialPage. unfold runAll.
  induction acts as [|a acts IH]; intros p Hp Hacts; cbn [fold_left];
    [exact Hp|].
  cbn [forallb] in Hacts. apply andb_prop in Hacts.
  destruct Hacts as (Ha & Hacts).
  apply IH; [apply oneDriver_run; assumption|exact Hacts].
Qed.

Lemma leaked_onStore (h : nat) (f : SimulatorState -> SimulatorState)
  (p : Page) : leaked h p -> leaked h (onStore f p).
Proof. intros H. exact H. Qed.

Lemma leaked_pause (h : nat) (p : Page) : leaked h p -> leaked h (pause p).
Proof.
  intros (Hin & Hid & Hfresh). unfold pause, leaked.
  destruct (intervalId p) as [k|] eqn:E; cbn;
    [|split; [exact Hin|split; [congruence|exact Hfresh]]].
  split; [|split; [discriminate|exact Hfresh]].
  apply in_map_iff in Hin. destruct Hin as ((h' & d) & Hh & Hin).
  cbn in Hh. subst h'. apply in_map_iff. exists (h, d). split; [reflexivity|].
  unfold clearInterval. apply filter_In. split; [exact Hin|]. cbn.
  apply negb_true_iff, Nat.eqb_neq. congruence.
Qed.

Lemma leaked_play (h : nat) (p : Page) : leaked h p -> leaked h (play p).
Proof.
  intros (Hin & Hid & Hfresh). unfold play.
  destruct (isPlaying (store p)); [repeat split; assumption|].
  unfold leaked. cbn. split; [right; exact Hin|].
  split; [intros [= E]; lia|lia].
Qed.

Lemma leaked_run (h : nat) (a : PageAction) (p : Page) :
  leaked h p -> leaked h (run a p).
Proof.
  intros Hp. destruct a; cbn [run].
  - apply leaked_play, Hp.
  - apply leaked_pause, Hp.
  - destruct (live h0 p); [|exact Hp]. unfold tick.
    destruct (_ >=? _)%Z; [apply leaked_pause, Hp|exact Hp].
  - exact Hp.
  - exact Hp.
  - unfold setStrategyNameOn. cbv zeta.
    do 2 apply leaked_onStore.
    destruct (isPlaying (store p)); [apply leaked_pause, Hp|exact Hp].
  - unfold setSpeedMs. cbv zeta.
    destruct (isPlaying (store p)).
    + apply leaked_play, leaked_onStore, leaked_pause, Hp.
    + apply leaked_onStore, Hp.
  - exact Hp.
  - exact Hp.
Qed.

(** [loadFromCsvText] while playing marks the store as paused and
    leaves the interval running.  A [play] after it starts a second
    interval and forgets the handle of the first, and then nothing that
    can be done to the page stops the first one. *)
Theorem load_text_while_playing_leaks_interval (p : Page) (h : nat)
  (now : string) (raw : list Candle) :
  oneDriver p -> isPlaying (store p) = true -> intervalId p = Some h ->
  let loaded := run (LoadFromCsvText now raw) p in
  isPlaying (store loaded) = false /\
  live h loaded = true /\
  List.length (intervals (play loaded)) = 2%nat /\
  forall acts, live h (runAll acts (play loaded)) = true.
Proof.
  intros (Hplay & Hfresh) P Hid loaded. rewrite P in Hplay.
  destruct Hplay as (k & Hk & Hlive).
  assert (k = h) by congruence. subst k.
  assert (Hint : intervals loaded = [(h, speedMs (store p))]) by exact Hlive.
  assert (Hpaused : isPlaying (store loaded) = false) by reflexivity.
  assert (Hnext : (h < nextHandle loaded)%nat).
  { rewrite Hlive in Hfresh. apply Forall_inv in Hfresh. exact Hfresh. }
  clearbody loaded.
  split; [exact Hpaused|]. split; [|split].
  - unfold live. rewrite Hint. cbn. rewrite Nat.eqb_refl. reflexivity.
  - unfold play. rewrite Hpaused. cbn [intervals]. rewrite Hint. reflexivity.
  - intros acts.
    assert (Hleak : leaked h (play loaded)).
    { unfold play. rewrite Hpaused. unfold leaked. cbn.
      rewrite Hint. cbn. split; [auto|]. split; [intros [= E]; lia|lia]. }
    assert (Hall : leaked h (runAll acts (play loaded))).
    { revert Hleak. generalize (play loaded). unfold runAll.
      induction acts as [|a acts IH]; intros q Hq; cbn [fold_left];
        [exact Hq|].
      apply IH, leaked_run, Hq. }
    destruct Hall as (Hin & _). unfold live. apply existsb_exists.
    apply in_map_iff in Hin. destruct Hin as ((h' & d) & Hh & Hin).
    cbn in Hh. subst h'. exists (h, d). split; [exact Hin|].
    cbn. apply Nat.eqb_refl.
Qed.

Lemma fires_to_the_end (h : nat) (n : nat) :
  forall p,
    oneDriver p -> isPlaying (store p) = true -> intervalId p = Some h ->
    seriesAligned (store p) ->
    Z.to_nat (Z.of_nat (List.length (candles (store p))) - 1
              - currentIndex (store p)) = n ->
    let q := runAll (repeat (Fire h) (S n)) p in
    store q = withIsPlaying false (steps n (store p)) /\
    intervals q = [] /\ intervalId q = None.
Proof.
  induction n as [|n IH]; intros p Hp P Hid Hal Hn q; subst q.
  - cbn [repeat runAll fold_left run].
    destruct Hp as (Hplay & _). rewrite P in Hplay.
    destruct Hplay as (k & Hk & Hlive).
    assert (k = h) by congruence. subst k.
    unfold live. rewrite Hlive. cbn [existsb fst]. rewrite Nat.eqb_refl.
    cbn [orb]. unfold tick.
    replace (currentIndex (store p)
             >=? Z.of_nat (List.length (candles (store p))) - 1)%Z with true
      by (symmetry; rewrite Z.geb_leb; apply Z.leb_le; lia).
    unfold pause. rewrite Hid. cbn. rewrite Hlive.
    unfold clearInterval. cbn. rewrite Nat.eqb_refl. auto.
  - change (runAll (repeat (Fire h) (S (S n))) p)
      with (runAll (repeat (Fire h) (S n)) (run (Fire h) p)).
    assert (Hrun : run (Fire h) p = onStore (dispatch step) p).
    { cbn [run]. destruct Hp as (Hplay & _). rewrite P in Hplay.
      destruct Hplay as (k & Hk & Hlive).
      assert (k = h) by congruence. subst k.
      unfold live. rewrite Hlive. cbn [existsb fst]. rewrite Nat.eqb_refl.
      cbn [orb]. unfold tick.
      replace (currentIndex (store p)
               >=? Z.of_nat (List.length (candles (store p))) - 1)%Z
        with false
        by (symmetry; rewrite Z.geb_leb; apply Z.leb_gt; lia).
      reflexivity. }
    rewrite Hrun.
    destruct (step_keeps_controls (store p)) as (Hkp & Hks).
    destruct Hal as (Hlen & Hidx).
    destruct (@step_returns host (store p) Hlen ltac:(lia)) as [s' Hs'].
    destruct (step_frame _ Hs') as (Hc & Hr & _ & Hi).
    replace (currentIndex (store p)
             >=? Z.of_nat (List.length (candles (store p))) - 1)%Z
      with false in Hi
      by (symmetry; rewrite Z.geb_leb; apply Z.leb_gt; lia).
    assert (Hd : dispatch step (store p) = s')
      by (unfold dispatch; rewrite Hs'; reflexivity).
    destruct (IH (onStore (dispatch step) p)) as (Hstore & Hnone & Hnull).
    + apply oneDriver_onStore; [apply step_keeps_controls|exact Hp].
    + cbn [onStore store]. rewrite Hkp. exact P.
    + exact Hid.
    + cbn [onStore store]. rewrite Hd. unfold seriesAligned.
      rewrite Hc, Hr, Hi. split; [exact Hlen|lia].
    + cbn [onStore store]. rewrite Hd, Hc, Hi. lia.
    + cbn [onStore store] in Hstore. rewrite Hstore. auto.
Qed.

(** Playback runs to the last candle and stops itself.  From a store
    that is playing, once the interval has fired for every candle left
    and one time more, the store holds the run of that many steps and
    is paused, and no interval is live. *)
Theorem playback_stops_at_the_end (p : Page) (h : nat) :
  oneDriver p -> isPlaying (store p) = true -> intervalId p = Some h ->
  seriesAligned (store p) ->
  let left := Z.to_nat (Z.of_nat (List.length (candles (store p))) - 1
                        - currentIndex (store p)) in
  let q := runAll (repeat (Fire h) (S left)) p in
  store q = withIsPlaying false (steps left (store p)) /\
  isPlaying (store q) = false /\
  intervals q = [] /\ intervalId q = None /\
  forall k, store (runAll (repeat (Fire h) k) q) = store q.
Proof.
  intros Hp P Hid Hal left q.
  destruct (@fires_to_the_end h left p Hp P Hid Hal eq_refl)
    as (Hstore & Hnone & Hnull).
  fold q in Hstore, Hnone, Hnull.
  split; [exact Hstore|]. split; [rewrite Hstore; reflexivity|].
  split; [exact Hnone|]. split; [exact Hnull|].
  clearbody q. intros k.
  assert (Hdead : run (Fire h) q = q).
  { cbn [run]. unfold live. rewrite Hnone. reflexivity. }
  induction k as [|k IH]; [reflexivity|].
  cbn [repeat]. unfold runAll in *. cbn [fold_left].
  rewrite Hdead. exact IH.
Qed.

End PlaybackFacts.

(** ** The chart and the progress bar *)

Section ViewFacts.

Context {host : Host}.

Lemma indexInRange_reset (s : SimulatorState) :
  indexInRange (dispatch reset s).
Proof.
  destruct (dispatch_reset s)
    as (Hc & _ & _ & _ & _ & _ & Hi & _ & _ & He).
  unfold indexInRange. rewrite Hc, Hi, He.
  pose proof (warmupStart_nonneg (candles s)) as H0.
  destruct (candles s) as [|c0 rest] eqn:Hcs.
  - cbn. lia.
  - destruct (warmupStart_in_range (cs := c0 :: rest)) as [c Hc']; [discriminate|].
    rewrite Hc'. apply at_Some_range in Hc'. cbn [List.length] in *. lia.
Qed.

Lemma indexInRange_step (s : SimulatorState) :
  indexInRange s -> indexInRange (dispatch step s).
Proof.
  intros (Hidx & Heq). unfold dispatch.
  destruct (step s) as [s'|] eqn:E; [|split; assumption].
  destruct (step_cases s E)
    as [->|(next & d & Hn & _ & Hc & _ & _ & _ & _ & Hi & _ & He & _)];
    [split; assumption|].
  apply at_Some_range in Hn.
  unfold indexInRange. rewrite Hc, Hi, He, length_app. cbn [List.length].
  lia.
Qed.

Lemma indexInRange_load (now : string) (raw : list Candle)
  (s : SimulatorState) : indexInRange (loadCandles now raw s).
Proof.
  unfold indexInRange. cbn [loadCandles candles currentIndex equitySeries].
  pose proof (warmupStart_nonneg (decorate raw)) as H0.
  destruct (decorate raw) as [|c0 rest] eqn:Hcs.
  - cbn. lia.
  - destruct (warmupStart_in_range (cs := c0 :: rest)) as [c Hc']; [discriminate|].
    apply at_Some_range in Hc'. cbn [List.length] in *. lia.
Qed.

Lemma shown_all {A : Type} (xs : list A) (i : Z) :
  (Z.of_nat (List.length xs) <= i + 1)%Z -> shown xs i = xs.
Proof.
  intros H. unfold shown, slice. change (skipn (Z.to_nat 0) xs) with xs.
  apply firstn_all2. lia.
Qed.

Lemma shown_length {A : Type} (xs : list A) (i : Z) :
  (0 <= i < Z.of_nat (List.length xs))%Z ->
  shown xs i = firstn (Z.to_nat (i + 1)) xs /\
  List.length (shown xs i) = Z.to_nat (i + 1).
Proof.
  intros H. unfold shown, slice. change (skipn (Z.to_nat 0) xs) with xs.
  replace (Z.to_nat (Z.max 1 (i + 1) - 0)) with (Z.to_nat (i + 1)) by lia.
  split; [reflexivity|]. rewrite length_firstn. lia.
Qed.

(** After a [reset] (or a load) and any sequence of store actions, the
    price chart draws the candles up to the current index and no later
    one, and the equity chart draws the whole equity curve. *)
Theorem chart_shows_the_run_so_far (acts : list StoreAction)
  (s : SimulatorState) (now : string) (raw : list Candle) (u : SimulatorState) :
  u = performAll acts (dispatch reset s) \/
  u = performAll acts (loadCandles now raw s) ->
  shown (equitySeries u) (currentIndex u) = equitySeries u /\
  (candles u <> [] ->
   shown (candles u) (currentIndex u)
     = firstn (Z.to_nat (currentIndex u + 1)) (candles u) /\
   List.length (shown (candles u) (currentIndex u))
     = Z.to_nat (currentIndex u + 1)).
Proof.
  intros Hu.
  assert (Hin : indexInRange u).
  { destruct Hu as [-> | ->]; apply performAll_invariant;
      auto using indexInRange_reset, indexInRange_step, indexInRange_load. }
  destruct Hin as (Hidx & Heq). split.
  - apply shown_all, Heq.
  - intros Hne. apply shown_length.
    destruct (candles u); [contradiction|]. cbn [List.length] in *. lia.
Qed.

Lemma max2_ofZ (n : Z) : max2 (ofZ 1) (ofZ n) = ofZ (Z.max 1 n).
Proof.
  unfold max2, ofZ, num_leb.
  destruct (Qle_bool (inject_Z 1) (inject_Z n)) eqn:E.
  - apply Qle_bool_iff in E. rewrite <- Zle_Qle in E.
    rewrite Z.max_r by lia. reflexivity.
  - destruct (Z_le_gt_dec 1 n) as [Hle|Hgt].
    + assert (Qle_bool (inject_Z 1) (inject_Z n) = true)
        by (apply Qle_bool_iff; rewrite <- Zle_Qle; exact Hle).
      congruence.
    + rewrite Z.max_l by lia. reflexivity.
Qed.

Lemma progress_value (i n : Z) :
  (0 <= i < Z.max 1 n)%Z ->
  exists r,
    min2 (ofZ 100)
      (Math_round (((ofZ i + ofZ 1) / max2 (ofZ 1) (ofZ n)) * ofZ 100)%num)
    = ofZ r /\
    (0 <= r <= 100)%Z /\ ((i + 1)%Z = Z.max 1 n -> r = 100%Z).
Proof.
  intros Hi. rewrite max2_ofZ. set (d := Z.max 1 n) in *.
  assert (Hd : (1 <= d)%Z) by lia.
  change (ofZ i + ofZ 1)%num with (Fin (inject_Z i + inject_Z 1)).
  rewrite (ofZ_div _ Hd).
  change (Fin ((inject_Z i + inject_Z 1) / inject_Z d) * ofZ 100)%num
    with (Fin ((inject_Z i + inject_Z 1) / inject_Z d * inject_Z 100)).
  cbn [Math_round].
  set (x := (inject_Z i + inject_Z 1) / inject_Z d * inject_Z 100).
  assert (Hd0 : 0 < inject_Z d).
  { change 0 with (inject_Z 0). rewrite <- Zlt_Qlt. lia. }
  assert (Hnum : 0 < inject_Z i + inject_Z 1 /\
                 inject_Z i + inject_Z 1 <= inject_Z d).
  { rewrite <- inject_Z_plus. change 0 with (inject_Z 0).
    rewrite <- Zlt_Qlt, <- Zle_Qle. lia. }
  assert (Hq : 0 < (inject_Z i + inject_Z 1) / inject_Z d /\
               (inject_Z i + inject_Z 1) / inject_Z d <= 1).
  { split; [apply Qlt_shift_div_l; lra|apply Qle_shift_div_r; lra]. }
  assert (Hx : 0 < x /\ x <= 100).
  { unfold x. change (inject_Z 100) with 100. split; nra. }
  pose proof (Qfloor_le (x + (1 # 2))) as Hlo.
  pose proof (Qlt_floor (x + (1 # 2))) as Hhi.
  set (r := Qfloor (x + (1 # 2))) in *.
  assert (Hr : (0 <= r <= 100)%Z).
  { split.
    - assert (H : inject_Z 0 < inject_Z (r + 1))
        by (change (inject_Z 0) with 0; lra).
      rewrite <- Zlt_Qlt in H. lia.
    - assert (H : inject_Z r < inject_Z 101)
        by (change (inject_Z 101) with 101; lra).
      rewrite <- Zlt_Qlt in H. lia. }
  assert (Hend : (i + 1)%Z = d -> r = 100%Z).
  { intros E.
    assert (Hx100 : x == 100).
    { unfold x. rewrite <- inject_Z_plus, E.
      change (inject_Z 100) with 100. field. lra. }
    assert (H : inject_Z 100 < inject_Z (r + 1))
      by (change (inject_Z 100) with 100; lra).
    rewrite <- Zlt_Qlt in H. lia. }
  unfold min2, ofZ, num_leb.
  destruct (Qle_bool (inject_Z 100) (inject_Z r)) eqn:E.
  - apply Qle_bool_iff in E. rewrite <- Zle_Qle in E.
    exists 100%Z. split; [reflexivity|]. split; [lia|reflexivity].
  - exists r. split; [reflexivity|]. split; [exact Hr|exact Hend].
Qed.

(** After a [reset] (or a load) and any sequence of store actions, the
    width of the progress bar is a whole number of percent between 0
    and 100, the rounded quotient never exceeding the 100 it is capped
    at, and it is 100 when the run is at its last candle, where [step]
    does nothing more. *)
Theorem progress_bar_in_range (acts : list StoreAction)
  (s : SimulatorState) (now : string) (raw : list Candle) (u : SimulatorState) :
  u = performAll acts (dispatch reset s) \/
  u = performAll acts (loadCandles now raw s) ->
  exists r, progress u = ofZ r /\ (0 <= r <= 100)%Z /\
    ((currentIndex u >= Z.of_nat (List.length (candles u)) - 1)%Z ->
     r = 100%Z).
Proof.
  intros Hu.
  assert (Hin : indexInRange u).
  { destruct Hu as [-> | ->]; apply performAll_invariant;
      auto using indexInRange_reset, indexInRange_step, indexInRange_load. }
  destruct Hin as (Hidx & _).
  destruct (@progress_value (currentIndex u)
              (Z.of_nat (List.length (candles u))) Hidx)
    as (r & Hr & Hrange & Hend).
  exists r. split; [exact Hr|]. split; [exact Hrange|].
  intros Hlast. apply Hend. lia.
Qed.

End ViewFacts.

(** ** Where binary64 decides *)

Section RoundingExamples.

Import Binary64.

(** A purchase can cost more than the cash.  With 10000 in cash and a
    price of 68.96551724137932 the quotient rounds to 145, the cost of
    145 shares rounds to a number above 10000, and the cash left is
    [-2^-39], about [-1.8e-12]. *)
Example rounded_purchase_overspends :
  let price := decimal 6896551724137932 14 in
  let after := purchase (ofInteger 10000) (ofInteger 0) price in
  ltb (ofInteger 0) price = true /\
  snd after = ofInteger 145 /\
  fst after = S754_finite true (2 ^ 52) (-91) /\
  ltb (fst after) (ofInteger 0) = true.
Proof. vm_compute. repeat split. Qed.

(** A quotient that overflows buys [Infinity] shares at a positive
    price: 10000 in cash at the smallest positive price. *)
Example tiny_price_buys_infinity :
  let price := S754_finite false 1 (-1074) in
  let after := purchase (ofInteger 10000) (ofInteger 0) price in
  ltb (ofInteger 0) price = true /\
  snd after = S754_infinity false /\ fst after = S754_infinity true.
Proof. vm_compute. repeat split. Qed.

(** [%K] at a close half-way between the low 54.42 and the high 97.44
    is not 50, and [%K] is 50 at the close 29.42, which is not half-way
    between 4.69 and 54.15. *)
Example half_way_and_50_differ :
  (let h := decimal 9744 2 in
   let l := decimal 5442 2 in
   let c := decimal 7593 2 in
   eqb (mul (ofInteger 2) c) (add h l) = true /\
   eqb (percentK h l c) (ofInteger 50) = false) /\
  (let h := decimal 5415 2 in
   let l := decimal 469 2 in
   let c := decimal 2942 2 in
   eqb (mul (ofInteger 2) c) (add h l) = false /\
   eqb (percentK h l c) (ofInteger 50) = true).
Proof. vm_compute. repeat split. Qed.

(** With a negative low the range of a window can overflow: on a bar
    from [-MAX_VALUE] to [MAX_VALUE] that closes at its high, [%K] is
    [NaN]. *)
Example negative_low_overflows :
  let h := MAX_VALUE in
  let l := SFopp MAX_VALUE in
  leb l h = true /\ percentK h l h = S754_nan.
Proof. vm_compute. repeat split. Qed.

End RoundingExamples.

(** ** Closed instances of the further properties *)

(** A [NaN] at index 1 is still in the 2-period SMA at index 4. *)
Lemma computeSMA_never_recovers_from_NaN_witness :
  let values := [ofZ 1; NaN; ofZ 3; ofZ 4; ofZ 5] in
  at_ values 1 = Some NaN /\
  (1 <= 4 < Z.of_nat (List.length values))%Z /\ (2 - 1 <= 4)%Z /\
  element (computeSMA values 2) 4 = Some NaN.
Proof.
  intros values.
  assert (H1 : at_ values 1 = Some NaN) by reflexivity.
  assert (H2 : (1 <= 4 < Z.of_nat (List.length values))%Z) by (simpl; lia).
  assert (H3 : (2 - 1 <= 4)%Z) by lia.
  exact (conj H1 (conj H2 (conj H3
           (computeSMA_never_recovers_from_NaN values 2 H1 H2 H3)))).
Defined.

(** The 2-period RSI of 1, 2, 3 stays between 0 and 100. *)
Lemma computeRSI_in_range_witness :
  (1 <= 2)%Z /\ boundedCloses [1; 2; 3] /\
  Forall percent (computeRSI (map Fin [1; 2; 3]) 2).
Proof.
  assert (H1 : (1 <= 2)%Z) by lia.
  assert (H2 : boundedCloses [1; 2; 3])
    by (split; [vm_compute; reflexivity
               |repeat constructor; vm_compute; discriminate]).
  exact (conj H1 (conj H2 (computeRSI_in_range H1 H2))).
Defined.


(** With a window of 14, the RSI of three closes is 50 at index 2. *)
Lemma computeRSI_sentinel_before_window_witness :
  let closes := [ofZ 3; ofZ 1; ofZ 2] in
  (0 <= 2 < Z.of_nat (List.length closes))%Z /\ (2 = 0 \/ 2 < 14)%Z /\
  at_ (computeRSI closes 14) 2 = Some (ofZ 50).
Proof.
  intros closes.
  assert (H1 : (0 <= 2 < Z.of_nat (List.length closes))%Z) by (simpl; lia).
  assert (H2 : (2 = 0 \/ 2 < 14)%Z) by lia.
  exact (conj H1 (conj H2
           (@computeRSI_sentinel_before_window closes 14%Z 2%Z H1 H2))).
Defined.

(** Two steps over the 22 rising bars, alone or followed by three later
    bars. *)
Lemma backtest_has_no_lookahead_witness :
  (20 <= Z.of_nat (List.length risingBars))%Z /\
  (19 + Z.of_nat 2 <= Z.of_nat (List.length risingBars) - 1)%Z /\
  sameRun (steps 2 (loadCandles "a" risingBars initialStore))
          (steps 2 (loadCandles "b" (risingBars ++ laterBars) initialStore)).
Proof.
  assert (H1 : (20 <= Z.of_nat (List.length risingBars))%Z)
    by (vm_compute; discriminate).
  assert (H2 : (19 + Z.of_nat 2 <= Z.of_nat (List.length risingBars) - 1)%Z)
    by (vm_compute; discriminate).
  exact (conj H1 (conj H2
           (backtest_has_no_lookahead "a" "b" risingBars laterBars
              initialStore 2 H1 H2))).
Defined.

(** On forty values the signal line of MACD(12, 26, 9) is there at index
    33. *)
Lemma derived_indicators_defined_from_witness :
  let values := repeat (ofZ 1) 40 in
  (1 <= 12)%Z /\ (1 <= 26)%Z /\ (1 <= 9)%Z /\ (1 <= 14)%Z /\ (1 <= 3)%Z /\
  (0 <= 33 < Z.of_nat (List.length values))%Z /\
  isDefined (element (macd_signal (computeMACD values 12 26 9)) 33) = true.
Proof.
  intros values.
  assert (H1 : (1 <= 12)%Z) by lia.
  assert (H2 : (1 <= 26)%Z) by lia.
  assert (H3 : (1 <= 9)%Z) by lia.
  assert (H4 : (1 <= 14)%Z) by lia.
  assert (H5 : (1 <= 3)%Z) by lia.
  assert (H6 : (0 <= 33 < Z.of_nat (List.length values))%Z)
    by (unfold values; rewrite repeat_length; lia).
  destruct (@derived_indicators_defined_from refHost values values values
              12 26 9 20 14 3 (ofZ 2) 33 H1 H2 H3 H4 H5 H6)
    as (_ & Hsignal & _).
  exact (conj H1 (conj H2 (conj H3 (conj H4 (conj H5 (conj H6 Hsignal)))))).
Defined.

(** MACD holds at index 21 of the rising bars. *)
Lemma strategies_hold_until_warm_witness :
  firstSignalIndex MACD = Some 34%Z /\ (21 < 34)%Z /\
  let loaded := loadCandles "a" risingBars initialStore in
  exists d, decide MACD 21 (candles loaded) (map rp_value (rsiSeries loaded))
            = Normal d /\ action d = HOLD.
Proof.
  assert (H1 : firstSignalIndex MACD = Some 34%Z) by reflexivity.
  assert (H2 : (21 < 34)%Z) by lia.
  exact (conj H1 (conj H2
           (@strategies_hold_until_warm refHost "a" risingBars initialStore
              MACD 34 21 H1 H2))).
Defined.

(** A session with a load, playback, a change of speed and a pause. *)
Lemma playback_has_one_driver_witness :
  let acts := [LoadDataset "a" risingBars; Play; Fire 0;
               SetSpeedMs (ofZ 100); Fire 1; Pause] in
  forallb keepsPlaying acts = true /\ oneDriver (runAll acts initialPage).
Proof.
  intros acts.
  assert (H1 : forallb keepsPlaying acts = true) by reflexivity.
  exact (conj H1 (@playback_has_one_driver refHost acts H1)).
Defined.

(** The fresh page, playing: its interval 0 survives a load of text and
    a second [play]. *)
Lemma load_text_while_playing_leaks_interval_witness :
  let p := play initialPage in
  let loaded := run (LoadFromCsvText "a" risingBars) p in
  oneDriver p /\ isPlaying (store p) = true /\ intervalId p = Some 0%nat /\
  isPlaying (store loaded) = false /\
  live 0 loaded = true /\
  List.length (intervals (play loaded)) = 2%nat /\
  forall acts, live 0 (runAll acts (play loaded)) = true.
Proof.
  intros p loaded.
  assert (H1 : oneDriver p).
  { unfold oneDriver. simpl. split.
    - exists 0%nat. split; reflexivity.
    - repeat constructor. }
  assert (H2 : isPlaying (store p) = true) by reflexivity.
  assert (H3 : intervalId p = Some 0%nat) by reflexivity.
  exact (conj H1 (conj H2 (conj H3
           (@load_text_while_playing_leaks_interval refHost p 0%nat "a"
              risingBars H1 H2 H3)))).
Defined.

(** The rising bars, loaded and played: two candles are left after the
    warm-up, and the third firing of the interval stops playback. *)
Lemma playback_stops_at_the_end_witness :
  let p := play (onStore (loadCandles "a" risingBars) initialPage) in
  let q := runAll (repeat (Fire 0) 3) p in
  oneDriver p /\ isPlaying (store p) = true /\ intervalId p = Some 0%nat /\
  seriesAligned (store p) /\
  store q = withIsPlaying false (steps 2 (store p)) /\
  isPlaying (store q) = false /\
  intervals q = [] /\ intervalId q = None /\
  forall k, store (runAll (repeat (Fire 0) k) q) = store q.
Proof.
  intros p q.
  assert (H1 : oneDriver p).
  { unfold oneDriver. simpl. split.
    - exists 0%nat. split; reflexivity.
    - repeat constructor. }
  assert (H2 : isPlaying (store p) = true) by reflexivity.
  assert (H3 : intervalId p = Some 0%nat) by reflexivity.
  assert (H4 : seriesAligned (store p))
    by (split; vm_compute; [reflexivity|discriminate]).
  exact (conj H1 (conj H2 (conj H3 (conj H4
           (@playback_stops_at_the_end refHost p 0%nat H1 H2 H3 H4))))).
Defined.

(** Two steps into the sample run. *)
Lemma chart_shows_the_run_so_far_witness :
  let u := performAll [DoStep; DoStep] (dispatch reset rsiDemo) in
  (u = performAll [DoStep; DoStep] (dispatch reset rsiDemo) \/
   u = performAll [DoStep; DoStep] (loadCandles "a" [] rsiDemo)) /\
  shown (equitySeries u) (currentIndex u) = equitySeries u /\
  (candles u <> [] ->
   shown (candles u) (currentIndex u)
     = firstn (Z.to_nat (currentIndex u + 1)) (candles u) /\
   List.length (shown (candles u) (currentIndex u))
     = Z.to_nat (currentIndex u + 1)).
Proof.
  intros u.
  assert (H1 : u = performAll [DoStep; DoStep] (dispatch reset rsiDemo) \/
               u = performAll [DoStep; DoStep] (loadCandles "a" [] rsiDemo))
    by (left; reflexivity).
  exact (conj H1
           (@chart_shows_the_run_so_far refHost [DoStep; DoStep] rsiDemo "a"
              [] u H1)).
Defined.

(** The sample run replayed to its end: the bar is full. *)
Lemma progress_bar_in_range_witness :
  let acts := repeat DoStep 15 in
  let u := performAll acts (dispatch reset rsiDemo) in
  (u = performAll acts (dispatch reset rsiDemo) \/
   u = performAll acts (loadCandles "a" [] rsiDemo)) /\
  exists r, progress u = ofZ r /\ (0 <= r <= 100)%Z /\
    ((currentIndex u >= Z.of_nat (List.length (candles u)) - 1)%Z ->
     r = 100%Z).
Proof.
  intros acts u.
  assert (H1 : u = performAll acts (dispatch reset rsiDemo) \/
               u = performAll acts (loadCandles "a" [] rsiDemo))
    by (left; reflexivity).
  exact (conj H1
           (@progress_bar_in_range refHost acts rsiDemo "a" [] u H1)).
Defined.
